(** * BitShare: connectivity and transfer core, embedded in Rocq

    A shallow embedding of the parts of the BitShare Go sources whose
    behaviour the specification pins down:

    - [Transfer]   the manifest construction of [SendFileChunked]
                   (internal/transfer, chunked engine);
    - [Framing]    [packMessage] and the frame reader of
                   [TCPManager.handlePeer] (internal/p2p/tcp.go);
    - [Mesh]       [FindPeerByIdOrName] and [ConnectToPeer]
                   (internal/mesh/coordinator.go);
    - [Discovery]  [ScanForPeersWithOptions] (internal/p2p, discovery);
    - [Cli]        [findBestRoute] and its call site (cmd, main.go).

    Conventions.  Go's [int64] is a [Z] kept in range by [wrap64]; Go's
    [int] is taken to be 64 bits wide except in [Framing], where the
    width is a parameter because the frame reader converts a [uint32] to
    [int].  A Go [error] is its message; [nil] is [None].  A run that
    panics is a value [Panic] of the result type. *)

From Stdlib Require Import ZArith Lia List String Ascii.
From stdpp Require Import base tactics option list strings gmap fin_maps.

Local Open Scope Z_scope.

(** ** Results of fallible Go code *)

Inductive outcome (A : Type) : Type :=
| Ok (a : A)
| Err (e : string)
| Panic (msg : string).
Arguments Ok {A} a.
Arguments Err {A} e.
Arguments Panic {A} msg.

(** [int64] arithmetic wraps around in two's complement. *)
Definition wrap64 (z : Z) : Z := (z + 2 ^ 63) mod 2 ^ 64 - 2 ^ 63.

Definition MaxInt64 : Z := 2 ^ 63 - 1.

(* ===================================================================== *)
(** * Chunked transfer: the manifest of [SendFileChunked]                *)
(* ===================================================================== *)

Module Transfer.

Record ChunkInfo : Type := mkChunkInfo {
  Index : Z;
  Size : Z;
  Offset : Z;
  Checksum : string;
  Completed : bool
}.

(** The fields that the construction of the manifest sets; the counters,
    the clock, the error and the mutex keep their zero values there. *)
Record FileTransferInfo : Type := mkFileTransferInfo {
  FileID : string;
  FileName : string;
  FilePath : string;
  FileSize : Z;
  ChunkSize : Z;
  Chunks : list ChunkInfo;
  TotalChunks : Z;
  Status : string
}.

(** The zero value that [make([]ChunkInfo, n)] fills the slice with. *)
Definition zeroChunk : ChunkInfo := mkChunkInfo 0 0 0 "" false.

Section Manifest.

(** The opened file and what the run-time library does with it: the bytes
    of the file, the SHA-256 digest in hexadecimal, and the error (if any)
    that [Seek] or [Read] reports while the chunk at a given offset and of
    a given size is read. *)
Variable content : list Byte.byte.
Variable sha256_hex : list Byte.byte -> string.
Variable io_fault : Z -> Z -> option string.

(** The bytes hashed by the read loop of [calculateChunkChecksum]: after
    [Seek(offset)], reads go on until [size] bytes have been read or the
    file ends. *)
Fixpoint readAt (data : list Byte.byte) (offset size : Z) : list Byte.byte :=
  match data with
  | [] => []
  | b :: rest =>
      if offset >? 0 then readAt rest (offset - 1) size
      else if size >? 0 then b :: readAt rest 0 (size - 1)
      else []
  end.

(** [calculateChunkChecksum]: seek to [offset], hash what is read, return
    the digest in hexadecimal; an error of [Seek] or [Read] is returned
    as it is. *)
Definition calculateChunkChecksum (offset size : Z) : outcome string :=
  match io_fault offset size with
  | Some e => Err e
  | None => Ok (sha256_hex (readAt content offset size))
  end.

Variable fileID fileName filePath : string.
Variable fileSize chunkSize : Z.

(** One pass of [for i := 0; i < totalChunks; i++]: [todo] is the number
    of iterations left, [i] the loop variable, [chunks] the slice
    [transferInfo.Chunks] updated in place; the slice has [totalChunks]
    elements, so the index is always inside it. *)
Fixpoint prepareChunks (todo : nat) (i : Z) (chunks : list ChunkInfo)
  : outcome (list ChunkInfo) :=
  match todo with
  | O => Ok chunks
  | S todo' =>
      let offset := wrap64 (i * chunkSize) in
      let size :=
        if wrap64 (offset + chunkSize) >? fileSize
        then wrap64 (fileSize - offset)
        else chunkSize in
      match calculateChunkChecksum offset size with
      | Ok checksum =>
          prepareChunks todo' (i + 1)
            (<[Z.to_nat i := mkChunkInfo i size offset checksum false]> chunks)
      | Err e => Err ("failed to calculate checksum: " +:+ e)
      | Panic msg => Panic msg
      end
  end.

(** [SendFileChunked] up to the point where the manifest is complete and
    about to be handed to [sendFileMetadata]. *)
Definition buildManifest : outcome FileTransferInfo :=
  if chunkSize =? 0 then Panic "integer divide by zero" else
  let totalChunks :=
    wrap64 (Z.quot (wrap64 (wrap64 (fileSize + chunkSize) - 1)) chunkSize) in
  if totalChunks <? 0 then Panic "makeslice: len out of range" else
  match prepareChunks (Z.to_nat totalChunks) 0
          (replicate (Z.to_nat totalChunks) zeroChunk) with
  | Ok chunks =>
      Ok (mkFileTransferInfo fileID fileName filePath fileSize chunkSize
            chunks totalChunks "preparing")
  | Err e => Err e
  | Panic msg => Panic msg
  end.

(** [sendFileMetadata] and [sendFileChunks] are placeholders that return
    [nil]. *)
Definition sendFileMetadata (info : FileTransferInfo) (peerID : string)
  : option string := None.
Definition sendFileChunks (info : FileTransferInfo) (peerID : string)
  : option string := None.

Definition withStatus (info : FileTransferInfo) (status : string)
  : FileTransferInfo :=
  mkFileTransferInfo (FileID info) (FileName info) (FilePath info)
    (FileSize info) (ChunkSize info) (Chunks info) (TotalChunks info) status.

(** [SendFileChunked] from the computation of the chunks on: the manifest
    is built, sent as metadata, and the chunks follow.  [Ok] carries the
    transfer info as the function leaves it when it returns [nil]. *)
Definition SendFileChunked (peerID : string) : outcome FileTransferInfo :=
  match buildManifest with
  | Ok info =>
      match sendFileMetadata info peerID with
      | Some err => Err ("failed to send file metadata: " +:+ err)
      | None =>
          match sendFileChunks (withStatus info "transferring") peerID with
          | Some err => Err ("failed to send file chunks: " +:+ err)
          | None => Ok (withStatus info "completed")
          end
      end
  | Err e => Err e
  | Panic msg => Panic msg
  end.

End Manifest.

(** The layout the loop assigns to chunk [i] when nothing overflows. *)
Definition chunkOffset (chunkSize i : Z) : Z := i * chunkSize.

Definition chunkLength (fileSize chunkSize i : Z) : Z :=
  Z.min chunkSize (fileSize - i * chunkSize).

(** [ceil(a / b)] for [b > 0], by floor division. *)
Definition ceilDiv (a b : Z) : Z := - ((- a) / b).

Definition sumSizes (cs : list ChunkInfo) : Z :=
  foldr (fun c acc => Size c + acc) 0 cs.

(** ** Arithmetic of the layout *)

Lemma wrap64_small (z : Z) : - 2 ^ 63 <= z < 2 ^ 63 -> wrap64 z = z.
Proof.
  intros Hz. unfold wrap64.
  rewrite Z.mod_small by lia. lia.
Qed.

Lemma ceilDiv_bounds (a b : Z) :
  0 < b -> (ceilDiv a b - 1) * b < a <= ceilDiv a b * b.
Proof.
  intros Hb. unfold ceilDiv.
  pose proof (Z.div_mod (- a) b ltac:(lia)) as Hdm.
  pose proof (Z.mod_pos_bound (- a) b Hb) as Hr.
  nia.
Qed.

Lemma ceilDiv_unique (a b n : Z) :
  0 < b -> (n - 1) * b < a <= n * b -> ceilDiv a b = n.
Proof.
  intros Hb Hn. pose proof (ceilDiv_bounds a b Hb) as Hc. nia.
Qed.

Lemma ceilDiv_add_pred (a b : Z) :
  0 < b -> (a + b - 1) / b = ceilDiv a b.
Proof.
  intros Hb. symmetry. apply ceilDiv_unique; [done|].
  pose proof (Z.div_mod (a + b - 1) b ltac:(lia)) as Hdm.
  pose proof (Z.mod_pos_bound (a + b - 1) b Hb) as Hr.
  nia.
Qed.

(** The value [totalChunks] receives when the sum does not overflow. *)
Lemma totalChunks_ceil (fileSize chunkSize : Z) :
  0 <= fileSize -> 0 < chunkSize -> fileSize + chunkSize - 1 <= MaxInt64 ->
  wrap64 (Z.quot (wrap64 (wrap64 (fileSize + chunkSize) - 1)) chunkSize)
  = ceilDiv fileSize chunkSize.
Proof.
  unfold MaxInt64. intros Hf Hc Hmax.
  pose proof (ceilDiv_bounds fileSize chunkSize Hc) as Hb.
  assert (0 <= ceilDiv fileSize chunkSize <= fileSize) as Hn by nia.
  destruct (decide (fileSize + chunkSize = 2 ^ 63)) as [Heq|Hne].
  - rewrite Heq.
    change (wrap64 (wrap64 (2 ^ 63) - 1)) with (2 ^ 63 - 1).
    replace (2 ^ 63 - 1) with (fileSize + chunkSize - 1) by lia.
    rewrite Z.quot_div_nonneg by lia.
    rewrite ceilDiv_add_pred by done.
    apply wrap64_small. lia.
  - rewrite (wrap64_small (fileSize + chunkSize)) by lia.
    rewrite (wrap64_small (fileSize + chunkSize - 1)) by lia.
    rewrite Z.quot_div_nonneg by lia.
    rewrite ceilDiv_add_pred by done.
    apply wrap64_small. lia.
Qed.

(** ** The loop *)

Section ManifestFacts.

Variable content : list Byte.byte.
Variable sha256_hex : list Byte.byte -> string.
Variable io_fault : Z -> Z -> option string.
Variable fileSize chunkSize : Z.

Local Abbreviation prepare := (prepareChunks content sha256_hex io_fault fileSize chunkSize).

(** The offset and size the loop body computes at index [i], as written. *)
Definition bodyOffset (i : Z) : Z := wrap64 (i * chunkSize).

Definition bodySize (i : Z) : Z :=
  if wrap64 (bodyOffset i + chunkSize) >? fileSize
  then wrap64 (fileSize - bodyOffset i)
  else chunkSize.

Lemma prepareChunks_length (todo : nat) :
  forall (i : Z) (chunks out : list ChunkInfo),
    prepare todo i chunks = Ok out -> length out = length chunks.
Proof.
  induction todo as [|todo IH]; intros i chunks out Hrun; simpl in Hrun.
  - by inversion Hrun.
  - destruct (calculateChunkChecksum _ _ _ _ _) as [sum|e|msg]; try discriminate.
    apply IH in Hrun. by rewrite length_insert in Hrun.
Qed.

Lemma prepareChunks_outside (todo : nat) :
  forall (i : Z) (chunks out : list ChunkInfo) (j : nat),
    0 <= i ->
    prepare todo i chunks = Ok out ->
    (Z.of_nat j < i \/ i + Z.of_nat todo <= Z.of_nat j) ->
    out !! j = chunks !! j.
Proof.
  induction todo as [|todo IH]; intros i chunks out j Hi Hrun Hj; simpl in Hrun.
  - by inversion Hrun.
  - destruct (calculateChunkChecksum _ _ _ _ _) as [sum|e|msg]; try discriminate.
    etrans; [eapply (IH (i + 1)); [lia|exact Hrun|lia]|].
    apply list_lookup_insert_ne. lia.
Qed.

Lemma prepareChunks_inside (todo : nat) :
  forall (i : Z) (chunks out : list ChunkInfo) (j : nat),
    0 <= i ->
    prepare todo i chunks = Ok out ->
    i <= Z.of_nat j < i + Z.of_nat todo ->
    (j < length chunks)%nat ->
    exists sum, out !! j =
      Some (mkChunkInfo (Z.of_nat j) (bodySize (Z.of_nat j))
              (bodyOffset (Z.of_nat j)) sum false).
Proof.
  induction todo as [|todo IH]; intros i chunks out j Hi Hrun Hj Hlen; [lia|].
  simpl in Hrun.
  destruct (calculateChunkChecksum _ _ _ _ _) as [sum|e|msg]; try discriminate.
  destruct (decide (i = Z.of_nat j)) as [->|Hne].
  - exists sum.
    etrans; [eapply (prepareChunks_outside todo (Z.of_nat j + 1));
             [lia|exact Hrun|lia]|].
    rewrite Nat2Z.id. by apply list_lookup_insert_eq.
  - eapply (IH (i + 1)); [lia|exact Hrun|lia|].
    by rewrite length_insert.
Qed.

Lemma prepareChunks_total (todo : nat) :
  (forall offset size, io_fault offset size = None) ->
  forall (i : Z) (chunks : list ChunkInfo),
    exists out, prepare todo i chunks = Ok out.
Proof.
  intros Hio. induction todo as [|todo IH]; intros i chunks; simpl.
  - by eexists.
  - unfold calculateChunkChecksum. rewrite Hio. apply IH.
Qed.

End ManifestFacts.

(** Inside the range of [int64] the loop body computes the layout. *)
Lemma body_layout (fileSize chunkSize i : Z) :
  0 <= fileSize -> 0 < chunkSize -> fileSize + chunkSize - 1 <= MaxInt64 ->
  0 <= i < ceilDiv fileSize chunkSize ->
  bodyOffset chunkSize i = chunkOffset chunkSize i /\
  bodySize fileSize chunkSize i = chunkLength fileSize chunkSize i.
Proof.
  unfold MaxInt64, bodySize, bodyOffset, chunkOffset, chunkLength.
  intros Hf Hc Hmax Hi.
  pose proof (ceilDiv_bounds fileSize chunkSize Hc) as Hb.
  assert (i * chunkSize < fileSize) by nia.
  assert (0 <= i * chunkSize) by nia.
  rewrite (wrap64_small (i * chunkSize)) by lia.
  rewrite (wrap64_small (i * chunkSize + chunkSize)) by nia.
  rewrite (wrap64_small (fileSize - i * chunkSize)) by lia.
  split; [done|].
  destruct (Z.gtb_spec (i * chunkSize + chunkSize) fileSize); lia.
Qed.

Lemma sumSizes_app (xs ys : list ChunkInfo) :
  sumSizes (xs ++ ys) = sumSizes xs + sumSizes ys.
Proof.
  induction xs as [|x xs IH]; simpl; [done|].
  unfold sumSizes in *. simpl. rewrite IH. lia.
Qed.

(** Summing the first [k] chunks of a list laid out as [chunkLength]. *)
Lemma sumSizes_take (fileSize chunkSize : Z) (cs : list ChunkInfo) (k : nat) :
  0 <= fileSize -> 0 < chunkSize ->
  Z.of_nat (length cs) = ceilDiv fileSize chunkSize ->
  (forall (j : nat) c, cs !! j = Some c ->
                       Size c = chunkLength fileSize chunkSize (Z.of_nat j)) ->
  (k <= length cs)%nat ->
  sumSizes (take k cs) = Z.min (Z.of_nat k * chunkSize) fileSize.
Proof.
  intros Hf Hc Hlen Hsz.
  pose proof (ceilDiv_bounds fileSize chunkSize Hc) as Hb.
  induction k as [|k IH]; intros Hk.
  - simpl. lia.
  - destruct (lookup_lt_is_Some_2 cs k ltac:(lia)) as [c Hck].
    rewrite (take_S_r _ _ _ Hck), sumSizes_app, IH by lia.
    unfold sumSizes at 1. simpl.
    rewrite (Hsz _ _ Hck). unfold chunkLength.
    assert (Z.of_nat k * chunkSize < fileSize) by nia.
    lia.
Qed.

(** ** The manifest *)

Section ManifestTheorems.

Variable content : list Byte.byte.
Variable sha256_hex : list Byte.byte -> string.
Variable io_fault : Z -> Z -> option string.
Variable fileID fileName filePath : string.

Local Abbreviation build :=
  (buildManifest content sha256_hex io_fault fileID fileName filePath).

(** What [buildManifest] returns, read off its definition. *)
Lemma buildManifest_Ok (fileSize chunkSize : Z) (m : FileTransferInfo) :
  build fileSize chunkSize = Ok m ->
  let n := wrap64 (Z.quot (wrap64 (wrap64 (fileSize + chunkSize) - 1))
                     chunkSize) in
  0 <= n /\ TotalChunks m = n /\ FileSize m = fileSize /\
  ChunkSize m = chunkSize /\
  prepareChunks content sha256_hex io_fault fileSize chunkSize
    (Z.to_nat n) 0 (replicate (Z.to_nat n) zeroChunk) = Ok (Chunks m).
Proof.
  intros Hrun n. unfold buildManifest in Hrun.
  destruct (chunkSize =? 0); [discriminate|].
  fold n in Hrun. destruct (Z.ltb_spec n 0); [discriminate|].
  destruct (prepareChunks _ _ _ _ _ _ _ _) as [chunks|e|msg]; try discriminate.
  inversion Hrun; subst m; simpl. done.
Qed.

(** Layout of the manifest whenever [fileSize + chunkSize - 1] fits in an
    [int64]: the number of chunks is the ceiling of the quotient, chunk
    [i] starts at [i * chunkSize], is not empty, ends inside the file, the
    sizes add up to the file size and the last chunk takes what is left. *)
Theorem manifest_layout (fileSize chunkSize : Z) (m : FileTransferInfo) :
  0 <= fileSize -> 0 < chunkSize -> fileSize + chunkSize - 1 <= MaxInt64 ->
  build fileSize chunkSize = Ok m ->
  TotalChunks m = ceilDiv fileSize chunkSize /\
  Z.of_nat (length (Chunks m)) = TotalChunks m /\
  (forall (i : nat) (c : ChunkInfo),
      Chunks m !! i = Some c ->
      Index c = Z.of_nat i /\
      Offset c = Z.of_nat i * chunkSize /\
      Size c = Z.min chunkSize (fileSize - Z.of_nat i * chunkSize) /\
      0 < Size c /\
      Offset c + Size c <= fileSize) /\
  sumSizes (Chunks m) = fileSize /\
  (forall c : ChunkInfo,
      last (Chunks m) = Some c ->
      Size c = fileSize - (TotalChunks m - 1) * chunkSize) /\
  (fileSize = 0 -> TotalChunks m = 0).
Proof.
  intros Hf Hc Hmax Hrun.
  apply buildManifest_Ok in Hrun as (Hn0 & Htot & _ & _ & Hloop).
  rewrite totalChunks_ceil in * by done.
  set (n := ceilDiv fileSize chunkSize) in *.
  pose proof (ceilDiv_bounds fileSize chunkSize Hc) as Hb. fold n in Hb.
  assert (Z.of_nat (length (Chunks m)) = n) as Hlen.
  { rewrite (prepareChunks_length _ _ _ _ _ _ _ _ _ Hloop), length_replicate.
    lia. }
  assert (forall (i : nat) (c : ChunkInfo),
             Chunks m !! i = Some c ->
             Index c = Z.of_nat i /\
             Offset c = Z.of_nat i * chunkSize /\
             Size c = chunkLength fileSize chunkSize (Z.of_nat i)) as Hlay.
  { intros i c Hic.
    assert (i < length (Chunks m))%nat as Hi by (by eapply lookup_lt_Some).
    assert (exists sum, Chunks m !! i =
              Some (mkChunkInfo (Z.of_nat i)
                      (bodySize fileSize chunkSize (Z.of_nat i))
                      (bodyOffset chunkSize (Z.of_nat i)) sum false))
      as [sum Hsum].
    { eapply prepareChunks_inside; [|exact Hloop| |]; [lia|lia|].
      rewrite length_replicate. lia. }
    rewrite Hic in Hsum. inversion Hsum; subst c; simpl.
    destruct (body_layout fileSize chunkSize (Z.of_nat i)) as [-> ->];
      [done|done|done|fold n; lia|done]. }
  split_and!.
  - done.
  - lia.
  - intros i c Hic.
    assert (i < length (Chunks m))%nat as Hi by (by eapply lookup_lt_Some).
    destruct (Hlay i c Hic) as (Hidx & Hoff & Hsz).
    unfold chunkLength in Hsz.
    assert (Z.of_nat i * chunkSize < fileSize) by nia.
    split_and!; [done|done|done|lia|lia].
  - rewrite <- (firstn_all (Chunks m)).
    rewrite (sumSizes_take fileSize chunkSize); [nia|done|done|lia| |lia].
    intros j c Hjc. by destruct (Hlay j c Hjc) as (_ & _ & ?).
  - intros c Hlast. rewrite last_lookup in Hlast.
    destruct (Hlay _ c Hlast) as (_ & _ & Hsz).
    assert (length (Chunks m) <> 0)%nat as Hne.
    { intros H0. rewrite H0 in Hlast.
      destruct (Chunks m); simpl in *; [discriminate|lia]. }
    rewrite Hsz. unfold chunkLength.
    replace (Z.of_nat (Nat.pred (length (Chunks m)))) with (n - 1) by lia.
    rewrite Htot. nia.
  - intros ->. rewrite Htot. unfold n, ceilDiv.
    rewrite Z.div_0_l by lia. done.
Qed.

(** The transfer info [SendFileChunked] leaves behind is the manifest,
    with the status of a completed transfer. *)
Lemma SendFileChunked_manifest (fileSize chunkSize : Z) (peerID : string)
    (info : FileTransferInfo) :
  SendFileChunked content sha256_hex io_fault fileID fileName filePath
    fileSize chunkSize peerID = Ok info <->
  exists m, build fileSize chunkSize = Ok m /\
            info = withStatus m "completed".
Proof.
  unfold SendFileChunked.
  destruct (build fileSize chunkSize) as [m|e|msg]; simpl.
  - split; [intros [= <-]; by exists m|].
    by intros (m' & [= <-] & ->).
  - split; [discriminate|]. by intros (m' & ? & _).
  - split; [discriminate|]. by intros (m' & ? & _).
Qed.

(** With no I/O error the manifest is built. *)
Lemma manifest_built (fileSize chunkSize : Z) :
  0 <= fileSize -> 0 < chunkSize -> fileSize + chunkSize - 1 <= MaxInt64 ->
  (forall offset size, io_fault offset size = None) ->
  exists m, build fileSize chunkSize = Ok m.
Proof.
  intros Hf Hc Hmax Hio. unfold buildManifest.
  destruct (Z.eqb_spec chunkSize 0); [lia|].
  rewrite totalChunks_ceil by done.
  pose proof (ceilDiv_bounds fileSize chunkSize Hc) as Hb.
  destruct (Z.ltb_spec (ceilDiv fileSize chunkSize) 0); [nia|].
  destruct (prepareChunks_total content sha256_hex io_fault fileSize chunkSize
              (Z.to_nat (ceilDiv fileSize chunkSize)) Hio 0
              (replicate (Z.to_nat (ceilDiv fileSize chunkSize)) zeroChunk))
    as [out ->].
  by eexists.
Qed.

End ManifestTheorems.

(** A file of ten bytes in chunks of four: offsets 0, 4, 8 and sizes
    4, 4, 2. *)
Example manifest_10_4 :
  buildManifest [] (fun _ => "-") (fun _ _ => None) "id" "f" "/f" 10 4
  = Ok (mkFileTransferInfo "id" "f" "/f" 10 4
          [mkChunkInfo 0 4 0 "-" false; mkChunkInfo 1 4 4 "-" false;
           mkChunkInfo 2 2 8 "-" false] 3 "preparing").
Proof. reflexivity. Qed.

(** C1, where the code departs from it.  The count is computed as
    [(fileSize + chunkSize - 1) / chunkSize] in [int64]; for a file of two
    bytes and [ChunkSize = MaxInt64] the sum wraps around, the quotient is
    [-1] and [make([]ChunkInfo, -1)] panics, although
    [ceil(2 / MaxInt64) = 1] and a manifest of one chunk of two bytes is
    what the layout asks for.  [manifest_layout] proves the layout on
    the inputs whose sum fits. *)
Theorem SendFileChunked_overflow_panics
    (content : list Byte.byte) (sha256_hex : list Byte.byte -> string)
    (io_fault : Z -> Z -> option string) (fileID fileName filePath : string) :
  ceilDiv 2 MaxInt64 = 1 /\
  wrap64 (Z.quot (wrap64 (wrap64 (2 + MaxInt64) - 1)) MaxInt64) = -1 /\
  buildManifest content sha256_hex io_fault fileID fileName filePath
    2 MaxInt64 = Panic "makeslice: len out of range" /\
  forall peerID,
    SendFileChunked content sha256_hex io_fault fileID fileName filePath
      2 MaxInt64 peerID = Panic "makeslice: len out of range".
Proof. split_and!; reflexivity. Qed.

(** C2, as the code has it: a file of 10,500,000 bytes in chunks of
    1,048,576 bytes gives a manifest of 11 chunks, and chunk 10 starts at
    10,485,760 and holds the remaining 14,240 bytes. *)
Theorem manifest_10500000
    (content : list Byte.byte) (sha256_hex : list Byte.byte -> string)
    (io_fault : Z -> Z -> option string) (fileID fileName filePath : string)
    (m : FileTransferInfo) :
  buildManifest content sha256_hex io_fault fileID fileName filePath
    10500000 1048576 = Ok m ->
  TotalChunks m = 11 /\
  length (Chunks m) = 11%nat /\
  exists c, Chunks m !! 10%nat = Some c /\
            Index c = 10 /\ Offset c = 10485760 /\ Size c = 14240.
Proof.
  intros Hrun.
  apply manifest_layout in Hrun as (Htot & Hlen & Hlay & _);
    [|lia|lia|unfold MaxInt64; lia].
  change (ceilDiv 10500000 1048576) with 11 in Htot.
  assert (length (Chunks m) = 11%nat) as Hlen' by lia.
  split_and!; [done|done|].
  destruct (lookup_lt_is_Some_2 (Chunks m) 10) as [c Hc]; [lia|].
  exists c. destruct (Hlay _ _ Hc) as (Hi & Ho & Hs & _).
  split_and!; [done|done|lia|lia].
Qed.

Lemma manifest_10500000_witness :
  exists m,
    buildManifest [] (fun _ => "-") (fun _ _ => None) "id" "f" "/f"
      10500000 1048576 = Ok m /\
    (TotalChunks m = 11 /\
     length (Chunks m) = 11%nat /\
     exists c, Chunks m !! 10%nat = Some c /\
               Index c = 10 /\ Offset c = 10485760 /\ Size c = 14240).
Proof.
  eexists. split.
  - vm_compute. reflexivity.
  - apply (manifest_10500000 [] (fun _ => "-") (fun _ _ => None)
             "id" "f" "/f").
    vm_compute. reflexivity.
Defined.

(** C2 as the specification words it, with 104,448 bytes in chunk 10,
    does not hold of the manifest that is built. *)
Lemma manifest_10500000_size_not_104448 :
  exists m,
    buildManifest [] (fun _ => "-") (fun _ _ => None) "id" "f" "/f"
      10500000 1048576 = Ok m /\
    ~ (TotalChunks m = 11 /\
       exists c, Chunks m !! 10%nat = Some c /\
                 Offset c = 10485760 /\ Size c = 104448).
Proof.
  eexists. split.
  - vm_compute. reflexivity.
  - intros (_ & c & Hc & _ & Hs).
    vm_compute in Hc. inversion Hc; subst c. discriminate Hs.
Qed.

End Transfer.

(* ===================================================================== *)
(** * Framed messages: [packMessage] and the reader of [handlePeer]      *)
(* ===================================================================== *)

Module Framing.

Import Byte.

(** 100MB maximum message size. *)
Definition maxMessageSize : Z := 100 * 1024 * 1024.

Definition byte_to_Z (b : byte) : Z := Z.of_N (Byte.to_N b).

(** The conversion [byte(v)] of an unsigned integer keeps the low 8 bits. *)
Definition byte_of_Z (z : Z) : byte :=
  default x00 (Byte.of_N (Z.to_N (z mod 256))).

(** The conversion [uint32(n)] keeps the low 32 bits. *)
Definition uint32 (z : Z) : Z := z mod 2 ^ 32.

(** The conversion [int(u)] of a [uint32], for an [int] of [bits] bits. *)
Definition to_int (bits : Z) (u : Z) : Z :=
  (u + 2 ^ (bits - 1)) mod 2 ^ bits - 2 ^ (bits - 1).

(** [binary.BigEndian.PutUint32] into a fresh slice of four bytes. *)
Definition PutUint32 (v : Z) : list byte :=
  [byte_of_Z (Z.shiftr v 24); byte_of_Z (Z.shiftr v 16);
   byte_of_Z (Z.shiftr v 8); byte_of_Z v].

(** [binary.BigEndian.Uint32]; the slice it is given here always holds
    four bytes. *)
Definition Uint32 (b : list byte) : Z :=
  match b with
  | b0 :: b1 :: b2 :: b3 :: _ =>
      Z.lor (Z.lor (Z.lor (byte_to_Z b3) (Z.shiftl (byte_to_Z b2) 8))
               (Z.shiftl (byte_to_Z b1) 16))
        (Z.shiftl (byte_to_Z b0) 24)
  | _ => 0
  end.

(** [packMessage]: the length of the data as a prefix of four bytes, then
    the data. *)
Definition packMessage (data : list byte) : list byte :=
  PutUint32 (uint32 (Z.of_nat (length data))) ++ data.

(** [io.ReadFull] on a connection that delivers the bytes of [stream] and
    then ends: either the buffer is filled, or the read fails with [EOF]
    (nothing was read) or [unexpected EOF]. *)
Definition ReadFull (n : Z) (stream : list byte)
  : (list byte * list byte) + string :=
  if n <=? Z.of_nat (length stream)
  then inl (take (Z.to_nat n) stream, drop (Z.to_nat n) stream)
  else inr (match stream with [] => "EOF" | _ => "unexpected EOF" end).

(** Why the loop of [handlePeer] was left. *)
Inductive closeReason : Type :=
| ReadError (e : string)
| InvalidLength (length : Z)
| MessageReadError (e : string)
| FatalError (e : string).

(** One iteration of the loop either breaks or goes round again, after
    [processMessage] was called on a message or without a call. *)
Inductive iteration : Type :=
| Break (why : closeReason)
| Continue (processed : option (list byte)) (rest : list byte).

(** [isFatalError]: no error is fatal. *)
Definition isFatalError (err : string) : bool := false.

Section Reader.

(** The width of [int] on the platform, and [processMessage] as the error
    it returns for a message. *)
Variable intBits : Z.
Variable processMessage : list byte -> option string.

(** The body of [for { ... }] in [handlePeer]. *)
Definition handlePeer_body (stream : list byte) : iteration :=
  match ReadFull 4 stream with
  | inr e => Break (ReadError e)
  | inl (lengthBytes, stream1) =>
      let length := to_int intBits (Uint32 lengthBytes) in
      if (length <=? 0) || (length >? maxMessageSize) then
        if length >? maxMessageSize
        then Break (InvalidLength length)
        else Continue None stream1
      else
        match ReadFull length stream1 with
        | inr e => Break (MessageReadError e)
        | inl (message, stream2) =>
            match processMessage message with
            | Some err =>
                if isFatalError err then Break (FatalError err)
                else Continue (Some message) stream2
            | None => Continue (Some message) stream2
            end
        end
  end.

(** The loop: the messages handed to [processMessage], in order, and the
    reason of the [break] ([None] while [fuel] iterations did not reach
    it). *)
Fixpoint handlePeer_loop (fuel : nat) (stream : list byte)
  : list (list byte) * option closeReason :=
  match fuel with
  | O => ([], None)
  | S fuel' =>
      match handlePeer_body stream with
      | Break why => ([], Some why)
      | Continue processed rest =>
          let '(log, why) := handlePeer_loop fuel' rest in
          (match processed with Some m => m :: log | None => log end, why)
      end
  end.

(** Every iteration that goes round again has consumed four bytes at
    least, so one more iteration than there are bytes is enough. *)
Definition handlePeer (stream : list byte)
  : list (list byte) * option closeReason :=
  handlePeer_loop (S (length stream)) stream.

End Reader.



Lemma byte_to_of_Z (z : Z) : byte_to_Z (byte_of_Z z) = z mod 256.
Proof.
  unfold byte_to_Z, byte_of_Z.
  pose proof (Z.mod_pos_bound z 256 ltac:(lia)) as Hb.
  destruct (Byte.of_N (Z.to_N (z mod 256))) as [b|] eqn:Hof; simpl.
  - apply Byte.to_of_N in Hof. rewrite Hof. lia.
  - apply Byte.of_N_None_iff in Hof. lia.
Qed.

Lemma byte_to_Z_range (b : byte) : 0 <= byte_to_Z b < 256.
Proof.
  unfold byte_to_Z. pose proof (Byte.to_N_bounded b). lia.
Qed.

Lemma testbit_low8 (z n : Z) :
  Z.testbit (z mod 256) n = (0 <=? n) && (n <? 8) && Z.testbit z n.
Proof.
  change 256 with (2 ^ 8).
  destruct (Z.leb_spec 0 n); simpl; [|by rewrite Z.testbit_neg_r by lia].
  destruct (Z.ltb_spec n 8); simpl.
  - by rewrite Z.mod_pow2_bits_low by lia.
  - by rewrite Z.mod_pow2_bits_high by lia.
Qed.

Lemma Uint32_PutUint32 (v : Z) : 0 <= v < 2 ^ 32 -> Uint32 (PutUint32 v) = v.
Proof.
  intros Hv. unfold Uint32, PutUint32. rewrite !byte_to_of_Z.
  apply Z.bits_inj'. intros n Hn.
  rewrite !Z.lor_spec, !Z.shiftl_spec, !testbit_low8 by lia.
  destruct (Z.ltb_spec n 32) as [Hlt|Hge].
  - destruct (Z.ltb_spec n 8); [|destruct (Z.ltb_spec n 16); [|destruct (Z.ltb_spec n 24)]].
    all: repeat match goal with
           | |- context [Z.leb ?a ?b] => destruct (Z.leb_spec a b); try lia
           | |- context [Z.ltb ?a ?b] => destruct (Z.ltb_spec a b); try lia
           end; simpl; rewrite ?orb_false_r; try done.
    all: rewrite Z.shiftr_spec by lia; f_equal; lia.
  - replace (Z.testbit v n) with false.
    2:{ symmetry. rewrite <- (Z.mod_small v (2 ^ 32)) by lia.
        apply Z.mod_pow2_bits_high. lia. }
    repeat match goal with
           | |- context [Z.leb ?a ?b] => destruct (Z.leb_spec a b); try lia
           | |- context [Z.ltb ?a ?b] => destruct (Z.ltb_spec a b); try lia
           end; simpl; done.
Qed.

Lemma lor_lt_pow2 (a b n : Z) :
  0 <= n -> 0 <= a < 2 ^ n -> 0 <= b < 2 ^ n -> 0 <= Z.lor a b < 2 ^ n.
Proof.
  intros Hn Ha Hb. split; [apply Z.lor_nonneg; lia|].
  assert (Z.lor a b = Z.lor a b mod 2 ^ n) as Hmod.
  { apply Z.bits_inj'. intros m Hm. destruct (Z.ltb_spec m n).
    - by rewrite Z.mod_pow2_bits_low by lia.
    - rewrite Z.mod_pow2_bits_high, Z.lor_spec by lia.
      rewrite <- (Z.mod_small a (2 ^ n)), <- (Z.mod_small b (2 ^ n)) by lia.
      by rewrite !Z.mod_pow2_bits_high by lia. }
  rewrite Hmod. apply Z.mod_pos_bound. lia.
Qed.

(** What [Uint32] reads is a [uint32]. *)
Lemma Uint32_range (b : list byte) : 0 <= Uint32 b < 2 ^ 32.
Proof.
  unfold Uint32.
  destruct b as [|b0 [|b1 [|b2 [|b3 rest]]]]; try (simpl; lia).
  pose proof (byte_to_Z_range b0). pose proof (byte_to_Z_range b1).
  pose proof (byte_to_Z_range b2). pose proof (byte_to_Z_range b3).
  rewrite !Z.shiftl_mul_pow2 by lia.
  repeat apply lor_lt_pow2; lia.
Qed.

Lemma to_int_small (bits u : Z) :
  bits = 32 \/ bits = 64 -> 0 <= u < 2 ^ 31 -> to_int bits u = u.
Proof.
  intros [-> | ->] Hu; unfold to_int; rewrite Z.mod_small; lia.
Qed.

(** On a 64-bit platform [int(u)] is [u] for every [uint32]. *)
Lemma to_int_64 (u : Z) : 0 <= u < 2 ^ 32 -> to_int 64 u = u.
Proof.
  intros Hu. unfold to_int. rewrite Z.mod_small; lia.
Qed.

Lemma ReadFull_inl (n : Z) (stream buf rest : list byte) :
  ReadFull n stream = inl (buf, rest) ->
  n <= Z.of_nat (length stream) /\
  buf = take (Z.to_nat n) stream /\ rest = drop (Z.to_nat n) stream.
Proof.
  unfold ReadFull. destruct (Z.leb_spec n (Z.of_nat (length stream))).
  - intros [= <- <-]. done.
  - discriminate.
Qed.

Lemma ReadFull_app (buf rest : list byte) :
  ReadFull (Z.of_nat (length buf)) (buf ++ rest) = inl (buf, rest).
Proof.
  unfold ReadFull. rewrite length_app, Nat2Z.id.
  destruct (Z.leb_spec (Z.of_nat (length buf))
              (Z.of_nat (length buf + length rest))); [|lia].
  by rewrite take_app_length, drop_app_length.
Qed.

Section ReaderFacts.

Variable intBits : Z.
Variable processMessage : list byte -> option string.

Local Abbreviation body := (handlePeer_body intBits processMessage).
Local Abbreviation loop := (handlePeer_loop intBits processMessage).
Local Abbreviation run := (handlePeer intBits processMessage).

Lemma handlePeer_body_consumes (stream rest : list byte)
    (processed : option (list byte)) :
  body stream = Continue processed rest ->
  (length rest + 4 <= length stream)%nat.
Proof.
  unfold handlePeer_body.
  destruct (ReadFull 4 stream) as [[hdr stream1]|e] eqn:Hhdr; [|discriminate].
  apply ReadFull_inl in Hhdr as (Hlen & _ & ->).
  assert (length (drop (Z.to_nat 4) stream) + 4 = length stream)%nat as Hd.
  { rewrite length_drop. lia. }
  destruct (_ || _).
  - destruct (_ >? _); [discriminate|]. intros [= _ <-]. lia.
  - destruct (ReadFull _ _) as [[message stream2]|e] eqn:Hmsg; [|discriminate].
    apply ReadFull_inl in Hmsg as (_ & _ & ->).
    assert (length (drop (Z.to_nat (to_int intBits (Uint32 hdr)))
                      (drop (Z.to_nat 4) stream))
            <= length (drop (Z.to_nat 4) stream))%nat
      by (rewrite (length_drop _ (Z.to_nat (to_int _ _))); lia).
    destruct (processMessage message) as [err|];
      [destruct (isFatalError err); [discriminate|]|];
      intros [= _ <-]; lia.
Qed.

Lemma handlePeer_loop_fuel (fuel1 : nat) :
  forall (fuel2 : nat) (stream : list byte),
    (length stream < fuel1)%nat -> (length stream < fuel2)%nat ->
    loop fuel1 stream = loop fuel2 stream.
Proof.
  induction fuel1 as [|fuel1 IH]; intros fuel2 stream H1 H2; [lia|].
  destruct fuel2 as [|fuel2]; [lia|]. simpl.
  destruct (body stream) as [why|processed rest] eqn:Hbody; [done|].
  apply handlePeer_body_consumes in Hbody.
  by rewrite (IH fuel2 rest) by lia.
Qed.

(** The loop, one iteration at a time. *)
Lemma handlePeer_unfold (stream : list byte) :
  run stream =
  match body stream with
  | Break why => ([], Some why)
  | Continue processed rest =>
      (match processed with
       | Some m => m :: (run rest).1
       | None => (run rest).1
       end, (run rest).2)
  end.
Proof.
  unfold handlePeer at 1. cbn [handlePeer_loop].
  destruct (body stream) as [why|processed rest] eqn:Hbody; [done|].
  apply handlePeer_body_consumes in Hbody.
  rewrite (handlePeer_loop_fuel (length stream) (S (length rest))) by lia.
  unfold handlePeer. by destruct (loop (S (length rest)) rest).
Qed.

(** The loop is left on every stream. *)
Lemma handlePeer_breaks (stream : list byte) :
  exists why, (run stream).2 = Some why.
Proof.
  induction stream as [stream IH] using (induction_ltof1 _ (@length byte)).
  unfold ltof in IH. rewrite handlePeer_unfold.
  destruct (body stream) as [why|processed rest] eqn:Hbody; [by eexists|].
  apply handlePeer_body_consumes in Hbody. simpl. apply IH. lia.
Qed.

Lemma packMessage_header (data : list byte) :
  Z.of_nat (length data) < 2 ^ 32 ->
  exists hdr, length hdr = 4%nat /\
              Uint32 hdr = Z.of_nat (length data) /\
              packMessage data = hdr ++ data.
Proof.
  intros Hlen. exists (PutUint32 (Z.of_nat (length data))).
  split_and!; [done| |].
  - apply Uint32_PutUint32. lia.
  - unfold packMessage, uint32. by rewrite Z.mod_small by lia.
Qed.

(** A packed message of an admissible length is read back as it was. *)
Lemma handlePeer_body_packed (data rest : list byte) :
  intBits = 32 \/ intBits = 64 ->
  1 <= Z.of_nat (length data) <= maxMessageSize ->
  body (packMessage data ++ rest) = Continue (Some data) rest.
Proof.
  unfold maxMessageSize. intros Hbits Hlen.
  destruct (packMessage_header data) as (hdr & Hhdr & Hval & ->); [lia|].
  unfold handlePeer_body.
  rewrite <- (assoc_L (++)).
  change 4 with (Z.of_nat 4). rewrite <- Hhdr, ReadFull_app.
  rewrite Hval, to_int_small by (done || lia).
  destruct (Z.leb_spec (Z.of_nat (length data)) 0); [lia|].
  destruct (Z.gtb_spec (Z.of_nat (length data)) maxMessageSize);
    [unfold maxMessageSize in *; lia|].
  simpl. rewrite ReadFull_app.
  by destruct (processMessage data).
Qed.

Lemma handlePeer_packed_prefix (sent : list (list byte)) (rest : list byte) :
  intBits = 32 \/ intBits = 64 ->
  Forall (fun data => 1 <= Z.of_nat (length data) <= maxMessageSize) sent ->
  run (concat (packMessage <$> sent) ++ rest)
  = (sent ++ (run rest).1, (run rest).2).
Proof.
  intros Hbits Hsent. induction Hsent as [|data sent Hdata _ IH].
  - simpl. by destruct (run rest).
  - rewrite fmap_cons. cbn [concat].
    rewrite <- (assoc_L (++)), handlePeer_unfold.
    rewrite handlePeer_body_packed by done.
    by rewrite IH.
Qed.

End ReaderFacts.

Lemma handlePeer_nil (intBits : Z) (processMessage : list byte -> option string) :
  handlePeer intBits processMessage [] = ([], Some (ReadError "EOF")).
Proof. reflexivity. Qed.

(** On a 64-bit platform the frame [00 00 00 02 'h' 'i'] is delivered, the
    empty frame after it is skipped, and the frame after that one, which
    declares one byte more than the maximum, ends the loop before ['!']
    is read. *)
Example handlePeer_sample :
  handlePeer 64 (fun _ => None)
    ([x00; x00; x00; x02; x68; x69] ++ [x00; x00; x00; x00] ++
     [x06; x40; x00; x01] ++ [x00; x00; x00; x01; x21])
  = ([[x68; x69]], Some (InvalidLength 104857601)).
Proof. vm_compute. reflexivity. Qed.

(** The guard on the declared length.  On a connection on which the
    messages [sent] have arrived as frames, a frame whose declared
    length (the [int] read from the four-byte big-endian prefix) exceeds
    [maxMessageSize] ends the loop, and nothing after it is read; a
    frame whose declared length is zero or negative is passed over and
    the reader goes on with what follows its prefix.  Where [int] has 64
    bits the declared length is the unsigned value of the prefix. *)
Lemma handlePeer_guard
    (intBits : Z) (processMessage : list byte -> option string)
    (sent : list (list byte)) (hdr rest : list byte) :
  intBits = 32 \/ intBits = 64 ->
  Forall (fun data => 1 <= Z.of_nat (length data) <= maxMessageSize) sent ->
  length hdr = 4%nat ->
  let declared := to_int intBits (Uint32 hdr) in
  let stream := concat (packMessage <$> sent) ++ hdr ++ rest in
  (maxMessageSize < declared ->
   handlePeer_body intBits processMessage (hdr ++ rest)
   = Break (InvalidLength declared) /\
   handlePeer intBits processMessage stream
   = (sent, Some (InvalidLength declared))) /\
  (declared <= 0 ->
   handlePeer_body intBits processMessage (hdr ++ rest)
   = Continue None rest /\
   handlePeer intBits processMessage stream
   = (sent ++ (handlePeer intBits processMessage rest).1,
      (handlePeer intBits processMessage rest).2)) /\
  (intBits = 64 -> declared = Uint32 hdr).
Proof.
  intros Hbits Hsent Hhdr declared stream.
  assert (handlePeer_body intBits processMessage (hdr ++ rest) =
          if (declared <=? 0) || (declared >? maxMessageSize)
          then if declared >? maxMessageSize
               then Break (InvalidLength declared)
               else Continue None rest
          else handlePeer_body intBits processMessage (hdr ++ rest)) as Hbody.
  { unfold handlePeer_body at 1. change 4 with (Z.of_nat 4).
    rewrite <- Hhdr, ReadFull_app. fold declared.
    destruct (_ || _) eqn:Hguard; [done|].
    unfold handlePeer_body. change 4 with (Z.of_nat 4).
    rewrite <- Hhdr, ReadFull_app. fold declared. by rewrite Hguard. }
  unfold stream. rewrite handlePeer_packed_prefix by done.
  rewrite (handlePeer_unfold _ _ (hdr ++ rest)).
  split_and!; [intros Hdecl; rewrite Hbody..|].
  - destruct (Z.gtb_spec declared maxMessageSize); [|lia].
    rewrite orb_true_r. by rewrite app_nil_r.
  - destruct (Z.gtb_spec declared maxMessageSize);
      [unfold maxMessageSize in *; lia|].
    destruct (Z.leb_spec declared 0); [|lia]. done.
  - intros Hwide. unfold declared. rewrite Hwide.
    apply to_int_64, Uint32_range.
Qed.

Example handlePeer_guard_sample :
  handlePeer 64 (fun _ => None)
    (concat (packMessage <$> [[x68; x69]]) ++
     [x06; x40; x00; x01] ++ packMessage [x21])
  = ([[x68; x69]], Some (InvalidLength 104857601)) /\
  handlePeer 64 (fun _ => None)
    (concat (packMessage <$> [[x68; x69]]) ++
     [x00; x00; x00; x00] ++ packMessage [x21])
  = ([[x68; x69]; [x21]], Some (ReadError "EOF")) /\
  handlePeer 32 (fun _ => None)
    (concat (packMessage <$> [[x68; x69]]) ++
     [xff; xff; xff; xff] ++ packMessage [x21])
  = ([[x68; x69]; [x21]], Some (ReadError "EOF")).
Proof.
  assert (Forall (fun data : list byte =>
                    1 <= Z.of_nat (length data) <= maxMessageSize)
            [[x68; x69]]) as Hsent.
  { repeat constructor; unfold maxMessageSize; simpl; lia. }
  split_and!.
  - apply (handlePeer_guard 64 (fun _ => None) [[x68; x69]]
             [x06; x40; x00; x01] (packMessage [x21]));
      [by right|exact Hsent|reflexivity|vm_compute; reflexivity].
  - apply (handlePeer_guard 64 (fun _ => None) [[x68; x69]]
             [x00; x00; x00; x00] (packMessage [x21]));
      [by right|exact Hsent|reflexivity|vm_compute; discriminate].
  - apply (handlePeer_guard 32 (fun _ => None) [[x68; x69]]
             [xff; xff; xff; xff] (packMessage [x21]));
      [by left|exact Hsent|reflexivity|vm_compute; discriminate].
Qed.

(** C10.  For payloads of 1 to [maxMessageSize] bytes, [packMessage]
    puts the length in front as four big-endian bytes, the reader of
    [handlePeer] hands each packed message back to [processMessage] as
    the payload it was made from, and a stream made of packed messages is
    read back as those payloads, in order, until it ends. *)
Theorem framing_roundtrip
    (intBits : Z) (processMessage : list byte -> option string)
    (payloads : list (list byte)) :
  intBits = 32 \/ intBits = 64 ->
  Forall (fun data => 1 <= Z.of_nat (length data) <= maxMessageSize)
    payloads ->
  Forall (fun data =>
            packMessage data = PutUint32 (Z.of_nat (length data)) ++ data /\
            Uint32 (PutUint32 (Z.of_nat (length data)))
            = Z.of_nat (length data) /\
            forall rest,
              handlePeer_body intBits processMessage (packMessage data ++ rest)
              = Continue (Some data) rest)
    payloads /\
  handlePeer intBits processMessage (concat (packMessage <$> payloads))
  = (payloads, Some (ReadError "EOF")).
Proof.
  intros Hbits Hlen. split.
  - eapply Forall_impl; [exact Hlen|]. intros data Hdata.
    assert (Z.of_nat (length data) < 2 ^ 32)
      by (unfold maxMessageSize in Hdata; lia).
    split_and!.
    + unfold packMessage, uint32. by rewrite Z.mod_small by lia.
    + apply Uint32_PutUint32. lia.
    + intros rest. by apply handlePeer_body_packed.
  - rewrite <- (app_nil_r (concat _)).
    rewrite handlePeer_packed_prefix by done.
    by rewrite handlePeer_nil, app_nil_r.
Qed.

Lemma framing_roundtrip_witness :
  packMessage [x68; x69] = [x00; x00; x00; x02; x68; x69] /\
  handlePeer 64 (fun _ => None)
    ([x00; x00; x00; x02; x68; x69] ++ [x00; x00; x00; x01; x21])
  = ([[x68; x69]; [x21]], Some (ReadError "EOF")).
Proof.
  split; [reflexivity|].
  apply (framing_roundtrip 64 (fun _ => None) [[x68; x69]; [x21]]).
  - by right.
  - repeat constructor; unfold maxMessageSize; simpl; lia.
Defined.
End Framing.

(* ===================================================================== *)
(** * Mesh coordinator: [FindPeerByIdOrName] and [ConnectToPeer]         *)
(* ===================================================================== *)

Module Mesh.

Record Config : Type := mkConfig {
  NodeName : string;
  NodeID : string;
  ListenPort : Z;
  EnableWiFiDirect : bool;
  EnableBluetooth : bool;
  EnableTCP : bool;
  EnableRelay : bool;
  RelayServers : list string;
  DataDir : string
}.

Inductive NetworkMode : Type := DirectMode | RelayMode | MixedMode.

Record ConnectionInfo : Type := mkConnectionInfo {
  Mode : NetworkMode;
  ClientIsolation : bool;
  NATType : string;
  PublicIP : string;
  RelayAvailable : bool;
  LastConnectivityCheck : Z
}.

Record Route : Type := mkRoute {
  DestinationID : string;
  NextHop : string;
  HopCount : Z;
  Quality : Z
}.

Record Peer : Type := mkPeer {
  ID : string;
  Name : string;
  Address : string;
  Protocol : string;
  IsOnline : bool;
  LastSeen : Z;
  SignalStrength : Z;
  ConnectionQuality : string;
  Routes : list Route
}.

(** The package-level variables of the coordinator. *)
Record state : Type := mkState {
  meshConfig : Config;
  isRunning : bool;
  nodeID : string;
  knownPeers : gmap string Peer;
  connectionInfo : ConnectionInfo
}.

(** What a function returning a pointer to a [Peer] and an [error]
    returns: the pointer ([None] is [nil]) and the error ([None] is
    [nil]). *)
Definition found : Type := option Peer * option string.

Definition AmbiguousPeer (idOrName : string) : string :=
  "multiple peers found with name '" +:+ idOrName +:+
  "'. Please use a specific ID".

Definition PeerNotFound (idOrName : string) : string :=
  "no peer found with ID or name '" +:+ idOrName +:+ "'".

(** [strings.EqualFold] on ASCII strings: equality after mapping the
    letters [A-Z] to [a-z]. *)
Definition toLowerASCII (c : ascii) : ascii :=
  let n := nat_of_ascii c in
  if (Nat.leb 65 n && Nat.leb n 90)%bool then ascii_of_nat (n + 32) else c.

Fixpoint lowerASCII (s : string) : string :=
  match s with
  | EmptyString => EmptyString
  | String c rest => String (toLowerASCII c) (lowerASCII rest)
  end.

Definition EqualFoldASCII (s t : string) : bool :=
  String.eqb (lowerASCII s) (lowerASCII t).

Section Resolution.

(** [strings.EqualFold] of the Go library. *)
Variable EqualFold : string -> string -> bool.

(** [for id, peer := range knownPeers]: the first entry, in the order of
    the iteration, whose key equals the query under case folding. *)
Fixpoint foldedIDLoop (order : list (string * Peer)) (idOrName : string)
  : option Peer :=
  match order with
  | [] => None
  | (id, peer) :: rest =>
      if EqualFold id idOrName then Some peer
      else foldedIDLoop rest idOrName
  end.

(** The loop over names: it returns as soon as a name equals the query,
    and otherwise keeps the last peer whose name equals it under case
    folding, and their number. *)
Fixpoint nameLoop (order : list (string * Peer)) (idOrName : string)
    (matchedPeer : option Peer) (matchCount : Z)
  : Peer + (option Peer * Z) :=
  match order with
  | [] => inr (matchedPeer, matchCount)
  | (_, peer) :: rest =>
      if String.eqb (Name peer) idOrName then inl peer
      else if EqualFold (Name peer) idOrName
           then nameLoop rest idOrName (Some peer) (matchCount + 1)
           else nameLoop rest idOrName matchedPeer matchCount
  end.

(** [FindPeerByIdOrName].  Go iterates over a map in an order of its own
    choosing, anew for every [range]; [idOrder] and [nameOrder] are the
    orders taken by the two loops. *)
Definition FindPeerByIdOrName (st : state)
    (idOrder nameOrder : list (string * Peer)) (idOrName : string) : found :=
  if negb (isRunning st) then (None, Some "mesh node is not running")
  else
    match knownPeers st !! idOrName with
    | Some peer => (Some peer, None)
    | None =>
        match foldedIDLoop idOrder idOrName with
        | Some peer => (Some peer, None)
        | None =>
            match nameLoop nameOrder idOrName None 0 with
            | inl peer => (Some peer, None)
            | inr (matchedPeer, matchCount) =>
                if matchCount =? 1 then (matchedPeer, None)
                else if matchCount >? 1
                     then (None, Some (AmbiguousPeer idOrName))
                     else (None, Some (PeerNotFound idOrName))
            end
        end
    end.

(** The three connection strategies, as the error each returns for a
    peer ([None] is [nil]). *)
Variable connectDirectly : option Peer -> option string.
Variable connectViaWiFiDirect : option Peer -> option string.
Variable connectViaRelay : option Peer -> option string.

(** After a strategy succeeded the name and ID of the peer are printed. *)
Definition established (peer : option Peer) : outcome unit :=
  match peer with
  | Some _ => Ok tt
  | None => Panic "invalid memory address or nil pointer dereference"
  end.

(** [ConnectToPeer]: [Ok tt] is the [nil] error. *)
Definition ConnectToPeer (st : state)
    (idOrder nameOrder : list (string * Peer)) (peerID : string)
  : outcome unit :=
  match FindPeerByIdOrName st idOrder nameOrder peerID with
  | (_, Some err) => Err err
  | (peer, None) =>
      match connectDirectly peer with
      | None => established peer
      | Some directErr =>
          let afterWiFiDirect :=
            if EnableRelay (meshConfig st) then
              match connectViaRelay peer with
              | None => established peer
              | Some relayErr =>
                  Err ("failed to connect via relay: " +:+ relayErr)
              end
            else
              Err ("failed to connect: direct connection error: "
                   +:+ directErr) in
          if ClientIsolation (connectionInfo st)
             && EnableWiFiDirect (meshConfig st)
          then
            match connectViaWiFiDirect peer with
            | None => established peer
            | Some wifiErr => afterWiFiDirect
            end
          else afterWiFiDirect
      end
  end.

End Resolution.

(** The strategies as the repository has them: placeholders. *)
Definition connectDirectly (peer : option Peer) : option string :=
  Some "not implemented".
Definition connectViaWiFiDirect (peer : option Peer) : option string :=
  Some "not implemented".
Definition connectViaRelay (peer : option Peer) : option string :=
  Some "not implemented".




(** The entries of the directory whose name equals the query under case
    folding. *)
Definition foldedNames (EqualFold : string -> string -> bool)
    (order : list (string * Peer)) (idOrName : string)
  : list (string * Peer) :=
  filter (fun entry => EqualFold (Name entry.2) idOrName = true) order.

(** ** The two loops *)

Section ResolutionFacts.

Variable EqualFold : string -> string -> bool.

Local Abbreviation idLoop := (foldedIDLoop EqualFold).
Local Abbreviation names := (nameLoop EqualFold).

Lemma foldedIDLoop_Some (order : list (string * Peer)) (q : string) (p : Peer) :
  idLoop order q = Some p ->
  exists id, (id, p) ∈ order /\ EqualFold id q = true.
Proof.
  induction order as [|[id p'] order IH]; simpl; [discriminate|].
  destruct (EqualFold id q) eqn:Hfold.
  - intros [= ->]. exists id. split; [left|done].
  - intros Hrest. destruct (IH Hrest) as (id' & Hin & Hid').
    exists id'. split; [by right|done].
Qed.

Lemma foldedIDLoop_None (order : list (string * Peer)) (q : string) :
  idLoop order q = None <->
  forall id p, (id, p) ∈ order -> EqualFold id q = false.
Proof.
  induction order as [|[id p'] order IH]; simpl.
  - split; [|done]. intros _ id p Hin. by apply elem_of_nil in Hin.
  - destruct (EqualFold id q) eqn:Hfold.
    + split; [discriminate|]. intros Hall.
      rewrite (Hall id p') in Hfold; [discriminate|left].
    + rewrite IH. split.
      * intros Hall id' p Hin. apply elem_of_cons in Hin as [[= -> ->]|Hin];
          [done|by eapply Hall].
      * intros Hall id' p Hin. eapply Hall. by right.
Qed.

Lemma nameLoop_inl (order : list (string * Peer)) (q : string) :
  forall (matched : option Peer) (count : Z) (p : Peer),
    names order q matched count = inl p ->
    exists id, (id, p) ∈ order /\ Name p = q.
Proof.
  induction order as [|[id p'] order IH]; intros matched count p; simpl;
    [discriminate|].
  destruct (String.eqb_spec (Name p') q) as [Heq|Hne].
  - intros [= <-]. exists id. split; [left|done].
  - destruct (EqualFold (Name p') q); intros Hrest;
      destruct (IH _ _ _ Hrest) as (id' & Hin & Hname);
      exists id'; (split; [by right|done]).
Qed.

Lemma nameLoop_exact (order : list (string * Peer)) (q : string) :
  forall (matched : option Peer) (count : Z),
    (exists id p, (id, p) ∈ order /\ Name p = q) ->
    exists p, names order q matched count = inl p.
Proof.
  induction order as [|[id p'] order IH]; intros matched count (id0 & p0 & Hin & Hname).
  - by apply elem_of_nil in Hin.
  - simpl. destruct (String.eqb_spec (Name p') q) as [Heq|Hne]; [by eexists|].
    apply elem_of_cons in Hin as [[= -> ->]|Hin]; [done|].
    destruct (EqualFold (Name p') q); apply IH; by exists id0, p0.
Qed.

(** Without a name equal to the query the loop counts the names equal
    to it under case folding and keeps the last of them. *)
Lemma nameLoop_inr (order : list (string * Peer)) (q : string) :
  forall (matched : option Peer) (count : Z),
    (forall id p, (id, p) ∈ order -> Name p <> q) ->
    names order q matched count =
    inr (match last (foldedNames EqualFold order q) with
         | Some entry => Some entry.2
         | None => matched
         end,
         count + Z.of_nat (length (foldedNames EqualFold order q))).
Proof.
  unfold foldedNames.
  induction order as [|[id p'] order IH]; intros matched count Hno; simpl.
  - by rewrite Z.add_0_r.
  - destruct (String.eqb_spec (Name p') q) as [Heq|Hne].
    { exfalso. eapply (Hno id p'); [left|done]. }
    assert (forall id p, (id, p) ∈ order -> Name p <> q) as Hno'.
    { intros id' p Hin. eapply Hno. by right. }
    rewrite filter_cons. simpl.
    destruct (EqualFold (Name p') q) eqn:Hfold.
    + rewrite decide_True by done. rewrite IH by done.
      f_equal. f_equal.
      * destruct (filter _ order) as [|entry rest] eqn:Hf; [done|].
        change (last ((id, p') :: entry :: rest)) with (last (entry :: rest)).
        destruct (last (entry :: rest)) eqn:Hlast; [done|].
        by apply last_None in Hlast.
      * simpl length. lia.
    + rewrite decide_False by (by rewrite not_true_iff_false).
      by rewrite IH.
Qed.

Lemma order_lookup (M : gmap string Peer) (order : list (string * Peer))
    (id : string) (p : Peer) :
  order ≡ₚ map_to_list M -> (id, p) ∈ order <-> M !! id = Some p.
Proof.
  intros Hperm. rewrite Hperm. apply elem_of_map_to_list.
Qed.

Lemma foldedNames_order (order1 order2 : list (string * Peer)) (q : string) :
  order1 ≡ₚ order2 ->
  foldedNames EqualFold order1 q ≡ₚ foldedNames EqualFold order2 q.
Proof.
  intros Hperm. unfold foldedNames. by rewrite Hperm.
Qed.

End ResolutionFacts.

(** ** Resolution of a query *)

(** A directory of three peers: one whose ID is ["bob"], one whose name
    is ["bob"], one whose name is ["Bob"]. *)
Definition samplePeer (id name : string) : Peer :=
  mkPeer id name "" "tcp" true 0 100 "good" [].

Definition sampleDirectory : gmap string Peer :=
  <["bob" := samplePeer "bob" "laptop"]>
    (<["n2" := samplePeer "n2" "bob"]>
       (<["n3" := samplePeer "n3" "Bob"]> ∅)).

Definition sampleConfig (wifiDirect relay : bool) : Config :=
  mkConfig "node" "n0" 9000 wifiDirect false true relay [] "".

Definition sampleState (running isolated wifiDirect relay : bool)
    (peers : gmap string Peer) : state :=
  mkState (sampleConfig wifiDirect relay) running "n0" peers
    (mkConnectionInfo (if isolated then MixedMode else DirectMode)
       isolated "Unknown" "" false 0).

Example find_exact_id :
  FindPeerByIdOrName EqualFoldASCII
    (sampleState true false false false sampleDirectory)
    (map_to_list sampleDirectory) (map_to_list sampleDirectory) "bob"
  = (Some (samplePeer "bob" "laptop"), None).
Proof. vm_compute. reflexivity. Qed.

Example find_folded_names_ambiguous :
  FindPeerByIdOrName EqualFoldASCII
    (sampleState true false false false sampleDirectory)
    (map_to_list sampleDirectory) (map_to_list sampleDirectory) "BOB"
  = (Some (samplePeer "bob" "laptop"), None) /\
  FindPeerByIdOrName EqualFoldASCII
    (sampleState true false false false (delete "bob" sampleDirectory))
    (map_to_list (delete "bob" sampleDirectory))
    (map_to_list (delete "bob" sampleDirectory)) "BOB"
  = (None, Some (AmbiguousPeer "BOB")).
Proof. split; vm_compute; reflexivity. Qed.

(** The package-level variables when the program starts. *)
Definition initialState : state :=
  mkState (mkConfig "" "" 0 false false false false [] "") false "" ∅
    (mkConnectionInfo DirectMode false "" "" false 0).

(** C5 as the specification words it, for every state of the directory,
    does not hold: while the node is not running no query is resolved.
    Before the node is started a query that matches nothing is answered
    with the error of a node that is not running, not with
    [PeerNotFound]; and were a peer known to a stopped node, a query
    that is its ID would not be resolved either. *)
Lemma FindPeerByIdOrName_not_running :
  FindPeerByIdOrName EqualFoldASCII initialState
    (map_to_list (knownPeers initialState))
    (map_to_list (knownPeers initialState)) "bob"
  = (None, Some "mesh node is not running") /\
  "mesh node is not running" <> PeerNotFound "bob" /\
  knownPeers (sampleState false false false false sampleDirectory) !! "bob"
  = Some (samplePeer "bob" "laptop") /\
  FindPeerByIdOrName EqualFoldASCII
    (sampleState false false false false sampleDirectory)
    (map_to_list sampleDirectory) (map_to_list sampleDirectory) "bob"
  = (None, Some "mesh node is not running").
Proof. split_and!; [reflexivity|discriminate|..]; vm_compute; reflexivity. Qed.

(** C5.  While the node is not running every query is answered with the
    error of a node that is not running.  While it is running, whatever
    orders the two iterations over the directory take: an entry whose ID
    is the query is returned; else an entry whose ID equals the query
    under case folding; else an entry whose name is the query; else the
    entry whose name equals the query under case folding when there is
    exactly one, the error [AmbiguousPeer] when there are several, and
    [PeerNotFound] when there is none. *)
Theorem FindPeerByIdOrName_resolution
    (EqualFold : string -> string -> bool) (st : state)
    (idOrder nameOrder : list (string * Peer)) (q : string) :
  idOrder ≡ₚ map_to_list (knownPeers st) ->
  nameOrder ≡ₚ map_to_list (knownPeers st) ->
  let r := FindPeerByIdOrName EqualFold st idOrder nameOrder q in
  let M := knownPeers st in
  (isRunning st = false -> r = (None, Some "mesh node is not running")) /\
  (isRunning st = true ->
   (forall p, M !! q = Some p -> r = (Some p, None)) /\
   (M !! q = None ->
    (exists id p, M !! id = Some p /\ EqualFold id q = true) ->
    exists id p, M !! id = Some p /\ EqualFold id q = true /\
                 r = (Some p, None)) /\
   (M !! q = None ->
    (forall id p, M !! id = Some p -> EqualFold id q = false) ->
    (exists id p, M !! id = Some p /\ Name p = q) ->
    exists id p, M !! id = Some p /\ Name p = q /\ r = (Some p, None)) /\
   (M !! q = None ->
    (forall id p, M !! id = Some p -> EqualFold id q = false) ->
    (forall id p, M !! id = Some p -> Name p <> q) ->
    let matches := foldedNames EqualFold (map_to_list M) q in
    (length matches = 1%nat ->
     exists id p, matches = [(id, p)] /\ r = (Some p, None)) /\
    ((1 < length matches)%nat -> r = (None, Some (AmbiguousPeer q))) /\
    (matches = [] -> r = (None, Some (PeerNotFound q))))).
Proof.
  intros Hids Hnames r M. split.
  { intros Hstopped. unfold r, FindPeerByIdOrName. by rewrite Hstopped. }
  intros Hrun. unfold r, FindPeerByIdOrName.
  rewrite Hrun. simpl. fold M.
  split_and!.
  - by intros p ->.
  - intros -> (id & p & Hlook & Hfold).
    destruct (foldedIDLoop EqualFold idOrder q) as [p'|] eqn:Hloop.
    + apply foldedIDLoop_Some in Hloop as (id' & Hin & Hfold').
      exists id', p'. by rewrite <- (order_lookup M idOrder).
    + rewrite foldedIDLoop_None in Hloop.
      rewrite (Hloop id p) in Hfold; [done|].
      by rewrite (order_lookup M idOrder).
  - intros -> Hnoid Hname.
    assert (foldedIDLoop EqualFold idOrder q = None) as ->.
    { apply foldedIDLoop_None. intros id p Hin. apply (Hnoid id p).
      by rewrite <- (order_lookup M idOrder). }
    destruct (nameLoop_exact EqualFold nameOrder q None 0) as [p Hp].
    { destruct Hname as (id & p & Hlook & Hnm). exists id, p.
      by rewrite (order_lookup M nameOrder). }
    rewrite Hp. apply nameLoop_inl in Hp as (id & Hin & Hnm).
    exists id, p. by rewrite <- (order_lookup M nameOrder).
  - intros -> Hnoid Hnoname.
    set (matches := foldedNames EqualFold (map_to_list M) q).
    assert (foldedIDLoop EqualFold idOrder q = None) as ->.
    { apply foldedIDLoop_None. intros id p Hin. apply (Hnoid id p).
      by rewrite <- (order_lookup M idOrder). }
    rewrite nameLoop_inr.
    2:{ intros id p Hin. apply (Hnoname id p).
        by rewrite <- (order_lookup M nameOrder). }
    pose proof (foldedNames_order EqualFold _ _ q Hnames) as Hperm.
    fold M matches in Hperm.
    pose proof (Permutation_length Hperm) as Hlen.
    split_and!.
    + intros Hone.
      destruct matches as [|[id p] [|? ?]] eqn:Hm; simpl in Hone; try lia.
      apply Permutation_singleton_r in Hperm. rewrite Hperm. simpl.
      by exists id, p.
    + intros Hmany. rewrite Hlen.
      destruct (Z.eqb_spec (0 + Z.of_nat (length matches)) 1); [lia|].
      destruct (Z.gtb_spec (0 + Z.of_nat (length matches)) 1); [done|lia].
    + intros Hnone. rewrite Hnone in *.
      apply Permutation_nil_r in Hperm. by rewrite Hperm.
Qed.

Lemma FindPeerByIdOrName_resolution_witness :
  FindPeerByIdOrName EqualFoldASCII
    (sampleState true false false false sampleDirectory)
    (map_to_list sampleDirectory) (map_to_list sampleDirectory) "bob"
  = (Some (samplePeer "bob" "laptop"), None) /\
  FindPeerByIdOrName EqualFoldASCII
    (sampleState true false false false (delete "bob" sampleDirectory))
    (map_to_list (delete "bob" sampleDirectory))
    (map_to_list (delete "bob" sampleDirectory)) "BOB"
  = (None, Some (AmbiguousPeer "BOB")) /\
  FindPeerByIdOrName EqualFoldASCII initialState
    (map_to_list (knownPeers initialState))
    (map_to_list (knownPeers initialState)) "bob"
  = (None, Some "mesh node is not running").
Proof.
  split_and!.
  - apply (FindPeerByIdOrName_resolution EqualFoldASCII
             (sampleState true false false false sampleDirectory)
             (map_to_list sampleDirectory) (map_to_list sampleDirectory)
             "bob"); [reflexivity|reflexivity|reflexivity|].
    vm_compute. reflexivity.
  - apply (FindPeerByIdOrName_resolution EqualFoldASCII
             (sampleState true false false false
                (delete "bob" sampleDirectory))
             (map_to_list (delete "bob" sampleDirectory))
             (map_to_list (delete "bob" sampleDirectory))
             "BOB"); [reflexivity|reflexivity|reflexivity| | | |].
    + vm_compute. reflexivity.
    + intros id p Hlook. apply elem_of_map_to_list in Hlook.
      set (entries := map_to_list _) in Hlook.
      vm_compute in entries. subst entries.
      repeat (apply elem_of_cons in Hlook as [[= -> ->]|Hlook];
              [vm_compute; reflexivity|]).
      by apply elem_of_nil in Hlook.
    + intros id p Hlook. apply elem_of_map_to_list in Hlook.
      set (entries := map_to_list _) in Hlook.
      vm_compute in entries. subst entries.
      repeat (apply elem_of_cons in Hlook as [[= -> ->]|Hlook];
              [vm_compute; discriminate|]).
      by apply elem_of_nil in Hlook.
    + vm_compute. lia.
  - apply (FindPeerByIdOrName_resolution EqualFoldASCII initialState
             (map_to_list (knownPeers initialState))
             (map_to_list (knownPeers initialState)) "bob");
      reflexivity.
Defined.

(** ** Connecting *)

Lemma nameLoop_matched (EqualFold : string -> string -> bool)
    (order : list (string * Peer)) (q : string) :
  forall (matched out : option Peer) (count n : Z),
    nameLoop EqualFold order q matched count = inr (out, n) ->
    count <= n /\ (count < n -> out <> None) /\ (n = count -> out = matched).
Proof.
  induction order as [|[id p] order IH]; intros matched out count n; simpl.
  - intros [= -> ->]. split_and!; [lia|lia|done].
  - destruct (String.eqb (Name p) q); [discriminate|].
    destruct (EqualFold (Name p) q); intros Hrun; apply IH in Hrun;
      [|done].
    destruct Hrun as (Hle & Hlt & Heq). split_and!; [lia| |lia].
    intros _. destruct (decide (n = count + 1)) as [Hn|Hn].
    + by rewrite (Heq Hn).
    + apply Hlt. lia.
Qed.

(** The pointer and the error are never both [nil]. *)
Lemma FindPeerByIdOrName_not_nil
    (EqualFold : string -> string -> bool) (st : state)
    (idOrder nameOrder : list (string * Peer)) (q : string) :
  FindPeerByIdOrName EqualFold st idOrder nameOrder q <> (None, None).
Proof.
  unfold FindPeerByIdOrName.
  destruct (negb (isRunning st)); [done|].
  destruct (knownPeers st !! q); [done|].
  destruct (foldedIDLoop EqualFold idOrder q); [done|].
  destruct (nameLoop EqualFold nameOrder q None 0) as [p|[out n]] eqn:Hloop;
    [done|].
  apply nameLoop_matched in Hloop as (_ & Hlt & _).
  destruct (Z.eqb_spec n 1) as [->|Hn1].
  - intros [= ->]. by apply Hlt.
  - by destruct (n >? 1).
Qed.

Section Connecting.

Variable EqualFold : string -> string -> bool.
Variable direct wifi relay : option Peer -> option string.



End Connecting.



(** A node on an isolated network with WiFi Direct enabled and the relay
    disabled, so that WiFi Direct is the last strategy attempted. *)
Definition isolatedState : state :=
  sampleState true true true false sampleDirectory.


(** With the placeholders of the repository every strategy fails with
    the same words, and the error returned is the one of the relay or
    the one of the direct connection. *)
Example ConnectToPeer_placeholders :
  ConnectToPeer EqualFoldASCII connectDirectly connectViaWiFiDirect
    connectViaRelay isolatedState
    (map_to_list sampleDirectory) (map_to_list sampleDirectory) "bob"
  = Err "failed to connect: direct connection error: not implemented" /\
  ConnectToPeer EqualFoldASCII connectDirectly connectViaWiFiDirect
    connectViaRelay (sampleState true true true true sampleDirectory)
    (map_to_list sampleDirectory) (map_to_list sampleDirectory) "bob"
  = Err "failed to connect via relay: not implemented".
Proof. split; vm_compute; reflexivity. Qed.
End Mesh.

(* ===================================================================== *)
(** * Command line: [findBestRoute]                                      *)
(* ===================================================================== *)

Module Cli.

Import Mesh.

(** [for _, route := range routes { if route.HopCount == 1 { return route } }] *)
Fixpoint directRoute (routes : list Route) : option Route :=
  match routes with
  | [] => None
  | route :: rest =>
      if HopCount route =? 1 then Some route else directRoute rest
  end.

(** [for _, route := range routes { if route.Quality > bestRoute.Quality
    { bestRoute = route } }] *)
Fixpoint highestQuality (bestRoute : Route) (routes : list Route) : Route :=
  match routes with
  | [] => bestRoute
  | route :: rest =>
      highestQuality
        (if Quality route >? Quality bestRoute then route else bestRoute)
        rest
  end.

(** [findBestRoute]: [bestRoute := routes[0]] comes first and panics on
    an empty slice. *)
Definition findBestRoute (routes : list Route) : outcome Route :=
  match routes with
  | [] => Panic "index out of range [0] with length 0"
  | first :: _ =>
      match directRoute routes with
      | Some route => Ok route
      | None => Ok (highestQuality first routes)
      end
  end.

(** The call site, in the [send] command: the address to connect to for
    a peer that was found. *)
Definition sendAddress (peer : Peer) : outcome string :=
  if (0 <? Z.of_nat (length (Routes peer))) then
    match findBestRoute (Routes peer) with
    | Ok bestRoute => Ok (NextHop bestRoute)
    | Err e => Err e
    | Panic msg => Panic msg
    end
  else if negb (String.eqb (Address peer) "") then Ok (Address peer)
  else Err "Error: Peer found but no address information available".

Lemma directRoute_Some (routes : list Route) (route : Route) :
  directRoute routes = Some route ->
  exists before after,
    routes = before ++ route :: after /\
    HopCount route = 1 /\
    Forall (fun r => HopCount r <> 1) before.
Proof.
  induction routes as [|r routes IH]; simpl; [discriminate|].
  destruct (Z.eqb_spec (HopCount r) 1) as [Hone|Hne].
  - intros [= ->]. by exists [], routes.
  - intros Hrest. destruct (IH Hrest) as (before & after & -> & Hhop & Hbefore).
    exists (r :: before), after. split_and!; [done|done|by constructor].
Qed.

Lemma directRoute_None (routes : list Route) :
  directRoute routes = None <-> Forall (fun r => HopCount r <> 1) routes.
Proof.
  induction routes as [|r routes IH]; simpl; [done|].
  destruct (Z.eqb_spec (HopCount r) 1) as [Hone|Hne].
  - split; [discriminate|]. intros Hall.
    apply Forall_cons in Hall as [Hr _]. done.
  - rewrite IH, Forall_cons. tauto.
Qed.

(** The second loop keeps [bestRoute] unless a route of strictly higher
    quality comes; what it returns is the first route of the highest
    quality. *)
Lemma highestQuality_spec (routes : list Route) :
  forall bestRoute : Route,
    let best := highestQuality bestRoute routes in
    (best = bestRoute /\
     Forall (fun r => Quality r <= Quality bestRoute) routes) \/
    (exists before after,
        routes = before ++ best :: after /\
        Quality bestRoute < Quality best /\
        Forall (fun r => Quality r < Quality best) before /\
        Forall (fun r => Quality r <= Quality best) after).
Proof.
  induction routes as [|r routes IH]; intros bestRoute; simpl.
  - by left.
  - destruct (Z.gtb_spec (Quality r) (Quality bestRoute)) as [Hgt|Hle].
    + destruct (IH r) as [[Heq Hall]|(before & after & Hsplit & Hlt & Hb & Ha)].
      * right. exists [], routes. rewrite Heq. split_and!; done.
      * right. exists (r :: before), after. simpl in *.
        split_and!; [by f_equal|lia|by constructor|done].
    + destruct (IH bestRoute)
        as [[Heq Hall]|(before & after & Hsplit & Hlt & Hb & Ha)].
      * left. split; [done|]. by constructor.
      * right. exists (r :: before), after. simpl in *.
        split_and!; [by f_equal|done|constructor; [lia|done]|done].
Qed.

Lemma highestQuality_elem (routes : list Route) :
  forall bestRoute : Route,
    highestQuality bestRoute routes = bestRoute \/
    highestQuality bestRoute routes ∈ routes.
Proof.
  intros bestRoute.
  destruct (highestQuality_spec routes bestRoute)
    as [[Heq _]|(before & after & Hsplit & _)]; [by left|right].
  rewrite Hsplit at 2. apply elem_of_app. right. left.
Qed.

Definition sampleRoutes : list Route :=
  [mkRoute "d" "a" 3 90; mkRoute "d" "b" 1 40; mkRoute "d" "c" 2 95].

Example findBestRoute_sample :
  findBestRoute sampleRoutes = Ok (mkRoute "d" "b" 1 40).
Proof. reflexivity. Qed.

Example findBestRoute_tie :
  findBestRoute
    [mkRoute "d" "a" 3 90; mkRoute "d" "b" 2 95; mkRoute "d" "c" 4 95]
  = Ok (mkRoute "d" "b" 2 95).
Proof. reflexivity. Qed.

(** C6.  On a list that is not empty, [findBestRoute] returns the first
    route, in the order of the list, whose hop count is 1 when there is
    one, whatever its quality; when there is none it returns a route
    whose quality no route exceeds and that every route before it falls
    short of.  On [sampleRoutes] that is the route of hop count 1 and
    quality 40. *)
Theorem findBestRoute_choice (routes : list Route) :
  routes <> [] ->
  (Exists (fun r => HopCount r = 1) routes ->
   exists before route after,
     routes = before ++ route :: after /\
     HopCount route = 1 /\
     Forall (fun r => HopCount r <> 1) before /\
     findBestRoute routes = Ok route) /\
  (Forall (fun r => HopCount r <> 1) routes ->
   exists before route after,
     routes = before ++ route :: after /\
     Forall (fun r => Quality r < Quality route) before /\
     Forall (fun r => Quality r <= Quality route) after /\
     findBestRoute routes = Ok route).
Proof.
  intros Hne. destruct routes as [|first rest]; [done|]. split.
  - intros Hex. unfold findBestRoute.
    destruct (directRoute (first :: rest)) as [route|] eqn:Hdirect.
    + destruct (directRoute_Some _ _ Hdirect)
        as (before & after & Hsplit & Hhop & Hbefore).
      by exists before, route, after.
    + apply directRoute_None in Hdirect.
      apply Exists_exists in Hex as (r & Hin & Hhop).
      rewrite Forall_forall in Hdirect. by destruct (Hdirect r Hin).
  - intros Hall. unfold findBestRoute.
    apply directRoute_None in Hall as ->.
    simpl. rewrite Z.gtb_ltb, Z.ltb_irrefl.
    destruct (highestQuality_spec rest first)
      as [[Heq Hle]|(before & after & Hsplit & Hlt & Hb & Ha)].
    + exists [], first, rest. rewrite Heq. by split_and!.
    + exists (first :: before), (highestQuality first rest), after.
      split_and!; [simpl; by f_equal|by constructor|done|done].
Qed.

Lemma findBestRoute_choice_witness :
  findBestRoute sampleRoutes = Ok (mkRoute "d" "b" 1 40).
Proof.
  destruct (findBestRoute_choice sampleRoutes) as [Hdirect _]; [done|].
  destruct Hdirect as (before & route & after & Hsplit & Hhop & Hb & ->).
  { apply Exists_cons_tl, Exists_cons_hd. reflexivity. }
  unfold sampleRoutes in Hsplit.
  destruct before as [|r1 [|r2 [|r3 [|r4 before]]]]; simplify_eq/=; done.
Defined.

(** C9.  [findBestRoute] reads [routes[0]] before anything else: on the
    empty list it panics, on every other list it returns one of the
    routes; its one caller calls it only when [len(peer.Routes) > 0] and
    never panics. *)
Theorem findBestRoute_empty_panics :
  findBestRoute [] = Panic "index out of range [0] with length 0" /\
  (forall routes, routes <> [] ->
                  exists route, findBestRoute routes = Ok route /\
                                route ∈ routes) /\
  (forall routes route, findBestRoute routes = Ok route -> routes <> []) /\
  (forall peer msg, sendAddress peer <> Panic msg).
Proof.
  split_and!.
  - reflexivity.
  - intros [|first rest] Hne; [done|]. unfold findBestRoute.
    destruct (directRoute (first :: rest)) as [route|] eqn:Hdirect.
    + exists route. split; [done|].
      destruct (directRoute_Some _ _ Hdirect) as (before & after & -> & _).
      apply elem_of_app. right. left.
    + eexists. split; [done|].
      destruct (highestQuality_elem (first :: rest) first) as [->|Hin];
        [left|done].
  - by intros [|first rest].
  - intros peer msg. unfold sendAddress.
    destruct (Routes peer) as [|first rest] eqn:Hroutes.
    + simpl. by destruct (negb _).
    + destruct (Z.ltb_spec 0 (Z.of_nat (length (first :: rest))));
        [|simpl in *; lia].
      unfold findBestRoute.
      by destruct (directRoute (first :: rest)).
Qed.

End Cli.

(* ===================================================================== *)
(** * Discovery: [ScanForPeersWithOptions]                               *)
(* ===================================================================== *)

Module Discovery.

Record PeerInfo : Type := mkPeerInfo {
  ID : string;
  Name : string;
  Address : string;
  Protocol : string;
  SignalStrength : Z;
  LastSeen : Z;
  Capabilities : list string
}.

Record ScanOptions : Type := mkScanOptions {
  Timeout : Z;
  WifiDirect : bool;
  Bluetooth : bool;
  TCP : bool;
  MaxDistance : Z;
  IncludeCache : bool
}.

(** [DefaultScanOptions]; the timeout of 30 seconds is in nanoseconds. *)
Definition DefaultScanOptions : ScanOptions :=
  mkScanOptions (30 * 1000000000) true true true 100 true.

(** The three scans that can be launched, in the order of the code. *)
Inductive transport : Type := WiFiDirectScan | BluetoothScan | TCPScan.

#[global] Instance transport_eq_dec : EqDecision transport.
Proof. solve_decision. Defined.

Definition label (t : transport) : string :=
  match t with
  | WiFiDirectScan => "WiFi Direct"
  | BluetoothScan => "Bluetooth"
  | TCPScan => "TCP"
  end.

(** What a scan does: it returns peers, returns an error, or never
    returns. *)
Inductive scanResult : Type :=
| Peers (peers : list PeerInfo)
| Failed (err : string)
| Hangs.

(** What the goroutine of a scan sends, and on which channel. *)
Inductive message : Type :=
| OnErrorsCh (err : string)
| OnResultsCh (peers : list PeerInfo).

(** How the loop of the aggregator ended: all launched scans were heard,
    or the timer fired first. *)
Inductive collected : Type :=
| AllHeard (results : list PeerInfo) (errors : list string)
| TimerFired (results : list PeerInfo) (errors : list string).

(** [%v] of a slice of errors. *)
Definition formatErrors (errors : list string) : string :=
  "[" +:+ String.concat " " errors +:+ "]".

Definition markCached (peer : PeerInfo) : PeerInfo :=
  mkPeerInfo (ID peer) (Name peer) (Address peer) (Protocol peer) 0
    (LastSeen peer) (Capabilities peer).

(** The inner loop over [results]. *)
Definition isDuplicate (peer : PeerInfo) (results : list PeerInfo) : bool :=
  existsb (fun existing => String.eqb (ID peer) (ID existing)) results.

(** The loop over [cachedPeers]; [results] grows as cached peers are
    appended, and later cached peers are compared with them too. *)
Fixpoint mergeCached (cachedPeers results : list PeerInfo) : list PeerInfo :=
  match cachedPeers with
  | [] => results
  | peer :: rest =>
      if isDuplicate peer results then mergeCached rest results
      else mergeCached rest (results ++ [markCached peer])
  end.

(** The loop [for activeScanners > 0 { select { ... } }].  [arrivals] are
    the messages that [select] takes from the two channels, in the order
    it takes them, before it takes the timer; when they are used up the
    timer is what it takes next. *)
Fixpoint collect (activeScanners : nat) (arrivals : list message)
    (results : list PeerInfo) (errors : list string) : collected :=
  match activeScanners with
  | O => AllHeard results errors
  | S remaining =>
      match arrivals with
      | [] => TimerFired results errors
      | OnErrorsCh err :: rest =>
          collect remaining rest results (errors ++ [err])
      | OnResultsCh peers :: rest =>
          collect remaining rest (results ++ peers) errors
      end
  end.

(** The scans launched for the options, one goroutine each. *)
Definition launched (options : ScanOptions) : list transport :=
  (if WifiDirect options then [WiFiDirectScan] else [])
  ++ (if Bluetooth options then [BluetoothScan] else [])
  ++ (if TCP options then [TCPScan] else []).

Section Aggregator.

(** The scans and the cache of the platform. *)
Variable scan : transport -> scanResult.
Variable getCachedPeers : list PeerInfo.

(** The goroutine launched for a scan: an error goes to [errorsCh] under
    the name of the transport, peers go to [resultsCh]. *)
Definition goroutine (t : transport) : option message :=
  match scan t with
  | Peers peers => Some (OnResultsCh peers)
  | Failed err => Some (OnErrorsCh (label t +:+ " scan error: " +:+ err))
  | Hangs => None
  end.

(** [ScanForPeersWithOptions].  [heard] lists the scans whose message
    [select] takes before it takes the timer, in the order it takes
    them. *)
Definition ScanForPeersWithOptions (options : ScanOptions)
    (heard : list transport) : list PeerInfo * option string :=
  match collect (length (launched options)) (omap goroutine heard) [] [] with
  | TimerFired results errors =>
      (results,
       Some ("scan timeout, partial results returned (errors: "
             +:+ formatErrors errors +:+ ")"))
  | AllHeard results errors =>
      if IncludeCache options
      then (mergeCached getCachedPeers results, None)
      else (results, None)
  end.

End Aggregator.

(** The scans and the cache as the repository has them: placeholders
    that return one fixed peer each, and an empty cache.  [LastSeen], the
    time of the call, is left at 0. *)
Definition scanWifiDirect : scanResult :=
  Peers [mkPeerInfo "wfd-1234" "Laptop-WFD" "192.168.49.1" "wifi-direct" 80 0
           ["transfer"; "mesh"]].
Definition scanBluetooth : scanResult :=
  Peers [mkPeerInfo "bt-5678" "Phone-BT" "00:11:22:33:44:55" "bluetooth" 60 0
           ["transfer"]].
Definition scanTCP : scanResult :=
  Peers [mkPeerInfo "tcp-9012" "Desktop-TCP" "192.168.1.100" "tcp" 100 0
           ["transfer"; "mesh"; "relay"]].
Definition placeholderScan (t : transport) : scanResult :=
  match t with
  | WiFiDirectScan => scanWifiDirect
  | BluetoothScan => scanBluetooth
  | TCPScan => scanTCP
  end.
Definition getCachedPeers : list PeerInfo := [].

(** The peers and the errors among messages. *)
Definition received (arrivals : list message) : list PeerInfo :=
  concat (omap (fun m => match m with
                         | OnResultsCh peers => Some peers
                         | OnErrorsCh _ => None
                         end) arrivals).

Definition reported (arrivals : list message) : list string :=
  omap (fun m => match m with
                 | OnErrorsCh err => Some err
                 | OnResultsCh _ => None
                 end) arrivals.

(** The launched scans not heard when the loop ended. *)
Definition pending (options : ScanOptions) (heard : list transport)
  : list transport :=
  filter (fun t => t ∉ heard) (launched options).

(** ** The loop of the aggregator *)

Lemma received_cons_results (peers : list PeerInfo) (arrivals : list message) :
  received (OnResultsCh peers :: arrivals) = peers ++ received arrivals.
Proof. reflexivity. Qed.

Lemma collect_all_heard (n : nat) :
  forall (arrivals : list message) (results : list PeerInfo)
         (errors : list string),
    (n <= length arrivals)%nat ->
    collect n arrivals results errors
    = AllHeard (results ++ received (take n arrivals))
        (errors ++ reported (take n arrivals)).
Proof.
  induction n as [|n IH]; intros arrivals results errors Hlen; simpl.
  - by rewrite !app_nil_r.
  - destruct arrivals as [|[err|peers] arrivals]; simpl in Hlen; [lia| |];
      rewrite firstn_cons, IH by lia.
    + simpl. f_equal. by rewrite <- (assoc_L (++)).
    + rewrite received_cons_results. f_equal. by rewrite <- (assoc_L (++)).
Qed.

Lemma collect_timer_fired (n : nat) :
  forall (arrivals : list message) (results : list PeerInfo)
         (errors : list string),
    (length arrivals < n)%nat ->
    collect n arrivals results errors
    = TimerFired (results ++ received arrivals) (errors ++ reported arrivals).
Proof.
  induction n as [|n IH]; intros arrivals results errors Hlen; [lia|].
  simpl. destruct arrivals as [|[err|peers] arrivals]; simpl in Hlen.
  - by rewrite !app_nil_r.
  - rewrite IH by lia. simpl. f_equal. by rewrite <- (assoc_L (++)).
  - rewrite IH by lia. rewrite received_cons_results.
    f_equal. by rewrite <- (assoc_L (++)).
Qed.

(** ** Merging the cache *)

Lemma isDuplicate_spec (peer : PeerInfo) (results : list PeerInfo) :
  isDuplicate peer results = true <-> ID peer ∈ ID <$> results.
Proof.
  unfold isDuplicate. induction results as [|existing results IH]; simpl.
  - split; [discriminate|]. by intros ?%elem_of_nil.
  - rewrite orb_true_iff, IH, elem_of_cons.
    destruct (String.eqb_spec (ID peer) (ID existing)) as [Heq|Hne].
    + split; intros _; by left.
    + split; (intros [?|?]; [done|by right]).
Qed.

(** What the loop over the cache appends: cached peers with their signal
    strength set to 0, none with the ID of an entry that was there, no
    two with the same ID, and enough of them for every cached ID to be in
    the result. *)
Lemma mergeCached_spec (cachedPeers : list PeerInfo) :
  forall results : list PeerInfo,
  exists added,
    mergeCached cachedPeers results = results ++ added /\
    Forall (fun p => SignalStrength p = 0 /\
                     exists c, c ∈ cachedPeers /\ p = markCached c) added /\
    (forall p, p ∈ added -> ID p ∉ ID <$> results) /\
    NoDup (ID <$> added) /\
    (forall c, c ∈ cachedPeers -> ID c ∈ ID <$> (results ++ added)).
Proof.
  induction cachedPeers as [|peer rest IH]; intros results; simpl.
  - exists []. rewrite app_nil_r. split_and!; [done|done| | |].
    + by intros p ?%elem_of_nil.
    + constructor.
    + by intros c ?%elem_of_nil.
  - destruct (isDuplicate peer results) eqn:Hdup.
    + destruct (IH results) as (added & Heq & Hsig & Hfresh & Hnodup & Hall).
      exists added. split_and!; [done| |done|done|].
      * eapply Forall_impl; [exact Hsig|]. intros p (Hs & c & Hc & Hp).
        split; [done|]. exists c. split; [by right|done].
      * intros c [->|Hc]%elem_of_cons; [|by apply Hall].
        apply isDuplicate_spec in Hdup.
        rewrite fmap_app. apply elem_of_app. by left.
    + destruct (IH (results ++ [markCached peer]))
        as (added & Heq & Hsig & Hfresh & Hnodup & Hall).
      assert (ID peer ∉ ID <$> results) as Hnew.
      { intros Hin. apply isDuplicate_spec in Hin. congruence. }
      exists (markCached peer :: added).
      rewrite Heq, <- (assoc_L (++)). simpl.
      split_and!; [done| | | |].
      * constructor; [split; [done|]; exists peer; split; [left|done]|].
        eapply Forall_impl; [exact Hsig|]. intros p (Hs & c & Hc & Hp).
        split; [done|]. exists c. split; [by right|done].
      * intros p [->|Hp]%elem_of_cons; [done|].
        specialize (Hfresh p Hp). rewrite fmap_app in Hfresh.
        by apply not_elem_of_app in Hfresh as [? _].
      * constructor; [|done]. intros Hin.
        apply list_elem_of_fmap in Hin as (p & Hid & Hp).
        specialize (Hfresh p Hp). rewrite fmap_app in Hfresh.
        apply not_elem_of_app in Hfresh as [_ Hfresh].
        apply Hfresh. simpl. rewrite <- Hid. left.
      * intros c [->|Hc]%elem_of_cons.
        -- rewrite fmap_app. apply elem_of_app. right. left.
        -- specialize (Hall c Hc).
           by rewrite <- (assoc_L (++)) in Hall.
Qed.

Lemma mergeCached_NoDup (cachedPeers results : list PeerInfo) :
  NoDup (ID <$> results) -> NoDup (ID <$> mergeCached cachedPeers results).
Proof.
  intros Hlive.
  destruct (mergeCached_spec cachedPeers results)
    as (added & -> & _ & Hfresh & Hnodup & _).
  rewrite fmap_app. apply NoDup_app. split_and!; [done| |done].
  intros id Hid Hadded.
  apply list_elem_of_fmap in Hadded as (p & -> & Hp).
  by apply (Hfresh p Hp).
Qed.

(** ** The aggregator *)

Section AggregatorFacts.

Variable scan : transport -> scanResult.
Variable cache : list PeerInfo.

Lemma launched_NoDup (options : ScanOptions) : NoDup (launched options).
Proof.
  unfold launched.
  destruct (WifiDirect options), (Bluetooth options), (TCP options);
    apply (bool_decide_unpack _); by vm_compute.
Qed.

(** A launched scan that hangs, or whose message is not taken before the
    timer, leaves the loop short of a message. *)
Lemma heard_short (options : ScanOptions) (heard : list transport)
    (t : transport) :
  NoDup heard ->
  (forall t', t' ∈ heard -> t' ∈ launched options) ->
  t ∈ launched options ->
  scan t = Hangs \/ t ∉ heard ->
  (length (omap (goroutine scan) heard) < length (launched options))%nat.
Proof.
  intros Hnodup Hsub Ht Hmiss.
  assert (length (omap (goroutine scan) heard)
          <= length (filter (fun t' => t' <> t) heard))%nat as Hle.
  { clear Hnodup Hsub. induction heard as [|t' heard IH]; [done|].
    change (omap (goroutine scan) (t' :: heard))
      with (match goroutine scan t' with
            | Some m => m :: omap (goroutine scan) heard
            | None => omap (goroutine scan) heard
            end).
    rewrite filter_cons.
    assert (t ∉ heard \/ scan t = Hangs) as Hmiss'.
    { destruct Hmiss as [?|Hnot]; [by right|left].
      intros Hin. apply Hnot. by right. }
    specialize (IH ltac:(tauto)).
    destruct (decide (t' <> t)) as [Hne|Heq]; simpl.
    - destruct (goroutine scan t'); simpl; lia.
    - assert (t' = t) as -> by (by destruct (decide (t' = t))).
      destruct Hmiss as [Hhang|Hnot]; [|exfalso; apply Hnot; left].
      assert (goroutine scan t = None) as ->
          by (unfold goroutine; by rewrite Hhang).
      lia. }
  assert (filter (fun t' => t' <> t) heard
          ⊆+ filter (fun t' => t' <> t) (launched options)) as Hsubm.
  { apply NoDup_submseteq; [by apply NoDup_filter|].
    intros t'. rewrite !list_elem_of_filter.
    intros [Hne Hin]. split; [done|by apply Hsub]. }
  apply submseteq_length in Hsubm.
  pose proof (length_filter_lt (fun t' => t' <> t) (launched options) t Ht)
    as Hlt.
  specialize (Hlt ltac:(tauto)). lia.
Qed.

End AggregatorFacts.

Definition sampleCache : list PeerInfo :=
  [mkPeerInfo "tcp-9012" "Desktop-TCP" "192.168.1.100" "tcp" 100 0 [];
   mkPeerInfo "old-1" "Tablet" "192.168.1.9" "tcp" 70 0 [];
   mkPeerInfo "old-1" "Tablet" "192.168.1.9" "bluetooth" 40 0 []].

(** With the placeholder scans and a cache of three entries: the cached
    entry of a live peer is dropped, of the two cached entries with the
    same ID the first is kept, with signal strength 0. *)
Example scan_with_cache :
  ScanForPeersWithOptions placeholderScan sampleCache DefaultScanOptions
    [TCPScan; WiFiDirectScan; BluetoothScan]
  = ([mkPeerInfo "tcp-9012" "Desktop-TCP" "192.168.1.100" "tcp" 100 0
        ["transfer"; "mesh"; "relay"];
      mkPeerInfo "wfd-1234" "Laptop-WFD" "192.168.49.1" "wifi-direct" 80 0
        ["transfer"; "mesh"];
      mkPeerInfo "bt-5678" "Phone-BT" "00:11:22:33:44:55" "bluetooth" 60 0
        ["transfer"];
      mkPeerInfo "old-1" "Tablet" "192.168.1.9" "tcp" 0 0 []], None).
Proof. reflexivity. Qed.

(** When every launched scan has been heard before the timer and cache
    inclusion is requested, the result is the live entries followed by
    cached entries, such that: every cached entry included has signal
    strength 0; none has the ID of a live entry; no two of them have the
    same ID; and every cached ID is in the result. *)
Lemma ScanForPeersWithOptions_all_heard
    (scan : transport -> scanResult) (cache : list PeerInfo)
    (options : ScanOptions) (heard : list transport) :
  IncludeCache options = true ->
  (length (launched options) <= length (omap (goroutine scan) heard))%nat ->
  let live :=
    received (take (length (launched options)) (omap (goroutine scan) heard)) in
  exists added,
    ScanForPeersWithOptions scan cache options heard = (live ++ added, None) /\
    Forall (fun p => SignalStrength p = 0 /\
                     exists c, c ∈ cache /\ p = markCached c) added /\
    (forall p, p ∈ added -> ID p ∉ ID <$> live) /\
    NoDup (ID <$> added) /\
    (forall c, c ∈ cache -> ID c ∈ ID <$> (live ++ added)) /\
    (NoDup (ID <$> live) -> NoDup (ID <$> (live ++ added))).
Proof.
  intros Hcache Hheard live. unfold ScanForPeersWithOptions.
  rewrite collect_all_heard by done. rewrite Hcache. simpl. fold live.
  destruct (mergeCached_spec cache live)
    as (added & Heq & Hsig & Hfresh & Hnodup & Hall).
  exists added. split_and!; [by rewrite Heq|done|done|done|done|].
  intros Hlive. rewrite <- Heq. by apply mergeCached_NoDup.
Qed.

(** When a launched scan hangs, or its message is not taken before the
    timer is, the loop is left by the timer: the peers of the scans
    heard so far are returned with an error that lists, after the words
    "scan timeout, partial results returned", the errors of the scans
    heard so far; the cache is not consulted. *)
Lemma ScanForPeersWithOptions_timer
    (scan : transport -> scanResult) (cache : list PeerInfo)
    (options : ScanOptions) (heard : list transport) (t : transport) :
  NoDup heard ->
  (forall t', t' ∈ heard -> t' ∈ launched options) ->
  t ∈ launched options ->
  scan t = Hangs \/ t ∉ heard ->
  ScanForPeersWithOptions scan cache options heard
  = (received (omap (goroutine scan) heard),
     Some ("scan timeout, partial results returned (errors: "
           +:+ formatErrors (reported (omap (goroutine scan) heard))
           +:+ ")")).
Proof.
  intros Hnodup Hsub Ht Hmiss. unfold ScanForPeersWithOptions.
  rewrite collect_timer_fired; [done|].
  by eapply heard_short.
Qed.

(** ** The scans of the repository *)

(** The ID of the peer that each scan of the repository returns. *)
Definition placeholderID (t : transport) : string :=
  match t with
  | WiFiDirectScan => "wfd-1234"
  | BluetoothScan => "bt-5678"
  | TCPScan => "tcp-9012"
  end.

Lemma placeholder_arrivals (heard : list transport) :
  length (omap (goroutine placeholderScan) heard) = length heard /\
  ID <$> received (omap (goroutine placeholderScan) heard)
  = placeholderID <$> heard.
Proof.
  induction heard as [|t heard [IHlen IHid]]; [done|].
  change (omap (goroutine placeholderScan) (t :: heard))
    with (match goroutine placeholderScan t with
          | Some m => m :: omap (goroutine placeholderScan) heard
          | None => omap (goroutine placeholderScan) heard
          end).
  destruct t; cbn [goroutine placeholderScan scanWifiDirect scanBluetooth
                   scanTCP]; rewrite received_cons_results;
    cbn [length app fmap list_fmap ID placeholderID];
    by rewrite IHlen, IHid.
Qed.

Lemma placeholder_live_NoDup (heard : list transport) :
  NoDup heard ->
  NoDup (ID <$> received (omap (goroutine placeholderScan) heard)).
Proof.
  intros Hnodup. destruct (placeholder_arrivals heard) as [_ ->].
  apply NoDup_fmap_2; [|done]. by intros [] []; try discriminate.
Qed.

(** C7.  With the scans as the repository has them, for every cache,
    all options and every run of the loop (no scan is heard twice, and
    only launched scans are heard): the result is the live entries, in
    the order in which they arrived, followed by cached entries; no two
    entries of the result have the same ID; every cached entry in it
    has signal strength 0 and an ID that no live entry has, so that a
    live entry displaces the cached entries with its ID; and when cache
    inclusion is requested and every launched scan was heard before the
    timer, the error is [nil] and every ID of the cache is in the
    result. *)
Theorem ScanForPeersWithOptions_merge
    (cache : list PeerInfo) (options : ScanOptions)
    (heard : list transport) :
  NoDup heard ->
  (forall t, t ∈ heard -> t ∈ launched options) ->
  let live := received (omap (goroutine placeholderScan) heard) in
  exists added,
    (ScanForPeersWithOptions placeholderScan cache options heard).1
    = live ++ added /\
    NoDup (ID <$> (live ++ added)) /\
    Forall (fun p => SignalStrength p = 0 /\
                     exists c, c ∈ cache /\ p = markCached c) added /\
    (forall p, p ∈ added -> ID p ∉ ID <$> live) /\
    (IncludeCache options = true ->
     (length (launched options) <= length heard)%nat ->
     (ScanForPeersWithOptions placeholderScan cache options heard).2 = None /\
     forall c, c ∈ cache -> ID c ∈ ID <$> (live ++ added)).
Proof.
  intros Hnodup Hsub live.
  pose proof (placeholder_live_NoDup heard Hnodup) as Hlive.
  change (NoDup (ID <$> live)) in Hlive.
  destruct (placeholder_arrivals heard) as [Hlen _].
  assert (length heard <= length (launched options))%nat as Hle.
  { apply submseteq_length, NoDup_submseteq; done. }
  destruct (decide (length (launched options) <= length heard)%nat)
    as [Hall|Hshort].
  - assert (take (length (launched options))
              (omap (goroutine placeholderScan) heard)
            = omap (goroutine placeholderScan) heard) as Htake.
    { apply take_ge. lia. }
    destruct (IncludeCache options) eqn:Hcache.
    + destruct (ScanForPeersWithOptions_all_heard placeholderScan cache
                  options heard Hcache)
        as (added & Heq & Hsig & Hfresh & _ & Hin & Hdistinct); [lia|].
      rewrite Htake in Heq, Hfresh, Hin, Hdistinct.
      fold live in Heq, Hfresh, Hin, Hdistinct.
      exists added. rewrite Heq. split_and!; [done|by auto|done|done|done].
    + exists []. unfold ScanForPeersWithOptions.
      rewrite collect_all_heard by lia. rewrite Hcache, Htake.
      cbn [app fst]. fold live. rewrite app_nil_r.
      split_and!; [done|done|constructor| |done].
      by intros p ?%elem_of_nil.
  - exists []. unfold ScanForPeersWithOptions.
    rewrite collect_timer_fired by lia. cbn [app fst]. fold live.
    rewrite app_nil_r. split_and!; [done|done|constructor| |lia].
    by intros p ?%elem_of_nil.
Qed.

Lemma ScanForPeersWithOptions_merge_witness :
  exists added,
    (ScanForPeersWithOptions placeholderScan sampleCache DefaultScanOptions
       [TCPScan; WiFiDirectScan; BluetoothScan]).1
    = received (omap (goroutine placeholderScan)
                  [TCPScan; WiFiDirectScan; BluetoothScan]) ++ added /\
    NoDup (ID <$> (received (omap (goroutine placeholderScan)
                              [TCPScan; WiFiDirectScan; BluetoothScan])
                   ++ added)) /\
    Forall (fun p => SignalStrength p = 0 /\
                     exists c, c ∈ sampleCache /\ p = markCached c) added.
Proof.
  destruct (ScanForPeersWithOptions_merge sampleCache DefaultScanOptions
              [TCPScan; WiFiDirectScan; BluetoothScan])
    as (added & Heq & Hnodup & Hsig & _).
  - apply (bool_decide_unpack _). by vm_compute.
  - intros t _. destruct t; apply (bool_decide_unpack _); by vm_compute.
  - by exists added.
Defined.

(** ** The timer *)

Section Clock.

Variable scan : transport -> scanResult.

(** The time at which the goroutine of a scan sends its message, on the
    clock that starts when the timer is created; it counts for the
    scans that return. *)
Variable sentAt : transport -> Z.

(** The duration given to [time.NewTimer]. *)
Variable timeout : Z.

Definition readyAt (t : transport) : option Z :=
  match goroutine scan t with
  | Some _ => Some (sentAt t)
  | None => None
  end.

(** [select] at the time [now], with the scans [pending]: it blocks
    until a case is ready and takes one that is ready then.  No case,
    message or timer, is ready before the time [T]. *)
Definition noneBefore (now : Z) (pending : list transport) (T : Z) : Prop :=
  T <= Z.max now timeout /\
  forall t arrival,
    t ∈ pending -> readyAt t = Some arrival -> T <= Z.max now arrival.

(** The runs of [for activeScanners > 0 { select { ... } }] from the time
    [now] on: the scans whose message is taken, in order, and the time
    at which the loop is left, by its condition or by the timer. *)
Inductive selectLoop : Z -> list transport -> list transport -> Z -> Prop :=
| select_exit now :
    selectLoop now [] [] now
| select_message now pending t arrival heard returned :
    t ∈ pending ->
    readyAt t = Some arrival ->
    noneBefore now pending (Z.max now arrival) ->
    selectLoop (Z.max now arrival) (filter (fun t' => t' <> t) pending)
      heard returned ->
    selectLoop now pending (t :: heard) returned
| select_timer now pending :
    pending <> [] ->
    noneBefore now pending (Z.max now timeout) ->
    selectLoop now pending [] (Z.max now timeout).

(** The case that is ready first: the timer, or the message of a scan. *)
Lemma earliest_case (now : Z) (pending : list transport) :
  noneBefore now pending (Z.max now timeout) \/
  exists t arrival,
    t ∈ pending /\ readyAt t = Some arrival /\
    noneBefore now pending (Z.max now arrival).
Proof.
  induction pending as [|t pending IH].
  - left. split; [lia|]. by intros t arrival ?%elem_of_nil.
  - destruct (readyAt t) as [a|] eqn:Hready.
    + destruct IH as [[_ Htimer]|(t0 & a0 & Hin & Hready0 & Hle0 & Hmin)].
      * destruct (decide (Z.max now timeout <= Z.max now a)) as [Hle|Hgt].
        -- left. split; [lia|]. intros t' a' [->|Hin']%elem_of_cons Ha'.
           ++ rewrite Hready in Ha'. inversion Ha'; subst. done.
           ++ by eapply Htimer.
        -- right. exists t, a. split_and!; [left|done|].
           split; [lia|]. intros t' a' [->|Hin']%elem_of_cons Ha'.
           ++ rewrite Hready in Ha'. inversion Ha'; subst. lia.
           ++ specialize (Htimer t' a' Hin' Ha'). lia.
      * destruct (decide (Z.max now a0 <= Z.max now a)) as [Hle|Hgt].
        -- right. exists t0, a0. split_and!; [by right|done|].
           split; [done|]. intros t' a' [->|Hin']%elem_of_cons Ha'.
           ++ rewrite Hready in Ha'. inversion Ha'; subst. done.
           ++ by eapply Hmin.
        -- right. exists t, a. split_and!; [left|done|].
           split; [lia|]. intros t' a' [->|Hin']%elem_of_cons Ha'.
           ++ rewrite Hready in Ha'. inversion Ha'; subst. lia.
           ++ specialize (Hmin t' a' Hin' Ha'). lia.
    + destruct IH as [[Hle Htimer]|(t0 & a0 & Hin & Hready0 & Hle0 & Hmin)].
      * left. split; [done|]. intros t' a' [->|Hin']%elem_of_cons Ha'.
        -- by rewrite Hready in Ha'.
        -- by eapply Htimer.
      * right. exists t0, a0. split_and!; [by right|done|].
        split; [done|]. intros t' a' [->|Hin']%elem_of_cons Ha'.
        -- by rewrite Hready in Ha'.
        -- by eapply Hmin.
Qed.

(** The loop is left, whatever the scans do. *)
Lemma selectLoop_total (pending : list transport) :
  forall now, exists heard returned, selectLoop now pending heard returned.
Proof.
  remember (length pending) as n eqn:Hn. revert pending Hn.
  induction n as [n IH] using lt_wf_ind. intros pending Hn now.
  destruct pending as [|t0 pending0] eqn:Hp.
  { exists [], now. constructor. }
  rewrite <- Hp in *. assert (pending <> []) as Hne by (by rewrite Hp).
  clear Hp.
  destruct (earliest_case now pending) as [Htimer|(t & a & Hin & Hready & He)].
  - exists [], (Z.max now timeout). by apply select_timer.
  - pose proof (length_filter_lt (fun t' => t' <> t) pending t Hin) as Hlt.
    specialize (Hlt ltac:(tauto)).
    destruct (IH (length (filter (fun t' => t' <> t) pending)) ltac:(lia)
                (filter (fun t' => t' <> t) pending) eq_refl (Z.max now a))
      as (heard & returned & Hrun).
    exists (t :: heard), returned. by eapply select_message.
Qed.

(** What a run of the loop is: no scan is heard twice, the scans heard
    are pending scans that return, the loop is left between [now] and
    the time of the timer, and at the time of the timer when a pending
    scan was not heard. *)
Lemma selectLoop_run (now : Z) (pending heard : list transport)
    (returned : Z) :
  selectLoop now pending heard returned ->
  NoDup heard /\
  (forall t, t ∈ heard -> t ∈ pending /\ goroutine scan t <> None) /\
  now <= returned <= Z.max now timeout /\
  ((exists t, t ∈ pending /\ t ∉ heard) -> returned = Z.max now timeout).
Proof.
  induction 1 as [now|now pending t a heard returned Hin Hready [Hle _] _ IH
                 |now pending Hne _].
  - split; [constructor|]. split; [by intros t ?%elem_of_nil|].
    split; [lia|]. by intros (t & ?%elem_of_nil & _).
  - destruct IH as (Hnodup & Hsub & Hbound & Htimer).
    split; [|split; [|split]].
    + constructor; [|done]. intros Hheard.
      destruct (Hsub t Hheard) as [Hfilter _].
      apply list_elem_of_filter in Hfilter as [Hneq _]. done.
    + intros t' [->|Hin']%elem_of_cons.
      * split; [done|]. unfold readyAt in Hready.
        by destruct (goroutine scan t).
      * destruct (Hsub t' Hin') as [Hfilter Hsends].
        by apply list_elem_of_filter in Hfilter as [_ ?].
    + lia.
    + intros (t' & Hin' & Hnot).
      assert (returned = Z.max (Z.max now a) timeout) as ->; [|lia].
      apply Htimer. exists t'. split.
      * apply list_elem_of_filter. split; [|done].
        intros ->. apply Hnot. left.
      * intros Hheard. apply Hnot. by right.
  - split; [constructor|]. split; [by intros t ?%elem_of_nil|].
    split; [lia|done].
Qed.

End Clock.

(** A Bluetooth scan that never returns and a TCP scan that fails. *)
Definition hangingScan (t : transport) : scanResult :=
  match t with
  | WiFiDirectScan => scanWifiDirect
  | BluetoothScan => Hangs
  | TCPScan => Failed "network is unreachable"
  end.

(** Options with a timeout of zero: the timer is ready as soon as it is
    created; and goroutines that have all sent their message by then, so
    that every case of the first [select] is ready and it may take any
    of them. *)
Definition immediateOptions : ScanOptions :=
  mkScanOptions 0 true true true 100 true.

Definition sentBefore (t : transport) : Z := 0.

Lemma selectLoop_one_heard (first : transport) :
  selectLoop placeholderScan sentBefore (Timeout immediateOptions) 0
    (launched immediateOptions) [first] 0.
Proof.
  eapply (select_message _ _ _ 0 (launched immediateOptions) first 0).
  - destruct first; apply (bool_decide_unpack _); by vm_compute.
  - by destruct first.
  - split; [vm_compute; discriminate|].
    intros t arrival _ Hready. unfold readyAt, sentBefore in Hready.
    destruct (goroutine placeholderScan t); inversion Hready. lia.
  - change 0 with (Z.max (Z.max 0 0) (Timeout immediateOptions)) at 3.
    apply select_timer.
    + destruct first; vm_compute; discriminate.
    + split; [lia|]. intros t arrival _ Hready.
      unfold readyAt, sentBefore in Hready.
      destruct (goroutine placeholderScan t); inversion Hready.
      vm_compute. discriminate.
Qed.

(** C8 as the specification words it does not hold: with the scans of
    the repository and a timeout of zero, the run in which [select]
    takes the message of the WiFi Direct scan and then the timer, and
    the run in which it takes the message of the TCP scan and then the
    timer, return the same error, which names no transport, while
    different transports had not responded. *)
Lemma ScanForPeersWithOptions_timeout_error_silent :
  selectLoop placeholderScan sentBefore (Timeout immediateOptions) 0
    (launched immediateOptions) [WiFiDirectScan] 0 /\
  selectLoop placeholderScan sentBefore (Timeout immediateOptions) 0
    (launched immediateOptions) [TCPScan] 0 /\
  (ScanForPeersWithOptions placeholderScan getCachedPeers immediateOptions
     [WiFiDirectScan]).2
  = Some "scan timeout, partial results returned (errors: [])" /\
  (ScanForPeersWithOptions placeholderScan getCachedPeers immediateOptions
     [TCPScan]).2
  = Some "scan timeout, partial results returned (errors: [])" /\
  pending immediateOptions [WiFiDirectScan] = [BluetoothScan; TCPScan] /\
  pending immediateOptions [TCPScan] = [WiFiDirectScan; BluetoothScan].
Proof.
  split_and!; [apply selectLoop_one_heard..| | | |]; vm_compute; reflexivity.
Qed.

(** C8, as the code has it.  On the clock that starts when the timer is
    created, whatever the scans do and whenever their goroutines send:
    the loop is left, and every run leaves it no later than the timeout
    (at once when the timeout is not positive).  When a launched scan
    hangs, or its message is not taken before the timer is, the loop is
    left at the time of the timer, and what is returned are the peers of
    the scans heard so far and an error that lists, after the words
    "scan timeout, partial results returned", the errors of the scans
    heard so far; the cache is not consulted.  When every launched scan
    was heard the error is [nil]. *)
Theorem ScanForPeersWithOptions_timeout
    (scan : transport -> scanResult) (sentAt : transport -> Z)
    (cache : list PeerInfo) (options : ScanOptions) :
  (exists heard returned,
      selectLoop scan sentAt (Timeout options) 0 (launched options) heard
        returned) /\
  forall heard returned,
    selectLoop scan sentAt (Timeout options) 0 (launched options) heard
      returned ->
    0 <= returned <= Z.max 0 (Timeout options) /\
    ((exists t, t ∈ launched options /\ (scan t = Hangs \/ t ∉ heard)) ->
     returned = Z.max 0 (Timeout options) /\
     ScanForPeersWithOptions scan cache options heard
     = (received (omap (goroutine scan) heard),
        Some ("scan timeout, partial results returned (errors: "
              +:+ formatErrors (reported (omap (goroutine scan) heard))
              +:+ ")"))) /\
    ((forall t, t ∈ launched options -> t ∈ heard) ->
     (ScanForPeersWithOptions scan cache options heard).2 = None).
Proof.
  split; [apply selectLoop_total|].
  intros heard returned Hrun.
  destruct (selectLoop_run scan sentAt (Timeout options) 0 (launched options)
              heard returned Hrun) as (Hnodup & Hsub & Hbound & Htimer).
  split; [lia|]. split.
  - intros (t & Hin & Hmiss).
    assert (t ∉ heard) as Hnot.
    { destruct Hmiss as [Hhang|?]; [|done]. intros Hheard.
      destruct (Hsub t Hheard) as [_ Hsends]. apply Hsends.
      unfold goroutine. by rewrite Hhang. }
    split; [apply Htimer; by exists t|].
    apply (ScanForPeersWithOptions_timer scan cache options heard t);
      [done| |done|by right].
    intros t' Hheard. by destruct (Hsub t' Hheard).
  - intros Hall.
    assert (length (omap (goroutine scan) heard) = length heard) as Hlen.
    { clear Hnodup Hbound Htimer Hall Hrun.
      induction heard as [|t heard IH]; [done|].
      change (omap (goroutine scan) (t :: heard))
        with (match goroutine scan t with
              | Some m => m :: omap (goroutine scan) heard
              | None => omap (goroutine scan) heard
              end).
      destruct (Hsub t) as [_ Hsends]; [left|].
      destruct (goroutine scan t); [|done]. cbn [length]. f_equal.
      apply IH. intros t' Hin. apply Hsub. by right. }
    assert (length (launched options) <= length heard)%nat as Hle.
    { apply submseteq_length, NoDup_submseteq; [apply launched_NoDup|done]. }
    unfold ScanForPeersWithOptions. rewrite collect_all_heard by lia.
    by destruct (IncludeCache options).
Qed.

Lemma ScanForPeersWithOptions_timeout_witness :
  exists heard returned,
    selectLoop hangingScan (fun _ => 0) (Timeout DefaultScanOptions) 0
      (launched DefaultScanOptions) heard returned /\
    returned = 30000000000 /\
    (ScanForPeersWithOptions hangingScan sampleCache DefaultScanOptions
       heard).2 <> None.
Proof.
  destruct (ScanForPeersWithOptions_timeout hangingScan (fun _ => 0)
              sampleCache DefaultScanOptions)
    as [(heard & returned & Hrun) Hruns].
  exists heard, returned. split; [done|].
  destruct (Hruns heard returned Hrun) as (_ & Htimer & _).
  destruct Htimer as [-> ->].
  - exists BluetoothScan. split; [|by left].
    apply (bool_decide_unpack _). by vm_compute.
  - split; [reflexivity|discriminate].
Defined.
End Discovery.

(* ===================================================================== *)
(** * Chunked transfer: what is hashed, and failures                     *)
(* ===================================================================== *)

Module TransferChunks.

Import Transfer.

(** The read loop of [calculateChunkChecksum] reads the [size] bytes from
    [offset] on, or as many of them as the file has. *)
Lemma readAt_take_drop (data : list Byte.byte) :
  forall offset size : Z,
    0 <= offset ->
    readAt data offset size
    = take (Z.to_nat size) (drop (Z.to_nat offset) data).
Proof.
  induction data as [|b rest IH]; intros offset size Hoff; simpl.
  - by rewrite drop_nil, take_nil.
  - destruct (Z.gtb_spec offset 0) as [Hpos|Hzero].
    + rewrite IH by lia.
      replace (Z.to_nat offset) with (S (Z.to_nat (offset - 1))) by lia.
      done.
    + replace offset with 0 by lia. simpl.
      destruct (Z.gtb_spec size 0) as [Hsz|Hsz].
      * rewrite IH by lia.
        replace (Z.to_nat size) with (S (Z.to_nat (size - 1))) by lia.
        done.
      * by replace (Z.to_nat size) with O by lia.
Qed.

Section Checksums.

Variable content : list Byte.byte.
Variable sha256_hex : list Byte.byte -> string.
Variable io_fault : Z -> Z -> option string.

(** [calculateChunkChecksum] hashes the bytes of the file from [offset]
    up to [offset + size], cut at the end of the file: a chunk that lies
    beyond the end is hashed as the empty input, without an error, and an
    error of the file is returned as it is. *)
Theorem calculateChunkChecksum_window (offset size : Z) :
  0 <= offset ->
  (forall e,
      io_fault offset size = Some e ->
      calculateChunkChecksum content sha256_hex io_fault offset size = Err e) /\
  (io_fault offset size = None ->
   exists window,
     calculateChunkChecksum content sha256_hex io_fault offset size
     = Ok (sha256_hex window) /\
     window = take (Z.to_nat size) (drop (Z.to_nat offset) content) /\
     Z.of_nat (length window)
     = Z.max 0 (Z.min size (Z.of_nat (length content) - offset)) /\
     (Z.of_nat (length content) <= offset -> window = [])).
Proof.
  intros Hoff. unfold calculateChunkChecksum. split.
  - by intros e ->.
  - intros ->. eexists. split; [done|].
    rewrite readAt_take_drop by done.
    split_and!; [done| |].
    + rewrite length_take, length_drop. lia.
    + intros Hpast. rewrite drop_ge by lia. by rewrite take_nil.
Qed.

End Checksums.

Lemma calculateChunkChecksum_window_witness :
  calculateChunkChecksum [Byte.x61; Byte.x62; Byte.x63]
    (fun w => String.string_of_list_byte w) (fun _ _ => None) 1 5
  = Ok "bc".
Proof.
  destruct (calculateChunkChecksum_window [Byte.x61; Byte.x62; Byte.x63]
              (fun w => String.string_of_list_byte w) (fun _ _ => None) 1 5)
    as [_ Hok]; [lia|].
  destruct (Hok eq_refl) as (window & -> & -> & _). reflexivity.
Defined.

Section Coverage.

Variable content : list Byte.byte.
Variable sha256_hex : list Byte.byte -> string.
Variable io_fault : Z -> Z -> option string.
Variable fileID fileName filePath : string.

Local Abbreviation prepareC :=
  (prepareChunks content sha256_hex io_fault).
Local Abbreviation buildC :=
  (buildManifest content sha256_hex io_fault fileID fileName filePath).

(** The bytes of the file that a chunk of the manifest stands for. *)
Definition chunkBytes (c : ChunkInfo) : list Byte.byte :=
  take (Z.to_nat (Size c)) (drop (Z.to_nat (Offset c)) content).

Lemma prepareChunks_checksums (fileSize chunkSize : Z) (todo : nat) :
  forall (i : Z) (chunks out : list ChunkInfo) (j : nat) (c : ChunkInfo),
    0 <= i ->
    prepareC fileSize chunkSize todo i chunks = Ok out ->
    i <= Z.of_nat j < i + Z.of_nat todo ->
    (j < length chunks)%nat ->
    out !! j = Some c ->
    Checksum c = sha256_hex (readAt content (Offset c) (Size c)).
Proof.
  induction todo as [|todo IH]; intros i chunks out j c Hi Hrun Hj Hlen Hc;
    [lia|].
  simpl in Hrun. unfold calculateChunkChecksum in Hrun.
  destruct (io_fault _ _); [discriminate|].
  destruct (decide (i = Z.of_nat j)) as [->|Hne].
  - pose proof (fun Hlow Hout =>
                  prepareChunks_outside content sha256_hex io_fault
                    fileSize chunkSize todo (Z.of_nat j + 1) _ out j
                    Hlow Hrun Hout) as Hkept.
    rewrite Hkept in Hc by lia.
    rewrite Nat2Z.id, list_lookup_insert_eq in Hc by done.
    by inversion Hc.
  - eapply (IH (i + 1) _ out j c); [lia|exact Hrun|lia| |exact Hc].
    by rewrite length_insert.
Qed.

Lemma chunkBytes_take (fileSize chunkSize : Z) (cs : list ChunkInfo) (k : nat) :
  0 < chunkSize ->
  fileSize = Z.of_nat (length content) ->
  Z.of_nat (length cs) = ceilDiv fileSize chunkSize ->
  (forall (j : nat) c, cs !! j = Some c ->
     Offset c = Z.of_nat j * chunkSize /\
     Size c = Z.min chunkSize (fileSize - Z.of_nat j * chunkSize)) ->
  (k <= length cs)%nat ->
  concat (chunkBytes <$> take k cs)
  = take (Z.to_nat (Z.min (Z.of_nat k * chunkSize) fileSize)) content.
Proof.
  intros Hc Hfs Hlen Hlay.
  pose proof (ceilDiv_bounds fileSize chunkSize Hc) as Hb.
  induction k as [|k IH]; intros Hk.
  - simpl. by rewrite Z.min_l by lia.
  - destruct (lookup_lt_is_Some_2 cs k ltac:(lia)) as [c Hck].
    rewrite (take_S_r _ _ _ Hck), fmap_snoc, concat_app, IH by lia.
    simpl. rewrite app_nil_r. unfold chunkBytes.
    destruct (Hlay _ _ Hck) as [-> ->].
    assert (Z.of_nat k * chunkSize < fileSize) by nia.
    rewrite Z.min_l by lia.
    rewrite take_take_drop. f_equal. lia.
Qed.

(** The chunks of the manifest cut the file into consecutive pieces: the
    checksum of every chunk is the digest of the bytes of the file from
    its offset on, as many as its size, and these pieces, put one after
    the other in the order of the manifest, are the file. *)
Theorem manifest_covers_file (fileSize chunkSize : Z) (m : FileTransferInfo) :
  0 < chunkSize ->
  fileSize = Z.of_nat (length content) ->
  fileSize + chunkSize - 1 <= MaxInt64 ->
  buildC fileSize chunkSize = Ok m ->
  Forall (fun c => Checksum c = sha256_hex (chunkBytes c)) (Chunks m) /\
  concat (chunkBytes <$> Chunks m) = content.
Proof.
  intros Hc Hfs Hmax Hrun.
  pose proof (manifest_layout content sha256_hex io_fault fileID fileName
                filePath fileSize chunkSize m ltac:(lia) Hc Hmax Hrun)
    as (Htot & Hlen & Hlay & _).
  apply buildManifest_Ok in Hrun as (Hn0 & Htot' & _ & _ & Hloop).
  pose proof (ceilDiv_bounds fileSize chunkSize Hc) as Hb.
  split.
  - apply Forall_lookup. intros j c Hjc.
    assert (j < length (Chunks m))%nat as Hj by (by eapply lookup_lt_Some).
    destruct (Hlay j c Hjc) as (_ & Hoff & _ & Hpos & _).
    unfold chunkBytes. rewrite <- readAt_take_drop by nia.
    eapply prepareChunks_checksums; [|exact Hloop| | |exact Hjc]; [lia|lia|].
    rewrite length_replicate. lia.
  - rewrite <- (firstn_all (Chunks m)).
    rewrite (chunkBytes_take fileSize chunkSize); [|done|done|lia| |lia].
    + apply take_ge. nia.
    + intros j c Hjc. by destruct (Hlay j c Hjc) as (_ & ? & ? & _).
Qed.

End Coverage.

Lemma manifest_covers_file_witness :
  exists m,
    buildManifest [Byte.x61; Byte.x62; Byte.x63; Byte.x64; Byte.x65]
      String.string_of_list_byte (fun _ _ => None) "id" "f" "/f" 5 2 = Ok m /\
    Checksum <$> Chunks m = ["ab"; "cd"; "e"] /\
    concat (chunkBytes [Byte.x61; Byte.x62; Byte.x63; Byte.x64; Byte.x65]
            <$> Chunks m)
    = [Byte.x61; Byte.x62; Byte.x63; Byte.x64; Byte.x65].
Proof.
  eexists. split; [vm_compute; reflexivity|]. split; [reflexivity|].
  apply (manifest_covers_file
           [Byte.x61; Byte.x62; Byte.x63; Byte.x64; Byte.x65]
           String.string_of_list_byte (fun _ _ => None) "id" "f" "/f" 5 2);
    [lia|reflexivity|unfold MaxInt64; lia|vm_compute; reflexivity].
Defined.

(** A call of [SendFileChunked] to one of its two senders. *)
Inductive call : Type :=
| SendFileMetadataCall (info : FileTransferInfo) (peerID : string)
| SendFileChunksCall (info : FileTransferInfo) (peerID : string).

Section Failure.

Variable content : list Byte.byte.
Variable sha256_hex : list Byte.byte -> string.
Variable io_fault : Z -> Z -> option string.
Variable fileID fileName filePath : string.


(** The calls that [SendFileChunked] makes to its senders, in order:
    [sendFileMetadata] once the loop over the chunks is through, then
    [sendFileChunks] when the metadata went out. *)
Definition senderCalls (fileSize chunkSize : Z) (peerID : string)
  : list call :=
  match buildManifest content sha256_hex io_fault fileID fileName filePath
          fileSize chunkSize with
  | Ok info =>
      SendFileMetadataCall info peerID ::
      match sendFileMetadata info peerID with
      | Some _ => []
      | None => [SendFileChunksCall (withStatus info "transferring") peerID]
      end
  | Err _ => []
  | Panic _ => []
  end.

(** When the manifest is built both senders are called, with it. *)
Lemma senderCalls_built (fileSize chunkSize : Z) (peerID : string)
    (m : FileTransferInfo) :
  buildManifest content sha256_hex io_fault fileID fileName filePath
    fileSize chunkSize = Ok m ->
  senderCalls fileSize chunkSize peerID
  = [SendFileMetadataCall m peerID;
     SendFileChunksCall (withStatus m "transferring") peerID].
Proof. intros Hbuild. unfold senderCalls. by rewrite Hbuild. Qed.


End Failure.


End TransferChunks.

(* ===================================================================== *)
(** * Framed messages: what the reader delivers and when it stops        *)
(* ===================================================================== *)

Module FramingReader.

Import Byte Framing.

Section ReaderProperties.

Variable intBits : Z.

(** One iteration, read off the stream: either four bytes of prefix were
    there and the declared length was not positive, or the prefix and a
    message of the declared length were there. *)
Lemma handlePeer_body_Continue (processMessage : list byte -> option string)
    (stream rest : list byte) (processed : option (list byte)) :
  handlePeer_body intBits processMessage stream = Continue processed rest ->
  exists hdr,
    length hdr = 4%nat /\
    match processed with
    | None =>
        stream = hdr ++ rest /\ to_int intBits (Uint32 hdr) <= 0
    | Some message =>
        stream = hdr ++ message ++ rest /\
        to_int intBits (Uint32 hdr) = Z.of_nat (length message) /\
        1 <= Z.of_nat (length message) <= maxMessageSize
    end.
Proof.
  unfold handlePeer_body.
  destruct (ReadFull 4 stream) as [[hdr stream1]|e] eqn:Hhdr; [|discriminate].
  apply ReadFull_inl in Hhdr as (Hlen & -> & ->).
  set (hdr := take (Z.to_nat 4) stream).
  set (declared := to_int intBits (Uint32 hdr)).
  assert (length hdr = 4%nat) as Hhdr.
  { unfold hdr. rewrite length_take. lia. }
  assert (stream = hdr ++ drop (Z.to_nat 4) stream) as Hsplit
    by (unfold hdr; by rewrite take_drop).
  destruct (Z.leb_spec declared 0) as [Hle|Hpos]; simpl.
  - destruct (Z.gtb_spec declared maxMessageSize); [discriminate|].
    intros [= <- <-]. by exists hdr.
  - destruct (Z.gtb_spec declared maxMessageSize) as [Hbig|Hok];
      [discriminate|].
    destruct (ReadFull declared _) as [[message stream2]|e] eqn:Hmsg;
      [|discriminate].
    apply ReadFull_inl in Hmsg as (Hlen2 & -> & ->).
    set (message := take (Z.to_nat declared) (drop (Z.to_nat 4) stream)).
    assert (Z.of_nat (length message) = declared) as Hmlen.
    { unfold message. rewrite length_take. lia. }
    intros Hres.
    assert (processed = Some message /\
            rest = drop (Z.to_nat declared) (drop (Z.to_nat 4) stream))
      as [-> ->].
    { destruct (processMessage message) as [err|]; by inversion Hres. }
    exists hdr. split; [done|]. split_and!; [|lia|lia|lia].
    rewrite Hsplit at 1. f_equal. unfold message. by rewrite take_drop.
Qed.

(** An error of [processMessage] changes nothing in an iteration. *)
Lemma handlePeer_body_any_processing
    (process1 process2 : list byte -> option string) (stream : list byte) :
  handlePeer_body intBits process1 stream
  = handlePeer_body intBits process2 stream.
Proof.
  unfold handlePeer_body.
  destruct (ReadFull 4 stream) as [[hdr stream1]|e]; [|done].
  destruct (_ || _); [done|].
  destruct (ReadFull _ stream1) as [[message stream2]|e]; [|done].
  destruct (process1 message) as [err1|], (process2 message) as [err2|];
    by unfold isFatalError.
Qed.

Lemma handlePeer_loop_any_processing
    (process1 process2 : list byte -> option string) (fuel : nat) :
  forall stream,
    handlePeer_loop intBits process1 fuel stream
    = handlePeer_loop intBits process2 fuel stream.
Proof.
  induction fuel as [|fuel IH]; intros stream; simpl; [done|].
  rewrite (handlePeer_body_any_processing process1 process2).
  destruct (handlePeer_body intBits process2 stream); [done|].
  by rewrite IH.
Qed.

End ReaderProperties.

(** No error that [processMessage] returns ends the connection: the
    messages delivered and the reason why the loop is left are the same
    whatever [processMessage] returns, and the reason is never a fatal
    processing error. *)
Theorem handlePeer_survives_processing_errors
    (intBits : Z) (process1 process2 : list byte -> option string)
    (stream : list byte) :
  handlePeer intBits process1 stream = handlePeer intBits process2 stream /\
  forall err, (handlePeer intBits process1 stream).2 <> Some (FatalError err).
Proof.
  split; [apply handlePeer_loop_any_processing|].
  intros err. unfold handlePeer.
  generalize (S (length stream)). intros fuel. revert stream.
  induction fuel as [|fuel IH]; intros stream; simpl; [done|].
  destruct (handlePeer_body intBits process1 stream)
    as [why|processed rest] eqn:Hbody.
  - simpl. intros [= ->]. revert Hbody. unfold handlePeer_body.
    destruct (ReadFull 4 stream) as [[hdr stream1]|e]; [|discriminate].
    destruct (_ || _); [by destruct (_ >? _)|].
    destruct (ReadFull _ stream1) as [[message stream2]|e]; [|discriminate].
    by destruct (process1 message).
  - specialize (IH rest).
    by destruct (handlePeer_loop intBits process1 fuel rest).
Qed.

(** On a connection that delivers finitely many bytes the reader comes
    to an end; every message it hands to [processMessage] has between 1
    and [maxMessageSize] bytes; and the messages, each with the four
    bytes of its prefix, take no more bytes than the stream has. *)
Theorem handlePeer_delivers_within_stream
    (intBits : Z) (processMessage : list byte -> option string)
    (stream : list byte) :
  let delivered := (handlePeer intBits processMessage stream).1 in
  (exists why, (handlePeer intBits processMessage stream).2 = Some why) /\
  Forall (fun message => 1 <= Z.of_nat (length message) <= maxMessageSize)
    delivered /\
  (length (concat delivered) + 4 * length delivered <= length stream)%nat.
Proof.
  simpl. split; [apply handlePeer_breaks|].
  induction stream as [stream IH] using (induction_ltof1 _ (@length byte)).
  unfold ltof in IH. rewrite handlePeer_unfold.
  destruct (handlePeer_body intBits processMessage stream)
    as [why|processed rest] eqn:Hbody; simpl.
  - split; [constructor|lia].
  - pose proof (handlePeer_body_consumes _ _ _ _ _ Hbody) as Hshort.
    destruct (IH rest ltac:(lia)) as [Hall Hsum].
    apply handlePeer_body_Continue in Hbody as (hdr & Hhdr & Hshape).
    destruct processed as [message|].
    + destruct Hshape as (-> & _ & Hlen). split; [by constructor|].
      simpl. rewrite !length_app. lia.
    + destruct Hshape as (-> & _). split; [done|].
      rewrite length_app. lia.
Qed.

(** An iteration on a stream that starts with four bytes of prefix. *)
Lemma handlePeer_body_header
    (intBits : Z) (processMessage : list byte -> option string)
    (hdr rest : list byte) :
  length hdr = 4%nat ->
  let declared := to_int intBits (Uint32 hdr) in
  (maxMessageSize < declared ->
   handlePeer_body intBits processMessage (hdr ++ rest)
   = Break (InvalidLength declared)) /\
  (declared <= 0 ->
   handlePeer_body intBits processMessage (hdr ++ rest) = Continue None rest) /\
  (0 < declared <= maxMessageSize ->
   handlePeer_body intBits processMessage (hdr ++ rest)
   = match ReadFull declared rest with
     | inl (message, stream2) => Continue (Some message) stream2
     | inr e => Break (MessageReadError e)
     end).
Proof.
  intros Hhdr declared. unfold handlePeer_body.
  change 4 with (Z.of_nat 4). rewrite <- Hhdr, ReadFull_app. fold declared.
  split_and!; intros Hdecl.
  - destruct (Z.gtb_spec declared maxMessageSize); [|lia].
    by rewrite orb_true_r.
  - destruct (Z.gtb_spec declared maxMessageSize);
      [unfold maxMessageSize in *; lia|].
    by destruct (Z.leb_spec declared 0); [|lia].
  - destruct (Z.gtb_spec declared maxMessageSize); [lia|].
    destruct (Z.leb_spec declared 0); [lia|]. simpl.
    destruct (ReadFull declared rest) as [[message stream2]|e]; [|done].
    by destruct (processMessage message).
Qed.

(** A connection that ends in the middle of a frame: the messages that
    arrived whole are delivered, and the loop is left on a read error,
    in the prefix of the frame that was cut, or in its message. *)
Theorem handlePeer_truncated_frame
    (intBits : Z) (processMessage : list byte -> option string)
    (sent : list (list byte)) (data : list byte) (k : nat) :
  intBits = 32 \/ intBits = 64 ->
  Forall (fun d => 1 <= Z.of_nat (length d) <= maxMessageSize) sent ->
  1 <= Z.of_nat (length data) <= maxMessageSize ->
  (0 < k < 4 + length data)%nat ->
  let stream := concat (packMessage <$> sent) ++ take k (packMessage data) in
  ((k < 4)%nat ->
   handlePeer intBits processMessage stream
   = (sent, Some (ReadError "unexpected EOF"))) /\
  (k = 4%nat ->
   handlePeer intBits processMessage stream
   = (sent, Some (MessageReadError "EOF"))) /\
  ((4 < k)%nat ->
   handlePeer intBits processMessage stream
   = (sent, Some (MessageReadError "unexpected EOF"))).
Proof.
  intros Hbits Hsent Hdata Hk stream. unfold stream.
  rewrite handlePeer_packed_prefix by done.
  rewrite (handlePeer_unfold _ _ (take k (packMessage data))).
  destruct (packMessage_header data) as (hdr & Hhdr & Hval & ->).
  { unfold maxMessageSize in Hdata. lia. }
  assert (to_int intBits (Uint32 hdr) = Z.of_nat (length data)) as Hdecl.
  { rewrite Hval. apply to_int_small; [done|].
    unfold maxMessageSize in Hdata. lia. }
  split_and!; intros Hcase.
  - assert (handlePeer_body intBits processMessage (take k (hdr ++ data))
            = Break (ReadError "unexpected EOF")) as ->;
      [|by rewrite app_nil_r].
    unfold handlePeer_body, ReadFull. rewrite take_app_le by lia.
    destruct (Z.leb_spec 4 (Z.of_nat (length (take k hdr)))) as [Hlen|_].
    { rewrite length_take in Hlen. lia. }
    destruct (take k hdr) eqn:Hcut; [|done].
    apply (f_equal length) in Hcut. rewrite length_take in Hcut.
    simpl in Hcut. lia.
  - assert (handlePeer_body intBits processMessage (take k (hdr ++ data))
            = Break (MessageReadError "EOF")) as ->;
      [|by rewrite app_nil_r].
    subst k. rewrite take_app_length' by done.
    rewrite <- (app_nil_r hdr) at 1.
    destruct (handlePeer_body_header intBits processMessage hdr [] Hhdr)
      as (_ & _ & ->); [|rewrite Hdecl; lia].
    unfold ReadFull. rewrite Hdecl.
    by destruct (Z.leb_spec (Z.of_nat (length data))
                   (Z.of_nat (@length byte []))); [simpl in *; lia|].
  - assert (handlePeer_body intBits processMessage (take k (hdr ++ data))
            = Break (MessageReadError "unexpected EOF")) as ->;
      [|by rewrite app_nil_r].
    rewrite take_app_ge by lia. rewrite Hhdr.
    destruct (handlePeer_body_header intBits processMessage hdr
                (take (k - 4) data) Hhdr) as (_ & _ & ->); [|rewrite Hdecl; lia].
    unfold ReadFull. rewrite Hdecl.
    destruct (Z.leb_spec (Z.of_nat (length data))
                (Z.of_nat (length (take (k - 4) data)))) as [Hlen|_].
    { rewrite length_take in Hlen. lia. }
    destruct (take (k - 4) data) eqn:Hcut; [|done].
    apply (f_equal length) in Hcut. rewrite length_take in Hcut.
    simpl in Hcut. lia.
Qed.

Lemma handlePeer_truncated_frame_witness :
  handlePeer 64 (fun _ => None)
    ([x00; x00; x00; x02; x68; x69] ++ [x00; x00; x00; x03; x61])
  = ([[x68; x69]], Some (MessageReadError "unexpected EOF")).
Proof.
  apply (handlePeer_truncated_frame 64 (fun _ => None) [[x68; x69]]
           [x61; x62; x63] 5).
  - by right.
  - repeat constructor; unfold maxMessageSize; simpl; lia.
  - unfold maxMessageSize. simpl. lia.
  - simpl. lia.
  - lia.
Defined.

(** [packMessage] checks nothing: an empty message becomes a frame that
    the reader passes over without handing anything to [processMessage],
    and a message of more than [maxMessageSize] bytes becomes a frame on
    which the reader closes the connection. *)
Theorem packMessage_unguarded
    (intBits : Z) (processMessage : list byte -> option string)
    (data rest : list byte) :
  intBits = 32 \/ intBits = 64 ->
  (data = [] ->
   packMessage data = [x00; x00; x00; x00] /\
   handlePeer_body intBits processMessage (packMessage data ++ rest)
   = Continue None rest) /\
  (maxMessageSize < Z.of_nat (length data) < 2 ^ 31 ->
   handlePeer_body intBits processMessage (packMessage data ++ rest)
   = Break (InvalidLength (Z.of_nat (length data)))).
Proof.
  intros Hbits. split.
  - intros ->. split; [reflexivity|].
    change (packMessage [] ++ rest) with ([x00; x00; x00; x00] ++ rest).
    destruct (handlePeer_body_header intBits processMessage
                [x00; x00; x00; x00] rest eq_refl) as (_ & -> & _); [done|].
    destruct Hbits as [-> | ->]; by vm_compute.
  - intros Hlen.
    destruct (packMessage_header data) as (hdr & Hhdr & Hval & ->); [lia|].
    rewrite <- (assoc_L (++)).
    destruct (handlePeer_body_header intBits processMessage hdr
                (data ++ rest) Hhdr) as (Hbig & _).
    rewrite Hval, to_int_small in Hbig by (done || lia).
    apply Hbig. lia.
Qed.

Lemma packMessage_unguarded_witness :
  packMessage [] = [x00; x00; x00; x00] /\
  handlePeer_body 64 (fun _ => None) (packMessage [] ++ [x00; x00; x00; x01; x21])
  = Continue None [x00; x00; x00; x01; x21].
Proof.
  apply (packMessage_unguarded 64 (fun _ => None) []
           [x00; x00; x00; x01; x21]); [by right|reflexivity].
Defined.

End FramingReader.

From Stdlib Require Import DecimalString.

(* ===================================================================== *)
(** * The TCP manager: table of peers, replies, shutdown                 *)
(* ===================================================================== *)

Module TcpManager.

Import Byte Framing.

(** [%d] of an integer. *)
Definition showInt (z : Z) : string := NilZero.string_of_int (Z.to_int z).

(** A connection or a listener is a handle; [Conn] is the handle of the
    connection of a peer. *)
Record TCPPeer : Type := mkTCPPeer {
  ID : string;
  Name : string;
  Address : string;
  Conn : nat;
  LastSeen : Z
}.

Record TCPManager : Type := mkTCPManager {
  isRunning : bool;
  listener : option nat;
  connectedPeers : gmap string TCPPeer;
  discoveryAddr : string;
  listenPort : Z
}.

(** The sockets of the process: the bytes written so far on each
    connection, and the handles that were closed. *)
Record network : Type := mkNetwork {
  written : gmap nat (list byte);
  closed : gset nat
}.

(** [GetTCPManager], the first time it is called. *)
Definition GetTCPManager : TCPManager :=
  mkTCPManager false None ∅ "255.255.255.255:9876" 9002.

Definition closeHandle (h : nat) (n : network) : network :=
  mkNetwork (written n) ({[h]} ∪ closed n).

Definition doubleQuote : string :=
  String (Ascii false true false false false true false false) EmptyString.

Definition quoted (s : string) : string := doubleQuote +:+ s +:+ doubleQuote.

(** The document of [sendPong], for the time as [fmt.Sprint] prints it. *)
Definition pongDocument (now : string) : list byte :=
  list_byte_of_string
    ("{" +:+ quoted "type" +:+ ":" +:+ quoted "PONG" +:+ ","
     +:+ quoted "time" +:+ ":" +:+ now +:+ "}").

Section Manager.

(** The platform: [net.Listen] on a port and [net.Dial] to an address and
    a port give a handle or an error; a write on an open connection may
    fail; [json.Unmarshal] into the header of a message gives the type of
    the document, or fails; [intBits] is the width of [int]. *)
Variable netListen : Z -> nat + string.
Variable netDial : string -> Z -> nat + string.
Variable writeFault : nat -> list byte -> option string.
Variable unmarshalType : list byte -> option string.
Variable intBits : Z.

(** [Conn.Write]. *)
Definition connWrite (conn : nat) (data : list byte) (n : network)
  : network * option string :=
  if decide (conn ∈ closed n)
  then (n, Some "use of closed network connection")
  else
    match writeFault conn data with
    | Some e => (n, Some e)
    | None =>
        (mkNetwork
           (<[conn := default [] (written n !! conn) ++ data]> (written n))
           (closed n), None)
    end.

(** [Start].  The goroutines it launches are not part of the model. *)
Definition Start (tm : TCPManager) (port : Z) : TCPManager * option string :=
  if isRunning tm then (tm, Some "TCP service is already running")
  else
    let listenPort' := if port >? 0 then port else listenPort tm in
    match netListen listenPort' with
    | inr err =>
        (mkTCPManager (isRunning tm) (listener tm) (connectedPeers tm)
           (discoveryAddr tm) listenPort',
         Some ("failed to listen on port " +:+ showInt listenPort' +:+ ": "
               +:+ err))
    | inl l =>
        (mkTCPManager true (Some l) (connectedPeers tm) (discoveryAddr tm)
           listenPort', None)
    end.

(** [Stop]: it always returns [nil]; the table of peers is left as it
    is. *)
Definition Stop (tm : TCPManager) (n : network) : TCPManager * network :=
  if negb (isRunning tm) then (tm, n)
  else
    let n1 := match listener tm with
              | Some l => closeHandle l n
              | None => n
              end in
    (mkTCPManager false (listener tm) (connectedPeers tm) (discoveryAddr tm)
       (listenPort tm),
     map_fold (fun _ peer acc => closeHandle (Conn peer) acc) n1
       (connectedPeers tm)).

(** [SendData]. *)
Definition SendData (tm : TCPManager) (peerID : string) (data : list byte)
    (n : network) : network * option string :=
  match connectedPeers tm !! peerID with
  | None => (n, Some ("peer not connected: " +:+ peerID))
  | Some peer => connWrite (Conn peer) data n
  end.

(** [Connect], up to the launch of [handlePeer] for the new peer. *)
Definition Connect (tm : TCPManager) (peerAddress : string) (port now : Z)
  : TCPManager * option string :=
  match netDial peerAddress port with
  | inr err => (tm, Some ("failed to connect to peer: " +:+ err))
  | inl conn =>
      let peer :=
        mkTCPPeer ("tcp-" +:+ peerAddress +:+ "-" +:+ showInt port)
          ("Peer-" +:+ peerAddress) peerAddress conn now in
      (mkTCPManager (isRunning tm) (listener tm)
         (<[ID peer := peer]> (connectedPeers tm)) (discoveryAddr tm)
         (listenPort tm), None)
  end.

(** [sendPong], [routeMessage], [processBinaryMessage]. *)
Definition sendPong (conn : nat) (now : string) (n : network)
  : network * option string :=
  connWrite conn (packMessage (pongDocument now)) n.

Definition routeMessage (msgType : string) (data : list byte)
  : option string := None.

Definition processBinaryMessage (data : list byte) : option string := None.

(** [processMessage] for a peer whose connection is [conn]; [now] is the
    time as [sendPong] would print it. *)
Definition processMessage (conn : nat) (now : string) (message : list byte)
    (n : network) : network * option string :=
  match message with
  | first :: _ =>
      if Byte.eqb first x7b then
        match unmarshalType message with
        | Some msgType =>
            if String.eqb msgType "PING" then sendPong conn now n
            else if String.eqb msgType "DATA_TRANSFER"
                    || String.eqb msgType "MESH_ROUTE"
                 then (n, routeMessage msgType message)
                 else (n, None)
        | None => (n, processBinaryMessage message)
        end
      else (n, processBinaryMessage message)
  | [] => (n, processBinaryMessage message)
  end.

(** The messages of a connection processed one after the other; [times]
    gives the time printed at each call. *)
Fixpoint processAll (conn : nat) (times : nat -> string) (i : nat)
    (messages : list (list byte)) (n : network) : network :=
  match messages with
  | [] => n
  | message :: rest =>
      processAll conn times (S i) rest
        (processMessage conn (times i) message n).1
  end.

(** [handlePeer] for a peer whose connection delivers [stream] and then
    ends: the frames are read as by [Framing.handlePeer], whose result
    does not depend on the errors of [processMessage]; each message is
    processed; at the end the peer is taken out of the table and its
    connection is closed. *)
Definition handlePeer (tm : TCPManager) (peer : TCPPeer) (stream : list byte)
    (times : nat -> string) (n : network) : TCPManager * network :=
  let delivered := (Framing.handlePeer intBits (fun _ => None) stream).1 in
  (mkTCPManager (isRunning tm) (listener tm)
     (delete (ID peer) (connectedPeers tm)) (discoveryAddr tm)
     (listenPort tm),
   closeHandle (Conn peer) (processAll (Conn peer) times 0 delivered n)).

(** The messages that are answered: JSON documents of type [PING]. *)
Definition isPing (message : list byte) : bool :=
  match message with
  | first :: _ =>
      Byte.eqb first x7b
      && match unmarshalType message with
         | Some msgType => String.eqb msgType "PING"
         | None => false
         end
  | [] => false
  end.

End Manager.

(** Closing the connections of the table closes them all and writes
    nothing. *)
Lemma Stop_closes (tm : TCPManager) (n : network) :
  isRunning tm = true ->
  written (Stop tm n).2 = written n /\
  (forall h, h ∈ closed n -> h ∈ closed (Stop tm n).2) /\
  (forall id peer, connectedPeers tm !! id = Some peer ->
                   Conn peer ∈ closed (Stop tm n).2).
Proof.
  intros Hrun. unfold Stop. rewrite Hrun. simpl.
  set (n1 := match listener tm with
             | Some l => closeHandle l n
             | None => n
             end).
  assert (written n1 = written n /\
          forall h, h ∈ closed n -> h ∈ closed n1) as [Hw1 Hc1].
  { unfold n1. destruct (listener tm); simpl; [|done].
    split; [done|]. intros h Hh. apply elem_of_union. by right. }
  pose proof (map_fold_weak_ind
    (fun (r : network) (m : gmap string TCPPeer) =>
       written r = written n1 /\
       (forall h, h ∈ closed n1 -> h ∈ closed r) /\
       (forall id peer, m !! id = Some peer -> Conn peer ∈ closed r))
    (fun _ peer acc => closeHandle (Conn peer) acc) n1) as Hind.
  destruct (Hind) with (m := connectedPeers tm) as (Hw & Hc & Hp).
  - split_and!; [done|done|]. intros id peer Hlook.
    by rewrite lookup_empty in Hlook.
  - intros i x m r Hnone (Hw & Hc & Hp). simpl. split_and!; [done| |].
    + intros h Hh. apply elem_of_union. right. by apply Hc.
    + intros id peer Hlook. apply elem_of_union.
      destruct (decide (i = id)) as [->|Hne].
      * rewrite lookup_insert_eq in Hlook. inversion Hlook; subst.
        left. by apply elem_of_singleton.
      * rewrite lookup_insert_ne in Hlook by done. right. by eapply Hp.
  - split_and!; [by rewrite Hw|by auto|done].
Qed.

Section ManagerFacts.

Variable netListen : Z -> nat + string.
Variable netDial : string -> Z -> nat + string.
Variable writeFault : nat -> list byte -> option string.
Variable unmarshalType : list byte -> option string.
Variable intBits : Z.

Local Abbreviation start := (Start netListen).
Local Abbreviation send := (SendData writeFault).
Local Abbreviation write := (connWrite writeFault).

(** [Start] and [Stop] as a switch.  After [Start] has returned [nil], a
    second [Start] fails with the error of a service that is already
    running and changes nothing; after [Stop] the service is not
    running, the table of peers is what it was, and [Start] goes through
    [net.Listen] again. *)
Theorem Start_twice_fails (tm tm1 : TCPManager) (port port2 : Z) :
  start tm port = (tm1, None) ->
  isRunning tm = false /\
  isRunning tm1 = true /\
  listenPort tm1 = (if port >? 0 then port else listenPort tm) /\
  start tm1 port2 = (tm1, Some "TCP service is already running") /\
  forall n,
    isRunning (Stop tm1 n).1 = false /\
    connectedPeers (Stop tm1 n).1 = connectedPeers tm /\
    ((start (Stop tm1 n).1 port2).2 = None <->
     exists l, netListen (if port2 >? 0 then port2 else listenPort tm1)
               = inl l).
Proof.
  unfold Start. destruct (isRunning tm) eqn:Hrun; [discriminate|].
  destruct (netListen _) as [l|err] eqn:Hlisten; [|discriminate].
  intros [= <-]. simpl. split_and!; [done|done|done|done|].
  intros n. unfold Stop. simpl. split_and!; [done|done|].
  destruct (netListen (if port2 >? 0 then port2 else _)) as [l2|err2];
    simpl; split; try done; [by eexists|by intros [? ?]].
Qed.

Lemma connWrite_written (conn : nat) (data : list byte) (n : network) :
  conn ∉ closed n -> writeFault conn data = None ->
  write conn data n
  = (mkNetwork (<[conn := default [] (written n !! conn) ++ data]>
                  (written n)) (closed n), None).
Proof.
  intros Hopen Hfault. unfold connWrite.
  by rewrite decide_False, Hfault by done.
Qed.

(** [SendData] writes the data as they are, without a length prefix, on
    the connection of the peer; to an ID that is not in the table it
    writes nothing and fails.  After a successful [Connect] the peer is
    in the table under ["tcp-<address>-<port>"], and two messages packed
    with [packMessage] and sent to it one after the other are what a
    reader of that connection is handed, in this order. *)
Theorem Connect_then_SendData
    (tm : TCPManager) (peerAddress : string) (port now : Z)
    (n : network) (conn : nat) (m1 m2 : list byte) :
  intBits = 32 \/ intBits = 64 ->
  netDial peerAddress port = inl conn ->
  conn ∉ closed n -> written n !! conn = None ->
  (forall data, writeFault conn data = None) ->
  1 <= Z.of_nat (length m1) <= maxMessageSize ->
  1 <= Z.of_nat (length m2) <= maxMessageSize ->
  let peerID := "tcp-" +:+ peerAddress +:+ "-" +:+ showInt port in
  exists tm1 n1 n2,
    Connect netDial tm peerAddress port now = (tm1, None) /\
    send tm1 peerID (packMessage m1) n = (n1, None) /\
    send tm1 peerID (packMessage m2) n1 = (n2, None) /\
    written n2 !! conn = Some (packMessage m1 ++ packMessage m2) /\
    Framing.handlePeer intBits (fun _ => None)
      (packMessage m1 ++ packMessage m2)
    = ([m1; m2], Some (ReadError "EOF")) /\
    (forall id, connectedPeers tm1 !! id = None ->
                forall data, send tm1 id data n2
                             = (n2, Some ("peer not connected: " +:+ id))).
Proof.
  intros Hbits Hdial Hopen Hfresh Hfault Hm1 Hm2 peerID.
  set (peer := mkTCPPeer peerID ("Peer-" +:+ peerAddress) peerAddress conn now).
  set (tm1 := mkTCPManager (isRunning tm) (listener tm)
                (<[peerID := peer]> (connectedPeers tm)) (discoveryAddr tm)
                (listenPort tm)).
  set (n1 := mkNetwork (<[conn := packMessage m1]> (written n)) (closed n)).
  set (n2 := mkNetwork (<[conn := packMessage m1 ++ packMessage m2]>
                          (written n1)) (closed n)).
  exists tm1, n1, n2. split_and!.
  - unfold Connect. by rewrite Hdial.
  - unfold SendData, tm1. cbn [connectedPeers].
    rewrite lookup_insert_eq. cbn [Conn peer].
    rewrite connWrite_written by done. by rewrite Hfresh.
  - unfold SendData, tm1. cbn [connectedPeers].
    rewrite lookup_insert_eq. cbn [Conn peer].
    rewrite connWrite_written by done.
    unfold n1 at 1 2. cbn [written closed]. by rewrite lookup_insert_eq.
  - unfold n2. cbn [written]. by rewrite lookup_insert_eq.
  - rewrite <- (app_nil_r (packMessage m1 ++ packMessage m2)).
    replace (packMessage m1 ++ packMessage m2)
      with (concat (packMessage <$> [m1; m2]))
      by (cbn [fmap list_fmap concat]; by rewrite app_nil_r).
    rewrite handlePeer_packed_prefix; [by rewrite handlePeer_nil|done|].
    apply Forall_cons; split; [done|].
    apply Forall_cons; split; [done|]. constructor.
  - intros id Hid data. unfold SendData. by rewrite Hid.
Qed.

(** After [Stop] nothing can be sent: every [SendData] fails, for an ID
    that is not in the table as before, and for a peer of the table
    because its connection was closed; no byte is written. *)
Theorem SendData_after_Stop (tm : TCPManager) (n : network)
    (peerID : string) (data : list byte) :
  isRunning tm = true ->
  exists err,
    send (Stop tm n).1 peerID data (Stop tm n).2 = ((Stop tm n).2, Some err) /\
    written (Stop tm n).2 = written n.
Proof.
  intros Hrun.
  destruct (Stop_closes tm n Hrun) as (Hw & _ & Hpeers).
  assert (connectedPeers (Stop tm n).1 = connectedPeers tm) as Htable.
  { unfold Stop. by rewrite Hrun. }
  unfold SendData. rewrite Htable.
  destruct (connectedPeers tm !! peerID) as [peer|] eqn:Hlook.
  - unfold connWrite. rewrite decide_True by (by eapply Hpeers).
    by eexists.
  - by eexists.
Qed.

(** The answers that the messages of a connection get: one frame with
    the document of [sendPong] for every [PING], nothing for any other
    message. *)
Fixpoint replies (times : nat -> string) (i : nat)
    (messages : list (list byte)) : list byte :=
  match messages with
  | [] => []
  | message :: rest =>
      (if isPing unmarshalType message
       then packMessage (pongDocument (times i)) else [])
      ++ replies times (S i) rest
  end.

Lemma processMessage_effect (conn : nat) (now : string)
    (message : list byte) (n : network) :
  conn ∉ closed n -> (forall data, writeFault conn data = None) ->
  processMessage writeFault unmarshalType conn now message n
  = if isPing unmarshalType message
    then (mkNetwork
            (<[conn := default [] (written n !! conn)
                       ++ packMessage (pongDocument now)]> (written n))
            (closed n), None)
    else (n, None).
Proof.
  intros Hopen Hfault. unfold processMessage, isPing.
  destruct message as [|first rest]; [done|].
  destruct (Byte.eqb first x7b); [|done]. simpl.
  destruct (unmarshalType (first :: rest)) as [msgType|]; [|done].
  destruct (String.eqb msgType "PING").
  - unfold sendPong. by rewrite connWrite_written.
  - by destruct (_ || _).
Qed.

Lemma processAll_effect (conn : nat) (times : nat -> string)
    (messages : list (list byte)) :
  forall (i : nat) (n : network),
    conn ∉ closed n -> (forall data, writeFault conn data = None) ->
    let n' := processAll writeFault unmarshalType conn times i messages n in
    default [] (written n' !! conn)
    = default [] (written n !! conn) ++ replies times i messages /\
    (forall c, c <> conn -> written n' !! c = written n !! c) /\
    closed n' = closed n.
Proof.
  induction messages as [|message rest IH]; intros i n Hopen Hfault;
    cbn [processAll replies].
  - by rewrite app_nil_r.
  - rewrite processMessage_effect by done.
    destruct (isPing unmarshalType message); cbn [fst].
    + set (n1 := mkNetwork _ _).
      destruct (IH (S i) n1) as (Hconn & Hother & Hclosed); [done|done|].
      split_and!.
      * rewrite Hconn. unfold n1. cbn [written].
        rewrite lookup_insert_eq. cbn [default]. unfold id.
        by rewrite <- (assoc_L (++)).
      * intros c Hc. rewrite (Hother c Hc). unfold n1. cbn [written].
        by rewrite lookup_insert_ne.
      * by rewrite Hclosed.
    + by apply IH.
Qed.

(** What [handlePeer] does to a peer whose connection delivers [stream]
    and then ends: while the connection is open and writes go through,
    the bytes written to it are the answers to the [PING] messages
    among the messages read, in order, and nothing else; nothing is
    written to any other connection; at the end the connection is
    closed and the peer is out of the table, so that [SendData] to it
    fails. *)
Theorem handlePeer_replies_and_unregisters
    (tm : TCPManager) (peer : TCPPeer) (stream : list byte)
    (times : nat -> string) (n : network) :
  Conn peer ∉ closed n ->
  (forall data, writeFault (Conn peer) data = None) ->
  let delivered := (Framing.handlePeer intBits (fun _ => None) stream).1 in
  let tm' := (handlePeer writeFault unmarshalType intBits tm peer stream
                times n).1 in
  let n' := (handlePeer writeFault unmarshalType intBits tm peer stream
               times n).2 in
  default [] (written n' !! Conn peer)
  = default [] (written n !! Conn peer) ++ replies times 0 delivered /\
  (forall c, c <> Conn peer -> written n' !! c = written n !! c) /\
  closed n' = {[Conn peer]} ∪ closed n /\
  connectedPeers tm' = delete (ID peer) (connectedPeers tm) /\
  forall data,
    send tm' (ID peer) data n'
    = (n', Some ("peer not connected: " +:+ ID peer)).
Proof.
  intros Hopen Hfault. simpl.
  destruct (processAll_effect (Conn peer) times
              (Framing.handlePeer intBits (fun _ => None) stream).1 0 n
              Hopen Hfault) as (Hconn & Hother & Hclosed).
  split_and!; [done|done|by rewrite Hclosed|done|].
  intros data. unfold SendData. simpl. by rewrite lookup_delete_eq.
Qed.

(** The answer to a [PING] is a frame that the reader of the other side
    hands to its [processMessage] as the document that [sendPong] made. *)
Theorem sendPong_frame_readable
    (processMessage' : list byte -> option string)
    (conn : nat) (now : string) (message rest : list byte) (n : network) :
  intBits = 32 \/ intBits = 64 ->
  Z.of_nat (length (pongDocument now)) <= maxMessageSize ->
  conn ∉ closed n -> (forall data, writeFault conn data = None) ->
  isPing unmarshalType message = true ->
  exists n',
    processMessage writeFault unmarshalType conn now message n = (n', None) /\
    written n' !! conn
    = Some (default [] (written n !! conn) ++ packMessage (pongDocument now)) /\
    handlePeer_body intBits processMessage'
      (packMessage (pongDocument now) ++ rest)
    = Continue (Some (pongDocument now)) rest.
Proof.
  intros Hbits Hlen Hopen Hfault Hping.
  rewrite processMessage_effect, Hping by done.
  eexists. split; [done|]. split; [simpl; by rewrite lookup_insert_eq|].
  apply handlePeer_body_packed; [done|].
  split; [|done]. unfold pongDocument. simpl. lia.
Qed.

End ManagerFacts.

Lemma Start_twice_fails_witness :
  Start (fun _ => inl 7%nat) (mkTCPManager true (Some 7%nat) ∅
                                "255.255.255.255:9876" 9100) 9200
  = (mkTCPManager true (Some 7%nat) ∅ "255.255.255.255:9876" 9100,
     Some "TCP service is already running").
Proof.
  apply (Start_twice_fails (fun _ => inl 7%nat) GetTCPManager
           (mkTCPManager true (Some 7%nat) ∅ "255.255.255.255:9876" 9100)
           9100 9200).
  reflexivity.
Defined.

Lemma Connect_then_SendData_witness :
  exists tm1 n1 n2,
    Connect (fun _ _ => inl 3%nat) GetTCPManager "10.0.0.5" 9002 0
    = (tm1, None) /\
    SendData (fun _ _ => None) tm1 "tcp-10.0.0.5-9002"
      (packMessage [x68; x69]) (mkNetwork ∅ ∅) = (n1, None) /\
    SendData (fun _ _ => None) tm1 "tcp-10.0.0.5-9002"
      (packMessage [x21]) n1 = (n2, None) /\
    written n2 !! 3%nat
    = Some (packMessage [x68; x69] ++ packMessage [x21]).
Proof.
  destruct (Connect_then_SendData (fun _ _ => inl 3%nat) (fun _ _ => None)
              64 GetTCPManager "10.0.0.5" 9002 0
              (mkNetwork ∅ ∅) 3%nat [x68; x69] [x21])
    as (tm1 & n1 & n2 & Hc & Hs1 & Hs2 & Hw & _).
  - by right.
  - reflexivity.
  - apply not_elem_of_empty.
  - apply lookup_empty.
  - reflexivity.
  - unfold maxMessageSize. simpl. lia.
  - unfold maxMessageSize. simpl. lia.
  - by exists tm1, n1, n2.
Defined.

(** The ping document: an object whose one member is the type, [PING]. *)
Definition pingDocument : list byte :=
  list_byte_of_string
    ("{" +:+ quoted "type" +:+ ":" +:+ quoted "PING" +:+ "}").

(** [json.Unmarshal] into the header of a message, on the messages of
    the samples: the ping document has the type [PING]; the other
    messages of the samples do not begin with a brace and are not handed
    to the parser. *)
Definition sampleUnmarshal (message : list byte) : option string :=
  if String.eqb (string_of_list_byte message)
       (string_of_list_byte pingDocument)
  then Some "PING" else None.

Lemma SendData_after_Stop_witness :
  exists err,
    SendData (fun _ _ => None)
      (Stop (mkTCPManager true (Some 7%nat)
               {["p" := mkTCPPeer "p" "Peer" "10.0.0.5" 3%nat 0]}
               "255.255.255.255:9876" 9002) (mkNetwork ∅ ∅)).1
      "p" [x68; x69]
      (Stop (mkTCPManager true (Some 7%nat)
               {["p" := mkTCPPeer "p" "Peer" "10.0.0.5" 3%nat 0]}
               "255.255.255.255:9876" 9002) (mkNetwork ∅ ∅)).2
    = ((Stop (mkTCPManager true (Some 7%nat)
                {["p" := mkTCPPeer "p" "Peer" "10.0.0.5" 3%nat 0]}
                "255.255.255.255:9876" 9002) (mkNetwork ∅ ∅)).2, Some err) /\
    written (Stop (mkTCPManager true (Some 7%nat)
               {["p" := mkTCPPeer "p" "Peer" "10.0.0.5" 3%nat 0]}
               "255.255.255.255:9876" 9002) (mkNetwork ∅ ∅)).2 = ∅.
Proof.
  apply (SendData_after_Stop (fun _ _ => None)
           (mkTCPManager true (Some 7%nat)
              {["p" := mkTCPPeer "p" "Peer" "10.0.0.5" 3%nat 0]}
              "255.255.255.255:9876" 9002) (mkNetwork ∅ ∅) "p" [x68; x69]).
  reflexivity.
Defined.

Lemma handlePeer_replies_and_unregisters_witness :
  default []
    (written
       (handlePeer (fun _ _ => None) sampleUnmarshal 64 GetTCPManager
          (mkTCPPeer "p" "Peer" "10.0.0.5" 3%nat 0)
          (packMessage pingDocument ++ packMessage [x68; x69])
          (fun _ => "1700000000") (mkNetwork ∅ ∅)).2 !! 3%nat)
  = packMessage (pongDocument "1700000000").
Proof.
  destruct (handlePeer_replies_and_unregisters (fun _ _ => None)
              sampleUnmarshal 64 GetTCPManager
              (mkTCPPeer "p" "Peer" "10.0.0.5" 3%nat 0)
              (packMessage pingDocument ++ packMessage [x68; x69])
              (fun _ => "1700000000") (mkNetwork ∅ ∅))
    as (Hw & _); [apply not_elem_of_empty|reflexivity|].
  etrans; [exact Hw|]. vm_compute. reflexivity.
Defined.

Lemma sendPong_frame_readable_witness :
  exists n',
    processMessage (fun _ _ => None) sampleUnmarshal 3%nat "1700000000"
      pingDocument (mkNetwork ∅ ∅) = (n', None) /\
    handlePeer_body 64 (fun _ => None)
      (packMessage (pongDocument "1700000000") ++ [])
    = Continue (Some (pongDocument "1700000000")) [].
Proof.
  destruct (sendPong_frame_readable (fun _ _ => None) sampleUnmarshal 64
              (fun _ => None) 3%nat "1700000000" pingDocument []
              (mkNetwork ∅ ∅))
    as (n' & Hp & _ & Hr).
  - by right.
  - vm_compute. discriminate.
  - apply not_elem_of_empty.
  - reflexivity.
  - vm_compute. reflexivity.
  - by exists n'.
Defined.

End TcpManager.

(* ===================================================================== *)
(** * The guard on the frame size, on a connection of the manager        *)
(* ===================================================================== *)

Module FrameGuard.

Import Byte Framing.

(** C4.  [handlePeer] runs for a peer of the manager on a connection on
    which the messages [sent] have arrived as frames, followed by a
    frame with the prefix [hdr]; the declared length is the [int] read
    from the four bytes of the prefix.  When it exceeds [maxMessageSize]
    the loop is left at this frame and the connection is terminated:
    only the messages before the frame are processed, whatever follows
    it, the peer is taken out of the table and its connection is closed.
    When it is zero or negative the frame is passed over and the reader
    goes on with what follows the prefix: the run is the run on the
    stream without these four bytes.  Where [int] has 64 bits the
    declared length is the unsigned value of the prefix. *)
Theorem frame_size_guard
    (writeFault : nat -> list byte -> option string)
    (unmarshalType : list byte -> option string)
    (intBits : Z) (processMessage : list byte -> option string)
    (tm : TcpManager.TCPManager) (peer : TcpManager.TCPPeer)
    (times : nat -> string) (n : TcpManager.network)
    (sent : list (list byte)) (hdr rest : list byte) :
  intBits = 32 \/ intBits = 64 ->
  Forall (fun data => 1 <= Z.of_nat (length data) <= maxMessageSize) sent ->
  length hdr = 4%nat ->
  let declared := to_int intBits (Uint32 hdr) in
  let stream := concat (packMessage <$> sent) ++ hdr ++ rest in
  let served :=
    TcpManager.handlePeer writeFault unmarshalType intBits tm peer stream
      times n in
  (maxMessageSize < declared ->
   handlePeer_body intBits processMessage (hdr ++ rest)
   = Break (InvalidLength declared) /\
   handlePeer intBits processMessage stream
   = (sent, Some (InvalidLength declared)) /\
   served
   = (TcpManager.mkTCPManager (TcpManager.isRunning tm)
        (TcpManager.listener tm)
        (delete (TcpManager.ID peer) (TcpManager.connectedPeers tm))
        (TcpManager.discoveryAddr tm) (TcpManager.listenPort tm),
      TcpManager.closeHandle (TcpManager.Conn peer)
        (TcpManager.processAll writeFault unmarshalType
           (TcpManager.Conn peer) times 0 sent n)) /\
   TcpManager.Conn peer ∈ TcpManager.closed served.2 /\
   TcpManager.connectedPeers served.1 !! TcpManager.ID peer = None) /\
  (declared <= 0 ->
   handlePeer_body intBits processMessage (hdr ++ rest)
   = Continue None rest /\
   handlePeer intBits processMessage stream
   = (sent ++ (handlePeer intBits processMessage rest).1,
      (handlePeer intBits processMessage rest).2) /\
   served
   = TcpManager.handlePeer writeFault unmarshalType intBits tm peer
       (concat (packMessage <$> sent) ++ rest) times n) /\
  (intBits = 64 -> declared = Uint32 hdr).
Proof.
  intros Hbits Hsent Hhdr declared stream served.
  destruct (handlePeer_guard intBits processMessage sent hdr rest Hbits Hsent
              Hhdr) as (Hover & Hskip & Hwide).
  destruct (handlePeer_guard intBits (fun _ => None) sent hdr rest Hbits
              Hsent Hhdr) as (Hover' & Hskip' & _).
  fold declared in Hover, Hskip, Hwide, Hover', Hskip'.
  split; [|split; [|done]].
  - intros Hdeclared.
    destruct (Hover Hdeclared) as [Hbody Hloop].
    destruct (Hover' Hdeclared) as [_ Hloop'].
    assert (served
            = (TcpManager.mkTCPManager (TcpManager.isRunning tm)
                 (TcpManager.listener tm)
                 (delete (TcpManager.ID peer) (TcpManager.connectedPeers tm))
                 (TcpManager.discoveryAddr tm) (TcpManager.listenPort tm),
               TcpManager.closeHandle (TcpManager.Conn peer)
                 (TcpManager.processAll writeFault unmarshalType
                    (TcpManager.Conn peer) times 0 sent n))) as Hserved.
    { unfold served, TcpManager.handlePeer, stream.
      fold (handlePeer intBits (fun _ : list byte => None)).
      by rewrite Hloop'. }
    split; [done|]. split; [done|]. split; [done|]. rewrite Hserved. split.
    + cbn [snd TcpManager.closeHandle TcpManager.closed].
      apply elem_of_union. left. by apply elem_of_singleton.
    + cbn [fst TcpManager.connectedPeers]. apply lookup_delete_eq.
  - intros Hdeclared.
    destruct (Hskip Hdeclared) as [Hbody Hloop].
    destruct (Hskip' Hdeclared) as [_ Hloop'].
    split; [done|]. split; [done|].
    unfold served, TcpManager.handlePeer, stream.
    fold (handlePeer intBits (fun _ : list byte => None)).
    rewrite Hloop'.
    by rewrite (handlePeer_packed_prefix intBits (fun _ => None) sent rest
                  Hbits Hsent).
Qed.

(** A peer whose connection delivers a ping, a frame that declares
    100 MiB and one byte, and a second ping: the first ping is answered,
    the second is not read, the peer is taken out of the table and the
    connection is closed.  With a frame that declares no byte in its
    place both pings are answered. *)
Lemma frame_size_guard_witness :
  TcpManager.handlePeer (fun _ _ => None) TcpManager.sampleUnmarshal 64
    (TcpManager.Connect (fun _ _ => inl 3%nat) TcpManager.GetTCPManager
       "10.0.0.5" 9002 0).1
    (TcpManager.mkTCPPeer "tcp-10.0.0.5-9002" "Peer-10.0.0.5" "10.0.0.5"
       3%nat 0)
    (concat (packMessage <$> [TcpManager.pingDocument])
     ++ [x06; x40; x00; x01] ++ packMessage TcpManager.pingDocument)
    (fun _ => "1700000000") (TcpManager.mkNetwork ∅ ∅)
  = (TcpManager.GetTCPManager,
     TcpManager.mkNetwork
       {[3%nat := packMessage (TcpManager.pongDocument "1700000000")]}
       {[3%nat]}) /\
  default []
    (TcpManager.written
       (TcpManager.handlePeer (fun _ _ => None) TcpManager.sampleUnmarshal 64
          (TcpManager.Connect (fun _ _ => inl 3%nat) TcpManager.GetTCPManager
             "10.0.0.5" 9002 0).1
          (TcpManager.mkTCPPeer "tcp-10.0.0.5-9002" "Peer-10.0.0.5"
             "10.0.0.5" 3%nat 0)
          (concat (packMessage <$> [TcpManager.pingDocument])
           ++ [x00; x00; x00; x00] ++ packMessage TcpManager.pingDocument)
          (fun _ => "1700000000") (TcpManager.mkNetwork ∅ ∅)).2 !! 3%nat)
  = packMessage (TcpManager.pongDocument "1700000000")
    ++ packMessage (TcpManager.pongDocument "1700000000").
Proof.
  assert (Forall (fun data : list byte =>
                    1 <= Z.of_nat (length data) <= maxMessageSize)
            [TcpManager.pingDocument]) as Hsent.
  { apply Forall_singleton. vm_compute. split; discriminate. }
  split.
  - destruct (frame_size_guard (fun _ _ => None) TcpManager.sampleUnmarshal
                64 (fun _ => None)
                (TcpManager.Connect (fun _ _ => inl 3%nat)
                   TcpManager.GetTCPManager "10.0.0.5" 9002 0).1
                (TcpManager.mkTCPPeer "tcp-10.0.0.5-9002" "Peer-10.0.0.5"
                   "10.0.0.5" 3%nat 0)
                (fun _ => "1700000000") (TcpManager.mkNetwork ∅ ∅)
                [TcpManager.pingDocument] [x06; x40; x00; x01]
                (packMessage TcpManager.pingDocument))
      as [Hover _]; [by right|exact Hsent|reflexivity|].
    destruct Hover as (_ & _ & Hserved & _); [vm_compute; reflexivity|].
    etrans; [exact Hserved|]. vm_compute. reflexivity.
  - destruct (frame_size_guard (fun _ _ => None) TcpManager.sampleUnmarshal
                64 (fun _ => None)
                (TcpManager.Connect (fun _ _ => inl 3%nat)
                   TcpManager.GetTCPManager "10.0.0.5" 9002 0).1
                (TcpManager.mkTCPPeer "tcp-10.0.0.5-9002" "Peer-10.0.0.5"
                   "10.0.0.5" 3%nat 0)
                (fun _ => "1700000000") (TcpManager.mkNetwork ∅ ∅)
                [TcpManager.pingDocument] [x00; x00; x00; x00]
                (packMessage TcpManager.pingDocument))
      as (_ & Hskip & _); [by right|exact Hsent|reflexivity|].
    destruct Hskip as (_ & _ & Hserved); [vm_compute; discriminate|].
    etrans; [exact (f_equal (fun r => default [] (TcpManager.written r.2
                                                   !! 3%nat)) Hserved)|].
    vm_compute. reflexivity.
Defined.

End FrameGuard.

(* ===================================================================== *)
(** * Mesh coordinator: the node, its network conditions, connecting     *)
(* ===================================================================== *)

Module MeshNode.

Import Mesh.

(** What the network answers while the conditions are detected: the
    time, the local address of the connection to the public service
    (empty when the connection fails), whether the dial to the multicast
    address and to each gateway succeeds, whether the relay answers. *)
Record probe : Type := mkProbe {
  probeTime : Z;
  probePublicIP : string;
  probeMulticast : bool;
  probeGateway : string -> bool;
  probeRelay : string -> bool
}.

(** [detectClientIsolation]: no isolation when the multicast address is
    reached; isolation when it is not and a gateway is. *)
Definition detectClientIsolation (p : probe) : bool :=
  if probeMulticast p then false
  else existsb (probeGateway p) ["192.168.1.1"; "192.168.0.1"; "10.0.0.1"].

Definition detectNATType : string := "Unknown".

(** [detectNetworkConditions]. *)
Definition detectNetworkConditions (st : state) (p : probe) : state :=
  let info := connectionInfo st in
  let publicIP :=
    if negb (String.eqb (probePublicIP p) "") then probePublicIP p
    else PublicIP info in
  let isolated := detectClientIsolation p in
  let mode :=
    if isolated then
      if EnableRelay (meshConfig st) then RelayMode
      else if EnableWiFiDirect (meshConfig st) then MixedMode
      else RelayMode
    else DirectMode in
  let relayAvailable :=
    match RelayServers (meshConfig st) with
    | first :: _ =>
        if EnableRelay (meshConfig st) then probeRelay p first
        else RelayAvailable info
    | [] => RelayAvailable info
    end in
  mkState (meshConfig st) (isRunning st) (nodeID st) (knownPeers st)
    (mkConnectionInfo mode isolated detectNATType publicIP relayAvailable
       (probeTime p)).

(** [generateNodeID], for the time in nanoseconds as [%x] prints it. *)
Definition generateNodeID (hexTime : string) : string := "node-" +:+ hexTime.

Definition defaultRelayServers : list string :=
  ["relay1.bitshare.net:9100"; "relay2.bitshare.net:9100"].

(** [StartMeshNode]; the goroutines it launches are not part of the
    model, the loops of discovery and of routing do nothing, and the loop
    that monitors the network is [detectNetworkConditions] again. *)
Definition StartMeshNode (st : state) (config : Config) (hexTime : string)
    (p : probe) : state * option string :=
  if isRunning st then (st, Some "mesh node is already running")
  else
    let id := if String.eqb (NodeID config) "" then generateNodeID hexTime
              else NodeID config in
    let servers :=
      if EnableRelay config && (Z.of_nat (length (RelayServers config)) =? 0)
      then defaultRelayServers else RelayServers config in
    let config' :=
      mkConfig (NodeName config) id (ListenPort config)
        (EnableWiFiDirect config) (EnableBluetooth config) (EnableTCP config)
        (EnableRelay config) servers (DataDir config) in
    let st1 :=
      detectNetworkConditions
        (mkState config' (isRunning st) id (knownPeers st)
           (connectionInfo st)) p in
    (mkState (meshConfig st1) true (nodeID st1) (knownPeers st1)
       (connectionInfo st1), None).

(** [StopMeshNode]. *)
Definition StopMeshNode (st : state) : state :=
  if negb (isRunning st) then st
  else mkState (meshConfig st) false (nodeID st) (knownPeers st)
         (connectionInfo st).

(** [GetKnownPeers], for the order in which the directory is iterated. *)
Definition GetKnownPeers (st : state) (order : list (string * Peer))
  : list Peer * option string :=
  if negb (isRunning st) then ([], Some "mesh node is not running")
  else (order.*2, None).

(** The states that the exported functions and the monitor lead to. *)
Inductive reachable : state -> Prop :=
| reachable_initial : reachable initialState
| reachable_start st config hexTime p :
    reachable st -> reachable (StartMeshNode st config hexTime p).1
| reachable_stop st :
    reachable st -> reachable (StopMeshNode st)
| reachable_monitor st p :
    reachable st -> reachable (detectNetworkConditions st p).

(** ** Connecting *)

Section ConnectOutcome.

Variable EqualFold : string -> string -> bool.
Variable direct wifi relay : option Peer -> option string.

Local Abbreviation connect := (ConnectToPeer EqualFold direct wifi relay).

(** [ConnectToPeer] returns [nil] exactly when one of the strategies it
    attempts succeeds: the direct connection, or WiFi Direct when
    isolation was detected and WiFi Direct is enabled, or the relay when
    it is enabled.  When the peer is not resolved it returns the error of
    the resolution, whatever the strategies would do, and it does not
    panic. *)
Theorem ConnectToPeer_succeeds_iff (st : state)
    (idOrder nameOrder : list (string * Peer)) (q : string) :
  (forall peer,
      FindPeerByIdOrName EqualFold st idOrder nameOrder q = (Some peer, None) ->
      (connect st idOrder nameOrder q = Ok tt <->
       direct (Some peer) = None \/
       (ClientIsolation (connectionInfo st) = true /\
        EnableWiFiDirect (meshConfig st) = true /\
        wifi (Some peer) = None) \/
       (EnableRelay (meshConfig st) = true /\ relay (Some peer) = None))) /\
  (forall found err,
      FindPeerByIdOrName EqualFold st idOrder nameOrder q = (found, Some err) ->
      connect st idOrder nameOrder q = Err err) /\
  (forall msg, connect st idOrder nameOrder q <> Panic msg).
Proof.
  split_and!.
  - intros peer Hfound. unfold ConnectToPeer. rewrite Hfound.
    destruct (direct (Some peer)) as [directErr|]; simpl; [|by split; auto].
    destruct (ClientIsolation (connectionInfo st)),
      (EnableWiFiDirect (meshConfig st)),
      (EnableRelay (meshConfig st)),
      (wifi (Some peer)) as [wifiErr|],
      (relay (Some peer)) as [relayErr|]; simpl;
      split; try done; intuition (discriminate || done).
  - intros found err Hfound. unfold ConnectToPeer. by rewrite Hfound.
  - intros msg. unfold ConnectToPeer.
    pose proof (FindPeerByIdOrName_not_nil EqualFold st idOrder nameOrder q)
      as Hnil.
    destruct (FindPeerByIdOrName EqualFold st idOrder nameOrder q)
      as [[peer|] [err|]]; try done.
    destruct (direct (Some peer)); simpl; [|done].
    destruct (ClientIsolation (connectionInfo st)
              && EnableWiFiDirect (meshConfig st)),
      (EnableRelay (meshConfig st)),
      (wifi (Some peer)), (relay (Some peer)); done.
Qed.

End ConnectOutcome.

(** With the strategies that the repository has, which are placeholders,
    [ConnectToPeer] fails for every state and every query. *)
Theorem ConnectToPeer_not_implemented
    (EqualFold : string -> string -> bool) (st : state)
    (idOrder nameOrder : list (string * Peer)) (q : string) :
  exists err,
    ConnectToPeer EqualFold connectDirectly connectViaWiFiDirect
      connectViaRelay st idOrder nameOrder q = Err err.
Proof.
  unfold ConnectToPeer, connectDirectly, connectViaWiFiDirect,
    connectViaRelay.
  destruct (FindPeerByIdOrName EqualFold st idOrder nameOrder q)
    as [found [err|]]; [by eexists|].
  destruct (ClientIsolation (connectionInfo st)
            && EnableWiFiDirect (meshConfig st)),
    (EnableRelay (meshConfig st)); by eexists.
Qed.

(** ** The node *)

(** What every reachable state satisfies. *)
Definition nodeInvariant (st : state) : Prop :=
  knownPeers st = ∅ /\
  (Mode (connectionInfo st) = DirectMode <->
   ClientIsolation (connectionInfo st) = false) /\
  (Mode (connectionInfo st) = MixedMode ->
   EnableRelay (meshConfig st) = false /\
   EnableWiFiDirect (meshConfig st) = true) /\
  (isRunning st = true ->
   nodeID st <> "" /\
   nodeID st = NodeID (meshConfig st) /\
   (EnableRelay (meshConfig st) = true -> RelayServers (meshConfig st) <> [])).

Lemma detectNetworkConditions_mode (st : state) (p : probe) :
  let st' := detectNetworkConditions st p in
  (Mode (connectionInfo st') = DirectMode <->
   ClientIsolation (connectionInfo st') = false) /\
  (Mode (connectionInfo st') = MixedMode ->
   EnableRelay (meshConfig st) = false /\
   EnableWiFiDirect (meshConfig st) = true) /\
  ClientIsolation (connectionInfo st') = detectClientIsolation p.
Proof.
  simpl. destruct (detectClientIsolation p),
    (EnableRelay (meshConfig st)), (EnableWiFiDirect (meshConfig st));
    by split_and!.
Qed.

Lemma StartMeshNode_running (st : state) (config : Config)
    (hexTime : string) (p : probe) :
  isRunning st = true ->
  StartMeshNode st config hexTime p
  = (st, Some "mesh node is already running").
Proof. intros Hrun. unfold StartMeshNode. by rewrite Hrun. Qed.

Lemma reachable_invariant (st : state) : reachable st -> nodeInvariant st.
Proof.
  induction 1 as [|st config hexTime p _ IH|st _ IH|st p _ IH].
  - unfold nodeInvariant. simpl. split_and!; done.
  - destruct (isRunning st) eqn:Hrun.
    { by rewrite StartMeshNode_running. }
    destruct IH as (Hpeers & _). unfold StartMeshNode. rewrite Hrun.
    set (st0 := mkState _ _ _ _ _).
    pose proof (detectNetworkConditions_mode st0 p) as (Hdirect & Hmixed & _).
    unfold nodeInvariant. simpl in *.
    split_and!; [done|done|done|].
    intros _. split_and!.
    + destruct (String.eqb_spec (NodeID config) ""); [done|done].
    + done.
    + intros Hrelay. rewrite Hrelay. simpl.
      destruct (RelayServers config); simpl; done.
  - destruct IH as (Hpeers & Hdirect & Hmixed & Hrun).
    unfold StopMeshNode. destruct (isRunning st) eqn:Hr; simpl.
    + unfold nodeInvariant. simpl. split_and!; done.
    + unfold nodeInvariant. rewrite Hr. split_and!; done.
  - destruct IH as (Hpeers & _ & _ & Hrun).
    pose proof (detectNetworkConditions_mode st p) as (Hdirect & Hmixed & _).
    unfold nodeInvariant. simpl in *. split_and!; done.
Qed.

(** As the coordinator stands, nothing puts a peer into the directory:
    in every state that starting, stopping and monitoring lead to, the
    directory is empty, so that [GetKnownPeers] returns no peer, and
    [FindPeerByIdOrName] and [ConnectToPeer] fail for every query, with
    the error of a peer that is not found while the node is running. *)
Theorem directory_stays_empty
    (EqualFold : string -> string -> bool)
    (direct wifi relay : option Peer -> option string)
    (st : state) (idOrder nameOrder : list (string * Peer)) (q : string) :
  reachable st ->
  idOrder ≡ₚ map_to_list (knownPeers st) ->
  nameOrder ≡ₚ map_to_list (knownPeers st) ->
  let err := if isRunning st then PeerNotFound q
             else "mesh node is not running" in
  knownPeers st = ∅ /\
  GetKnownPeers st idOrder
  = ([], if isRunning st then None else Some "mesh node is not running") /\
  FindPeerByIdOrName EqualFold st idOrder nameOrder q = (None, Some err) /\
  ConnectToPeer EqualFold direct wifi relay st idOrder nameOrder q = Err err.
Proof.
  intros Hreach Hids Hnames err.
  destruct (reachable_invariant st Hreach) as (Hempty & _).
  rewrite Hempty, map_to_list_empty in Hids, Hnames.
  apply Permutation_nil_r in Hids, Hnames. subst idOrder nameOrder.
  assert (FindPeerByIdOrName EqualFold st [] [] q = (None, Some err))
    as Hfind.
  { unfold FindPeerByIdOrName, err. rewrite Hempty, lookup_empty.
    by destruct (isRunning st). }
  split_and!; [done| |done|].
  - unfold GetKnownPeers. by destruct (isRunning st).
  - unfold ConnectToPeer. by rewrite Hfind.
Qed.

(** In every reachable state the mode is [DirectMode] exactly when no
    isolation was detected, [MixedMode] only with the relay disabled and
    WiFi Direct enabled, and a running node has a node ID that is not
    empty and, when the relay is enabled, a relay server. *)
Theorem reachable_mode_and_identity (st : state) :
  reachable st ->
  (Mode (connectionInfo st) = DirectMode <->
   ClientIsolation (connectionInfo st) = false) /\
  (Mode (connectionInfo st) = MixedMode ->
   EnableRelay (meshConfig st) = false /\
   EnableWiFiDirect (meshConfig st) = true) /\
  (isRunning st = true ->
   nodeID st <> "" /\
   nodeID st = NodeID (meshConfig st) /\
   (EnableRelay (meshConfig st) = true -> RelayServers (meshConfig st) <> [])).
Proof.
  intros Hreach. by destruct (reachable_invariant st Hreach) as (_ & ?).
Qed.

(** [StartMeshNode] and [StopMeshNode] as a switch: a second start fails
    and changes nothing; a stop keeps the configuration and the
    connection information; after it queries fail because the node is
    not running, and the node can be started again. *)
Theorem StartMeshNode_twice_fails (st st1 : state) (config config2 : Config)
    (hexTime hexTime2 : string) (p p2 : probe) :
  StartMeshNode st config hexTime p = (st1, None) ->
  isRunning st = false /\
  isRunning st1 = true /\
  StartMeshNode st1 config2 hexTime2 p2
  = (st1, Some "mesh node is already running") /\
  StopMeshNode st1
  = mkState (meshConfig st1) false (nodeID st1) (knownPeers st1)
      (connectionInfo st1) /\
  StopMeshNode (StopMeshNode st1) = StopMeshNode st1 /\
  (forall EqualFold idOrder nameOrder q,
      FindPeerByIdOrName EqualFold (StopMeshNode st1) idOrder nameOrder q
      = (None, Some "mesh node is not running")) /\
  (StartMeshNode (StopMeshNode st1) config2 hexTime2 p2).2 = None.
Proof.
  unfold StartMeshNode at 1. destruct (isRunning st) eqn:Hrun; [discriminate|].
  intros [= <-]. split_and!; try done.
Qed.

Definition sampleProbe (multicast gateway : bool) : probe :=
  mkProbe 0 "192.168.1.20" multicast (fun _ => gateway) (fun _ => true).

Lemma directory_stays_empty_witness :
  FindPeerByIdOrName EqualFoldASCII
    (StartMeshNode initialState (sampleConfig true false) "17c2" 
       (sampleProbe false true)).1 [] [] "bob"
  = (None, Some (PeerNotFound "bob")).
Proof.
  apply (directory_stays_empty EqualFoldASCII connectDirectly
           connectViaWiFiDirect connectViaRelay
           (StartMeshNode initialState (sampleConfig true false) "17c2"
              (sampleProbe false true)).1 [] [] "bob").
  - apply reachable_start, reachable_initial.
  - reflexivity.
  - reflexivity.
Defined.

Lemma reachable_mode_and_identity_witness :
  Mode (connectionInfo
          (StartMeshNode initialState (sampleConfig true false) "17c2"
             (sampleProbe false true)).1) = MixedMode /\
  nodeID (StartMeshNode initialState (sampleConfig true false) "17c2"
            (sampleProbe false true)).1 <> "".
Proof.
  split; [reflexivity|].
  apply (reachable_mode_and_identity
           (StartMeshNode initialState (sampleConfig true false) "17c2"
              (sampleProbe false true)).1).
  - apply reachable_start, reachable_initial.
  - reflexivity.
Defined.

Lemma StartMeshNode_twice_fails_witness :
  StartMeshNode
    (StartMeshNode initialState (sampleConfig true false) "17c2"
       (sampleProbe false true)).1
    (sampleConfig false true) "17c3" (sampleProbe true true)
  = ((StartMeshNode initialState (sampleConfig true false) "17c2"
        (sampleProbe false true)).1,
     Some "mesh node is already running").
Proof.
  apply (StartMeshNode_twice_fails initialState
           (StartMeshNode initialState (sampleConfig true false) "17c2"
              (sampleProbe false true)).1
           (sampleConfig true false) (sampleConfig false true)
           "17c2" "17c3" (sampleProbe false true) (sampleProbe true true)).
  reflexivity.
Defined.

End MeshNode.

(* ===================================================================== *)
(** * Discovery: scans that fail, scans of nothing, merging twice        *)
(* ===================================================================== *)

Module DiscoveryScans.

Import Discovery.

Lemma mergeCached_all_known (cachedPeers results : list PeerInfo) :
  (forall c, c ∈ cachedPeers -> ID c ∈ ID <$> results) ->
  mergeCached cachedPeers results = results.
Proof.
  induction cachedPeers as [|peer rest IH]; intros Hknown; simpl; [done|].
  assert (isDuplicate peer results = true) as ->.
  { apply isDuplicate_spec, Hknown. left. }
  apply IH. intros c Hc. apply Hknown. by right.
Qed.

(** Merging the cache into a result is idempotent: once the cache has
    been merged, merging it again adds nothing. *)
Theorem mergeCached_idempotent (cachedPeers results : list PeerInfo) :
  mergeCached cachedPeers (mergeCached cachedPeers results)
  = mergeCached cachedPeers results.
Proof.
  apply mergeCached_all_known. intros c Hc.
  destruct (mergeCached_spec cachedPeers results)
    as (added & -> & _ & _ & _ & Hall).
  by apply Hall.
Qed.

Lemma received_failed (scan : transport -> scanResult)
    (heard : list transport) :
  (forall t, t ∈ heard -> exists e, scan t = Failed e) ->
  forall k, received (take k (omap (goroutine scan) heard)) = [].
Proof.
  intros Hfail.
  assert (forall l : list message,
             Forall (fun m => exists e, m = OnErrorsCh e) l ->
             forall k, received (take k l) = []) as Hgen.
  { induction l as [|m l IH]; intros Hl k.
    - by rewrite take_nil.
    - destruct k as [|k]; [done|].
      apply Forall_cons in Hl as [[e ->] Hl]. simpl.
      apply (IH Hl k). }
  apply Hgen. apply Forall_forall. intros m Hm.
  apply list_elem_of_omap in Hm as (t & Ht & Hg).
  destruct (Hfail t Ht) as [e He]. unfold goroutine in Hg.
  rewrite He in Hg. inversion Hg. by eexists.
Qed.

(** The errors of the scans are returned only with a timeout.  When
    every launched scan has been heard the error returned is [nil], even
    if every one of them failed; the result then holds what the cache
    gives, or nothing, as if no peer had been in reach. *)
Theorem ScanForPeersWithOptions_drops_errors
    (scan : transport -> scanResult) (cache : list PeerInfo)
    (options : ScanOptions) (heard : list transport) :
  (length (launched options) <= length (omap (goroutine scan) heard))%nat ->
  (ScanForPeersWithOptions scan cache options heard).2 = None /\
  ((forall t, t ∈ heard -> exists e, scan t = Failed e) ->
   ScanForPeersWithOptions scan cache options heard
   = (if IncludeCache options then mergeCached cache [] else [], None)).
Proof.
  intros Hheard. unfold ScanForPeersWithOptions.
  rewrite collect_all_heard by done. cbn [app]. split.
  - by destruct (IncludeCache options).
  - intros Hfail. rewrite (received_failed scan heard Hfail).
    by destruct (IncludeCache options).
Qed.

Definition failingScan (t : transport) : scanResult :=
  Failed "adapter not available".

Lemma ScanForPeersWithOptions_drops_errors_witness :
  ScanForPeersWithOptions failingScan [] DefaultScanOptions
    [TCPScan; BluetoothScan; WiFiDirectScan] = ([], None).
Proof.
  apply (ScanForPeersWithOptions_drops_errors failingScan []
           DefaultScanOptions [TCPScan; BluetoothScan; WiFiDirectScan]).
  - simpl. lia.
  - intros t _. by eexists.
Defined.

(** With no transport selected nothing is launched and nothing is waited
    for, not even the timer: the result is what the cache gives, with
    every entry marked as cached, and the error is [nil]. *)
Theorem ScanForPeersWithOptions_no_transport
    (scan : transport -> scanResult) (cache : list PeerInfo)
    (options : ScanOptions) (heard : list transport) :
  WifiDirect options = false -> Bluetooth options = false ->
  TCP options = false ->
  ScanForPeersWithOptions scan cache options heard
  = (if IncludeCache options then mergeCached cache [] else [], None) /\
  Forall (fun p => SignalStrength p = 0)
    (ScanForPeersWithOptions scan cache options heard).1.
Proof.
  intros Hw Hb Ht.
  assert (ScanForPeersWithOptions scan cache options heard
          = (if IncludeCache options then mergeCached cache [] else [], None))
    as ->.
  { unfold ScanForPeersWithOptions, launched. rewrite Hw, Hb, Ht.
    cbn [app length collect]. by destruct (IncludeCache options). }
  split; [done|]. destruct (IncludeCache options); simpl; [|constructor].
  destruct (mergeCached_spec cache []) as (added & -> & Hsig & _).
  simpl. eapply Forall_impl; [exact Hsig|]. by intros p [? _].
Qed.

Lemma ScanForPeersWithOptions_no_transport_witness :
  ScanForPeersWithOptions placeholderScan sampleCache
    (mkScanOptions 30000000000 false false false 100 true) []
  = ([mkPeerInfo "tcp-9012" "Desktop-TCP" "192.168.1.100" "tcp" 0 0 [];
      mkPeerInfo "old-1" "Tablet" "192.168.1.9" "tcp" 0 0 []], None).
Proof.
  apply (ScanForPeersWithOptions_no_transport placeholderScan sampleCache
           (mkScanOptions 30000000000 false false false 100 true) []);
    reflexivity.
Defined.

End DiscoveryScans.

(* ===================================================================== *)
(** * The Bluetooth manager                                              *)
(* ===================================================================== *)

Module Bluetooth.

Record BluetoothPeer : Type := mkBluetoothPeer {
  ID : string;
  Name : string;
  MacAddress : string;
  LastSeen : Z;
  RSSI : Z
}.

Record BluetoothManager : Type := mkBluetoothManager {
  isRunning : bool;
  connectedPeers : gmap string BluetoothPeer;
  serviceName : string;
  serviceUUID : string
}.

(** [GetBluetoothManager], the first time it is called. *)
Definition GetBluetoothManager : BluetoothManager :=
  mkBluetoothManager false ∅ "BitShare" "94f39d29-7d6d-437d-973b-fba39e49d4ee".

(** [isBluetoothSupported] and [initializeService] are placeholders: the
    first answers yes, the second returns [nil]. *)
Definition isBluetoothSupported : bool * option string := (true, None).
Definition initializeService : option string := None.

(** [Start]. *)
Definition Start (bm : BluetoothManager) : BluetoothManager * option string :=
  if isRunning bm then (bm, Some "Bluetooth service is already running")
  else
    match isBluetoothSupported with
    | (_, Some err) =>
        (bm, Some ("failed to check Bluetooth support: " +:+ err))
    | (false, None) =>
        (bm, Some "Bluetooth is not supported or not available on this device")
    | (true, None) =>
        match initializeService with
        | Some err =>
            (bm, Some ("failed to initialize Bluetooth service: " +:+ err))
        | None =>
            (mkBluetoothManager true (connectedPeers bm) (serviceName bm)
               (serviceUUID bm), None)
        end
    end.

(** [Stop]: [disconnect] only prints, the table is left as it is. *)
Definition Stop (bm : BluetoothManager) : BluetoothManager :=
  if negb (isRunning bm) then bm
  else mkBluetoothManager false (connectedPeers bm) (serviceName bm)
         (serviceUUID bm).

(** [Discover]: the peer it returns is a placeholder; [now] is the time
    of the call. *)
Definition Discover (bm : BluetoothManager) (now : Z)
  : list Discovery.PeerInfo * option string :=
  if negb (isRunning bm) then ([], Some "Bluetooth service is not running")
  else
    ([Discovery.mkPeerInfo "bt-abc123" "Phone-BT" "00:11:22:33:44:55"
        "bluetooth" 50 now ["transfer"]], None).

(** [Connect]. *)
Definition Connect (bm : BluetoothManager) (macAddress : string) (now : Z)
  : BluetoothManager * option string :=
  let peer := mkBluetoothPeer ("bt-" +:+ macAddress)
                ("BT-Peer-" +:+ macAddress) macAddress now (-70) in
  (mkBluetoothManager (isRunning bm) (<[ID peer := peer]> (connectedPeers bm))
     (serviceName bm) (serviceUUID bm), None).

(** [SendData]. *)
Definition SendData (bm : BluetoothManager) (peerID : string)
    (data : list Byte.byte) : option string :=
  match connectedPeers bm !! peerID with
  | None => Some ("peer not connected: " +:+ peerID)
  | Some _ => None
  end.

(** The states that the methods lead to. *)
Inductive reachable : BluetoothManager -> Prop :=
| reachable_initial : reachable GetBluetoothManager
| reachable_Start bm : reachable bm -> reachable (Start bm).1
| reachable_Stop bm : reachable bm -> reachable (Stop bm)
| reachable_Connect bm mac now :
    reachable bm -> reachable (Connect bm mac now).1.

(** [Discover] answers exactly while the service is running: after
    [Start] it returns its peer, after [Stop] and before the first
    [Start] it fails; a second [Start] fails and changes nothing. *)
Theorem Discover_needs_running (bm : BluetoothManager) (now : Z) :
  ((Discover bm now).2 = None <-> isRunning bm = true) /\
  (Discover (Start bm).1 now).2 = None /\
  (Discover (Stop bm) now).2 = Some "Bluetooth service is not running" /\
  (Discover GetBluetoothManager now).2
  = Some "Bluetooth service is not running" /\
  Start (Start bm).1
  = ((Start bm).1, Some "Bluetooth service is already running").
Proof.
  unfold Discover, Start, Stop. destruct (isRunning bm) eqn:Hrun; simpl;
    rewrite ?Hrun; simpl; split_and!; done.
Qed.

(** A peer that was connected is in the table under ["bt-<address>"],
    and stays there when the service is stopped and started again:
    [SendData] to it returns [nil] in all three states; to an ID that is
    not in the table [SendData] fails. *)
Theorem SendData_after_Connect (bm : BluetoothManager)
    (macAddress : string) (now : Z) (data : list Byte.byte) :
  SendData (Connect bm macAddress now).1 ("bt-" +:+ macAddress) data = None /\
  SendData (Stop (Connect bm macAddress now).1) ("bt-" +:+ macAddress) data
  = None /\
  SendData (Start (Stop (Connect bm macAddress now).1)).1
    ("bt-" +:+ macAddress) data = None /\
  (forall peerID,
      peerID <> "bt-" +:+ macAddress ->
      SendData (Connect bm macAddress now).1 peerID data
      = SendData bm peerID data).
Proof.
  assert (connectedPeers (Connect bm macAddress now).1
            !! ("bt-" +:+ macAddress)
          = Some (mkBluetoothPeer ("bt-" +:+ macAddress)
                    ("BT-Peer-" +:+ macAddress) macAddress now (-70)))
    as Hlookup.
  { unfold Connect. cbn [fst connectedPeers ID]. apply lookup_insert_eq. }
  split_and!.
  - unfold SendData. by rewrite Hlookup.
  - unfold SendData, Stop. destruct (negb _);
      cbn [connectedPeers]; by rewrite Hlookup.
  - set (connected := (Connect bm macAddress now).1) in *.
    unfold SendData, Start, Stop.
    destruct (isRunning connected) eqn:Hrun;
      cbn [negb fst connectedPeers isRunning]; rewrite ?Hrun;
      cbn [fst connectedPeers isRunning isBluetoothSupported
           initializeService]; by rewrite Hlookup.
  - intros peerID Hne. unfold SendData, Connect.
    cbn [fst connectedPeers ID]. by rewrite lookup_insert_ne.
Qed.

(** In every state that the methods lead to, [SendData] returns [nil]
    exactly for the IDs of the table, and each of them is ["bt-"]
    followed by the address of its peer: no other ID is ever accepted. *)
Theorem SendData_accepts_connected (bm : BluetoothManager) (peerID : string)
    (data : list Byte.byte) :
  reachable bm ->
  SendData bm peerID data = None <->
  exists peer,
    connectedPeers bm !! peerID = Some peer /\ ID peer = peerID /\
    peerID = "bt-" +:+ MacAddress peer.
Proof.
  intros Hreach.
  assert (forall peer,
             connectedPeers bm !! peerID = Some peer ->
             ID peer = peerID /\ peerID = "bt-" +:+ MacAddress peer) as Hinv.
  { revert peerID.
    induction Hreach as [|bm0 _ IH|bm0 _ IH|bm0 mac now0 _ IH];
      intros peerID peer Hlook.
    - unfold GetBluetoothManager in Hlook. cbn [connectedPeers] in Hlook.
      by rewrite lookup_empty in Hlook.
    - unfold Start in Hlook. destruct (isRunning bm0);
        cbn [fst connectedPeers] in Hlook; by eapply IH.
    - unfold Stop in Hlook. destruct (negb _);
        cbn [connectedPeers] in Hlook; by eapply IH.
    - unfold Connect in Hlook. cbn [fst connectedPeers ID] in Hlook.
      destruct (decide ("bt-" +:+ mac = peerID)) as [<-|Hne].
      + rewrite lookup_insert_eq in Hlook. by inversion Hlook.
      + rewrite lookup_insert_ne in Hlook by done. by eapply IH. }
  unfold SendData.
  destruct (connectedPeers bm !! peerID) as [peer|] eqn:Hlook.
  - split; [|done]. intros _. exists peer. split; [done|]. by apply Hinv.
  - split; [done|]. by intros (peer & Hsome & _).
Qed.

Lemma SendData_accepts_connected_witness :
  SendData (Stop (Connect (Start GetBluetoothManager).1
                    "00:11:22:33:44:55" 7).1)
    "bt-00:11:22:33:44:55" [] = None <->
  exists peer,
    connectedPeers (Stop (Connect (Start GetBluetoothManager).1
                            "00:11:22:33:44:55" 7).1)
      !! "bt-00:11:22:33:44:55" = Some peer /\
    ID peer = "bt-00:11:22:33:44:55" /\
    "bt-00:11:22:33:44:55" = "bt-" +:+ MacAddress peer.
Proof.
  apply (SendData_accepts_connected
           (Stop (Connect (Start GetBluetoothManager).1
                    "00:11:22:33:44:55" 7).1)
           "bt-00:11:22:33:44:55" []).
  apply reachable_Stop, reachable_Connect, reachable_Start, reachable_initial.
Defined.

End Bluetooth.

(* ===================================================================== *)
(** * The interactive terminal: [parseCommand]                           *)
(* ===================================================================== *)

Module CommandLine.

(** [parseCommand] ranges over the runes of the command and writes runes
    to a builder: a string is given here by its runes, also the builder,
    whose [Len] is positive exactly when a rune has been written. *)
Definition rune : Type := Z.

Definition backslash : rune := 92.
Definition doubleQuote : rune := 34.
Definition space : rune := 32.

(** The loop of [parseCommand] and what follows it. *)
Fixpoint parseLoop (cmd : list rune) (args : list (list rune))
    (currentArg : list rune) (inQuotes escapeNext : bool)
  : list (list rune) :=
  match cmd with
  | [] =>
      if (0 <? length currentArg)%nat then args ++ [currentArg] else args
  | char :: cmd =>
      if escapeNext then
        parseLoop cmd args (currentArg ++ [char]) inQuotes false
      else if char =? backslash then
        parseLoop cmd args currentArg inQuotes true
      else if char =? doubleQuote then
        parseLoop cmd args currentArg (negb inQuotes) escapeNext
      else if (char =? space) && negb inQuotes then
        if (0 <? length currentArg)%nat
        then parseLoop cmd (args ++ [currentArg]) [] inQuotes escapeNext
        else parseLoop cmd args currentArg inQuotes escapeNext
      else
        parseLoop cmd args (currentArg ++ [char]) inQuotes escapeNext
  end.

Definition parseCommand (cmd : list rune) : list (list rune) :=
  parseLoop cmd [] [] false false.







Lemma parseLoop_nonempty (cmd : list rune) :
  forall args currentArg inQuotes escapeNext,
    Forall (fun arg => arg <> []) args ->
    Forall (fun arg => arg <> []) (parseLoop cmd args currentArg inQuotes
                                     escapeNext).
Proof.
  assert (forall args (currentArg : list rune),
             Forall (fun arg => arg <> []) args ->
             (0 <? length currentArg)%nat = true ->
             Forall (fun arg : list rune => arg <> []) (args ++ [currentArg]))
    as Hpush.
  { intros args currentArg Hargs Hlen. apply Forall_app. split; [done|].
    apply Forall_singleton. intros ->. discriminate Hlen. }
  induction cmd as [|char cmd IH]; intros args currentArg inQuotes escapeNext
    Hargs; cbn [parseLoop].
  - destruct (0 <? length currentArg)%nat eqn:Hlen; [by apply Hpush|done].
  - destruct escapeNext; [by apply IH|].
    destruct (char =? backslash); [by apply IH|].
    destruct (char =? doubleQuote); [by apply IH|].
    destruct ((char =? space) && negb inQuotes); [|by apply IH].
    destruct (0 <? length currentArg)%nat eqn:Hlen; [|by apply IH].
    apply IH. by apply Hpush.
Qed.







(** No argument that [parseCommand] returns is empty: spaces in a row,
    and a pair of quotes with nothing between them, give no argument. *)
Theorem parseCommand_no_empty_argument (cmd : list rune) :
  Forall (fun arg => arg <> []) (parseCommand cmd).
Proof. by apply parseLoop_nonempty. Qed.





End CommandLine.

(* ===================================================================== *)
(** * Package utils                                                      *)
(* ===================================================================== *)

Module Utils.

Definition unit : Z := 1024.

(** The letters of ["KMGTPE"]. *)
Definition unitLetters : list string := ["K"; "M"; "G"; "T"; "P"; "E"].

(** The loop of [FormatBytes]: [n] is divided by 1024 each time round, so
    that 64 rounds are more than an [int64] can take; [None] would be a
    loop that has not ended after [fuel] rounds. *)
Fixpoint formatLoop (fuel : nat) (n div exp : Z) : option (Z * Z) :=
  if n >=? unit then
    match fuel with
    | O => None
    | S fuel => formatLoop fuel (n ÷ unit) (wrap64 (div * unit)) (exp + 1)
    end
  else Some (div, exp).

(** [strings.Replace(s, old, new, -1)] for [old] and [new] of one byte
    each. *)
Fixpoint replaceAll (old new : ascii) (s : string) : string :=
  match s with
  | EmptyString => EmptyString
  | String c s =>
      String (if Ascii.eqb c old then new else c) (replaceAll old new s)
  end.

(** What [os.Stat] reports for a path. *)
Inductive statResult : Type :=
| NotExist
| StatError (err : string)
| FileInfo (isDir : bool).

Definition searchDirs : list string := ["Downloads"; "Documents"; "Desktop"].

Section Platform.

(** [%.1f] of [float64(b) / float64(div)]. *)
Variable formatFloat : Z -> Z -> string.

(** [os.Stat], [os.UserHomeDir] (a directory or an error) and
    [filepath.Join] of three elements. *)
Variable stat : string -> statResult.
Variable UserHomeDir : string + string.
Variable Join : string -> string -> string -> string.

(** [FormatBytes]: the index into ["KMGTPE"] panics when it is out of
    range. *)
Definition FormatBytes (b : Z) : option (outcome string) :=
  if b <? unit then Some (Ok (TcpManager.showInt b +:+ " B"))
  else
    match formatLoop 64 (b ÷ unit) unit 0 with
    | None => None
    | Some (div, exp) =>
        match (if exp <? 0 then None
               else unitLetters !! Z.to_nat exp) with
        | None => Some (Panic ("index out of range"))
        | Some letter =>
            Some (Ok (formatFloat b div +:+ " " +:+ letter +:+ "iB"))
        end
    end.

(** [FileExists]: when [os.Stat] fails with another error than that the
    file does not exist, [info] is nil and [info.IsDir()] panics. *)
Definition FileExists (filename : string) : outcome bool :=
  match stat filename with
  | NotExist => Ok false
  | StatError _ => Panic "invalid memory address or nil pointer dereference"
  | FileInfo isDir => Ok (negb isDir)
  end.

(** The loop of [FindFileInCommonDirs]. *)
Fixpoint searchLoop (homeDir : string) (dirs : list string)
    (filename : string) : outcome string :=
  match dirs with
  | [] => Err "file not found in Desktop, Documents, or Downloads"
  | dir :: dirs =>
      let searchPath := Join homeDir dir filename in
      match FileExists searchPath with
      | Ok true => Ok searchPath
      | Ok false => searchLoop homeDir dirs filename
      | Err e => Err e
      | Panic p => Panic p
      end
  end.

(** [FindFileInCommonDirs]. *)
Definition FindFileInCommonDirs (filename : string) : outcome string :=
  match UserHomeDir with
  | inr err => Err ("could not find user home directory: " +:+ err)
  | inl homeDir => searchLoop homeDir searchDirs filename
  end.

End Platform.

(** [GenerateNodeName]; [hostname] is what [os.Hostname] returns, [None]
    when it fails. *)
Definition GenerateNodeName (hostname : option string) : string :=
  let hostname := default "unknown-device" hostname in
  let cleanName := replaceAll "." "-" hostname in
  replaceAll " " "-" cleanName.

Lemma formatLoop_invariant (b : Z) (fuel : nat) :
  forall n div exp,
    0 <= exp -> div = 1024 ^ (exp + 1) -> div <= b <= MaxInt64 ->
    n = b / div -> n < 1024 ^ Z.of_nat fuel ->
    exists exp',
      formatLoop fuel n div exp = Some (1024 ^ (exp' + 1), exp') /\
      exp <= exp' /\ 1024 ^ (exp' + 1) <= b < 1024 ^ (exp' + 2).
Proof.
  induction fuel as [|fuel IH]; intros n div exp Hexp Hdiv Hb Hn Hfuel.
  - assert (0 < div) as Hpos by (subst div; by apply Z.pow_pos_nonneg; lia).
    change (1024 ^ Z.of_nat 0) with 1 in Hfuel.
    exists exp. cbn [formatLoop]. unfold unit.
    assert ((n >=? 1024) = false) as -> by lia.
    split; [by rewrite Hdiv|]. split; [lia|]. split; [lia|].
    replace (exp + 2) with (Z.succ (exp + 1)) by lia.
    rewrite Z.pow_succ_r by lia. rewrite <- Hdiv.
    pose proof (Z.mul_succ_div_gt b div Hpos). nia.
  - assert (0 < div) as Hpos by (subst div; by apply Z.pow_pos_nonneg; lia).
    assert (0 <= n) as Hn0 by (subst n; apply Z.div_pos; lia).
    cbn [formatLoop]. unfold unit. destruct (n >=? 1024) eqn:Hcmp.
    + assert (1024 <= b / div) as Hge by lia.
      assert (div * 1024 <= b) as Hroom.
      { pose proof (Z.mul_div_le b div Hpos). nia. }
      assert (wrap64 (div * 1024) = div * 1024) as ->.
      { apply Transfer.wrap64_small. unfold MaxInt64 in *. lia. }
      rewrite Z.quot_div_nonneg by lia.
      destruct (IH (n / 1024) (div * 1024) (exp + 1)) as (exp' & Hrun & Hle & Hrange).
      * lia.
      * replace (exp + 1 + 1) with (Z.succ (exp + 1)) by lia.
        rewrite Z.pow_succ_r by lia. lia.
      * lia.
      * subst n. rewrite Z.div_div by lia. done.
      * apply Z.div_lt_upper_bound; [lia|].
        rewrite Nat2Z.inj_succ, Z.pow_succ_r in Hfuel by lia. lia.
      * exists exp'. split; [done|]. split; [lia|done].
    + exists exp. split; [by rewrite Hdiv|]. split; [lia|]. split; [lia|].
      replace (exp + 2) with (Z.succ (exp + 1)) by lia.
      rewrite Z.pow_succ_r by lia. rewrite <- Hdiv.
      pose proof (Z.mul_succ_div_gt b div Hpos). nia.
Qed.

Lemma replaceAll_length (old new : ascii) (s : string) :
  String.length (replaceAll old new s) = String.length s.
Proof. induction s as [|c s IH]; simpl; by f_equal. Qed.

Lemma replaceAll_get (old new : ascii) (s : string) :
  forall i,
    String.get i (replaceAll old new s)
    = (fun c => if Ascii.eqb c old then new else c) <$> String.get i s.
Proof.
  induction s as [|c s IH]; intros i; [done|].
  destruct i as [|i]; [done|]. apply IH.
Qed.

Section PlatformFacts.

Variable formatFloat : Z -> Z -> string.
Variable stat : string -> statResult.
Variable UserHomeDir : string + string.
Variable Join : string -> string -> string -> string.

(** [FormatBytes] returns for every [int64]: the loop ends, no product
    overflows and the index into ["KMGTPE"] is in range.  Below 1024,
    negative numbers included, the number is printed as it is; from
    1024 on the divisor is the largest power of 1024 that is not above
    the number, and the letter is the one of that power. *)
Theorem FormatBytes_unit (b : Z) :
  - 2 ^ 63 <= b <= MaxInt64 ->
  (b < 1024 ->
   FormatBytes formatFloat b = Some (Ok (TcpManager.showInt b +:+ " B"))) /\
  (1024 <= b ->
   exists exp letter,
     0 <= exp <= 5 /\ unitLetters !! Z.to_nat exp = Some letter /\
     1024 ^ (exp + 1) <= b < 1024 ^ (exp + 2) /\
     FormatBytes formatFloat b
     = Some (Ok (formatFloat b (1024 ^ (exp + 1)) +:+ " " +:+ letter
                 +:+ "iB"))).
Proof.
  intros Hb. unfold FormatBytes, unit. split; intros Hcase.
  - by assert ((b <? 1024) = true) as -> by lia.
  - assert ((b <? 1024) = false) as -> by lia.
    destruct (formatLoop_invariant b 64 (b ÷ 1024) 1024 0)
      as (exp & Hrun & Hexp & Hlow & Hhigh).
    + lia.
    + done.
    + lia.
    + rewrite Z.quot_div_nonneg by lia. done.
    + rewrite Z.quot_div_nonneg by lia.
      apply Z.div_lt_upper_bound; [lia|]. unfold MaxInt64 in Hb.
      change (1024 ^ Z.of_nat 64) with (2 ^ 640). 
      assert (2 ^ 63 < 2 ^ 640) by (by apply Z.pow_lt_mono_r). lia.
    + assert (exp <= 5) as Hfive.
      { destruct (decide (exp <= 5)) as [|Hbig]; [done|].
        assert (1024 ^ 7 <= 1024 ^ (exp + 1)) as Hpow
          by (apply Z.pow_le_mono_r; lia).
        change (1024 ^ 7) with (2 ^ 70) in Hpow.
        assert (2 ^ 63 < 2 ^ 70) by (by apply Z.pow_lt_mono_r).
        unfold MaxInt64 in Hb. lia. }
      assert (exists letter, unitLetters !! Z.to_nat exp = Some letter)
        as [letter Hletter].
      { apply lookup_lt_is_Some_2. unfold unitLetters. simpl. lia. }
      exists exp, letter. split; [lia|]. split; [done|].
      split; [lia|]. unfold unit in Hrun. rewrite Hrun.
      assert ((exp <? 0) = false) as -> by lia. by rewrite Hletter.
Qed.

(** What [FindFileInCommonDirs] returns is a file that is no directory,
    in Downloads, Documents or Desktop of the home directory, and the
    first of them in this order; it returns its error only when none of
    the three has such a file. *)
Theorem FindFileInCommonDirs_first (homeDir filename : string) :
  UserHomeDir = inl homeDir ->
  (forall searchPath,
      FindFileInCommonDirs stat UserHomeDir Join filename = Ok searchPath ->
      exists i dir,
        searchDirs !! i = Some dir /\
        searchPath = Join homeDir dir filename /\
        stat searchPath = FileInfo false /\
        forall j earlier,
          (j < i)%nat -> searchDirs !! j = Some earlier ->
          stat (Join homeDir earlier filename) = NotExist \/
          stat (Join homeDir earlier filename) = FileInfo true) /\
  (forall err,
      FindFileInCommonDirs stat UserHomeDir Join filename = Err err ->
      err = "file not found in Desktop, Documents, or Downloads" /\
      forall dir,
        dir ∈ searchDirs ->
        stat (Join homeDir dir filename) = NotExist \/
        stat (Join homeDir dir filename) = FileInfo true).
Proof.
  intros Hhome. unfold FindFileInCommonDirs. rewrite Hhome.
  generalize searchDirs as dirs. intros dirs. split.
  - induction dirs as [|dir dirs IH]; intros searchPath Hrun;
      cbn [searchLoop] in Hrun; [done|].
    unfold FileExists in Hrun.
    destruct (stat (Join homeDir dir filename)) as [|e|[|]] eqn:Hstat;
      cbn [negb] in Hrun; try done.
    + destruct (IH _ Hrun) as (i & d & Hi & -> & Hfile & Hearlier).
      exists (S i), d. split_and!; try done.
      intros [|j] earlier Hj Hlook.
      * inversion Hlook; subst. by left.
      * apply (Hearlier j); [lia|done].
    + destruct (IH _ Hrun) as (i & d & Hi & -> & Hfile & Hearlier).
      exists (S i), d. split_and!; try done.
      intros [|j] earlier Hj Hlook.
      * inversion Hlook; subst. by right.
      * apply (Hearlier j); [lia|done].
    + inversion Hrun; subst. exists 0%nat, dir. split_and!; try done.
      intros j earlier Hj. lia.
  - induction dirs as [|dir dirs IH]; intros err Hrun;
      cbn [searchLoop] in Hrun.
    + inversion Hrun. split; [done|]. intros dir Hdir.
      by apply elem_of_nil in Hdir.
    + unfold FileExists in Hrun.
      destruct (stat (Join homeDir dir filename)) as [|e|[|]] eqn:Hstat;
        cbn [negb] in Hrun; try done.
      * destruct (IH _ Hrun) as [-> Hall]. split; [done|].
        intros d [->|Hd]%elem_of_cons; [by left|by apply Hall].
      * destruct (IH _ Hrun) as [-> Hall]. split; [done|].
        intros d [->|Hd]%elem_of_cons; [by right|by apply Hall].
Qed.

End PlatformFacts.

(** A sample of the platform: [%.1f] where the quotient has no more than
    one decimal, a home directory with a file in Documents and a
    directory of the same name in Downloads. *)
Definition sampleFormatFloat (b div : Z) : string :=
  TcpManager.showInt (b / div) +:+ "." +:+
  TcpManager.showInt ((b * 10 / div) mod 10).

Definition sampleJoin (homeDir dir filename : string) : string :=
  homeDir +:+ "/" +:+ dir +:+ "/" +:+ filename.

Definition sampleStat (path : string) : statResult :=
  if String.eqb path "/home/u/Downloads/notes.txt" then FileInfo true
  else if String.eqb path "/home/u/Documents/notes.txt" then FileInfo false
  else if String.eqb path "/home/u/Desktop/notes.txt" then FileInfo false
  else NotExist.

Lemma FormatBytes_unit_witness :
  FormatBytes sampleFormatFloat 1023 = Some (Ok "1023 B") /\
  FormatBytes sampleFormatFloat 1536 = Some (Ok "1.5 KiB") /\
  FormatBytes sampleFormatFloat (3 * 2 ^ 59) = Some (Ok "1.5 EiB").
Proof.
  split_and!.
  - apply (FormatBytes_unit sampleFormatFloat 1023); unfold MaxInt64; lia.
  - destruct (FormatBytes_unit sampleFormatFloat 1536) as [_ Hunit];
      [unfold MaxInt64; lia|].
    destruct Hunit as (exp & letter & _ & _ & _ & _); [lia|].
    reflexivity.
  - destruct (FormatBytes_unit sampleFormatFloat (3 * 2 ^ 59)) as [_ Hunit];
      [unfold MaxInt64; lia|].
    destruct Hunit as (exp & letter & _ & _ & _ & _); [lia|].
    reflexivity.
Defined.

Lemma FindFileInCommonDirs_first_witness :
  FindFileInCommonDirs sampleStat (inl "/home/u") sampleJoin "notes.txt"
  = Ok "/home/u/Documents/notes.txt" /\
  sampleStat "/home/u/Documents/notes.txt" = FileInfo false.
Proof.
  split; [reflexivity|].
  destruct (FindFileInCommonDirs_first sampleStat (inl "/home/u") sampleJoin
              "/home/u" "notes.txt" eq_refl) as [Hfound _].
  destruct (Hfound "/home/u/Documents/notes.txt" eq_refl)
    as (_ & _ & _ & _ & Hstat & _).
  exact Hstat.
Defined.

(** The name that [GenerateNodeName] returns has no dot and no space: it
    is the host name, byte for byte, with a hyphen for each of them. *)
Theorem GenerateNodeName_clean (hostname : string) :
  String.length (GenerateNodeName (Some hostname)) = String.length hostname /\
  forall i c,
    String.get i (GenerateNodeName (Some hostname)) = Some c ->
    c <> "."%char /\ c <> " "%char /\
    exists c0,
      String.get i hostname = Some c0 /\
      c = (if Ascii.eqb c0 "." || Ascii.eqb c0 " " then "-"%char else c0).
Proof.
  unfold GenerateNodeName. cbn [default]. unfold id. split.
  - by rewrite !replaceAll_length.
  - intros i c. rewrite !replaceAll_get.
    destruct (String.get i hostname) as [c0|];
      cbn [fmap option_fmap option_map]; [|done].
    intros [= <-].
    destruct (Ascii.eqb c0 ".") eqn:Hdot; cbn [orb].
    + change (Ascii.eqb "-" " ") with false. cbv iota.
      split_and!; [done|done|]. exists c0. by rewrite Hdot.
    + destruct (Ascii.eqb c0 " ") eqn:Hsp.
      * split_and!; [done|done|]. exists c0. by rewrite Hdot, Hsp.
      * split_and!.
        -- by apply Ascii.eqb_neq.
        -- by apply Ascii.eqb_neq.
        -- exists c0. by rewrite Hdot, Hsp.
Qed.

End Utils.
